(** * FlowCtl: workflow orchestrator

    A shallow embedding of the orchestration plane of FlowCtl (Go):
    the task and workflow model ([internal/core]), the YAML front-end with
    its dependency validation, the PostgreSQL state store, the Redis work
    queue, the scheduler loops, the HTTP API and the worker runtime,
    followed by the properties of the specification checked against them.

    Conventions of the embedding.
    - Go [int] and [time.Duration] are 64-bit: they are [Z], and the one
      place where the code multiplies and shifts durations has the
      wrap-around written out ([wrap64]).
    - [time.Time] is an instant in [Z]; every [time.Now()] is an explicit
      argument [now].
    - [uuid.New()] draws from an explicit supply [uuid : nat -> string].
    - Go maps are [gmap]; reading a missing key of a [map[string]bool]
      yields [false] ([getb]).
    - A number of a payload is the [float64] that JSON decoding gives
      it, with its IEEE 754 sign, mantissa and exponent.
    - A status ([TaskStatus], [WorkflowStatus]) is a Go string with named
      constants: it is an enumeration of those constants.
    - Errors are values of [result]; the message is the one the code
      formats, and the text of an error that a library produces is
      abbreviated.
    - Failures of the infrastructure (a lost connection to PostgreSQL or
      Redis) are not modelled: a store or queue operation fails only for
      a reason the data gives it. *)

From Stdlib Require Import ZArith QArith Lia SpecFloat.
From stdpp Require Import base gmap strings list fin_maps pretty sorting.

#[local] Open Scope string_scope.
#[local] Open Scope Z_scope.

(** ** Common definitions *)

Inductive result (A : Type) : Type :=
| Ok (a : A)
| Err (msg : string).
Arguments Ok {A} a.
Arguments Err {A} msg.

(** [m[k]] on a Go [map[string]bool]: the zero value [false] when absent. *)
Definition getb (m : gmap string bool) (k : string) : bool :=
  default false (m !! k).

(** A [float64], as the sign, mantissa and exponent of IEEE 754 binary64
    ([spec_float] of the standard library, precision 53, [emax] 1024). *)
Definition float64 : Type := spec_float.

#[global] Instance float64_eq_dec : EqDecision float64.
Proof. unfold float64. solve_decision. Defined.

(** The [float64] nearest to [m * 2^e], and the [float64] quotient of two
    integers that a [float64] holds exactly: what a Go constant or a JSON
    literal of that value denotes. *)
Definition float64_of (m e : Z) : float64 := binary_normalize 53 1024 m e false.

Definition float64_div (n d : Z) : float64 :=
  SFdiv 53 1024 (float64_of n 0) (float64_of d 0).

(** A value held in a payload or a result ([map[string]interface{}]).
    Decoding JSON yields a [float64] for every number; a result map built
    by a worker also holds Go [int]s.  [JDuration ns] stands for the text
    [time.Duration(ns).String()]. *)
Inductive JValue : Type :=
| JString (s : string)
| JInteger (n : Z)
| JFloat (f : float64)
| JDuration (ns : Z).

#[global] Instance JValue_eq_dec : EqDecision JValue.
Proof. solve_decision. Defined.

(** Two's complement wrap-around of a 64-bit signed integer. *)
Definition wrap64 (z : Z) : Z := (z + 2 ^ 63) mod 2 ^ 64 - 2 ^ 63.

Definition time_Second : Z := 1000000000.
Definition time_Minute : Z := 60 * time_Second.
Definition time_Hour : Z := 60 * time_Minute.

(** ** Package core: tasks and workflows (task.go) *)

Module core.

Inductive TaskStatus : Type :=
| TaskStatusPending
| TaskStatusRunning
| TaskStatusCompleted
| TaskStatusFailed
| TaskStatusRetrying
| TaskStatusCancelled.

Inductive WorkflowStatus : Type :=
| WorkflowStatusPending
| WorkflowStatusRunning
| WorkflowStatusCompleted
| WorkflowStatusFailed
| WorkflowStatusCancelled.

#[global] Instance TaskStatus_eq_dec : EqDecision TaskStatus.
Proof. solve_decision. Defined.
#[global] Instance WorkflowStatus_eq_dec : EqDecision WorkflowStatus.
Proof. solve_decision. Defined.

Record Task : Type := mkTask {
  Task_ID : string;
  Task_WorkflowID : string;
  Task_Name : string;
  Task_Type : string;
  Task_Payload : gmap string JValue;
  Task_Status : TaskStatus;
  Task_Result : option (gmap string JValue);   (* nil map = None *)
  Task_Error : string;
  Task_RetryCount : Z;
  Task_MaxRetries : Z;
  Task_Priority : Z;
  Task_Dependencies : list string;
  Task_CreatedAt : Z;
  Task_UpdatedAt : Z;
  Task_StartedAt : option Z;
  Task_CompletedAt : option Z
}.

#[global] Instance Task_eq_dec : EqDecision Task.
Proof. solve_decision. Defined.

Record RetryPolicy : Type := mkRetryPolicy {
  MaxAttempts : Z;
  InitialDelay : Z;
  MaxDelay : Z;
  BackoffFactor : Q
}.

Record WorkflowConfig : Type := mkWorkflowConfig {
  MaxConcurrency : Z;
  Timeout : Z;
  Config_RetryPolicy : RetryPolicy
}.

Record Workflow : Type := mkWorkflow {
  Workflow_ID : string;
  Workflow_Name : string;
  Workflow_Description : string;
  Workflow_Status : WorkflowStatus;
  Workflow_Tasks : list Task;
  Workflow_Config : WorkflowConfig;
  Workflow_CreatedAt : Z;
  Workflow_UpdatedAt : Z;
  Workflow_StartedAt : option Z;
  Workflow_CompletedAt : option Z
}.

(** [NewTask]: [id] is the value of [uuid.New().String()]. *)
Definition NewTask (id : string) (now : Z) (workflowID name taskType : string)
    (payload : gmap string JValue) : Task :=
  {| Task_ID := id;
     Task_WorkflowID := workflowID;
     Task_Name := name;
     Task_Type := taskType;
     Task_Payload := payload;
     Task_Status := TaskStatusPending;
     Task_Result := None;
     Task_Error := "";
     Task_RetryCount := 0;
     Task_MaxRetries := 3;
     Task_Priority := 1;
     Task_Dependencies := [];
     Task_CreatedAt := now;
     Task_UpdatedAt := now;
     Task_StartedAt := None;
     Task_CompletedAt := None |}.

Definition NewWorkflow (id : string) (now : Z) (name description : string) : Workflow :=
  {| Workflow_ID := id;
     Workflow_Name := name;
     Workflow_Description := description;
     Workflow_Status := WorkflowStatusPending;
     Workflow_Tasks := [];
     Workflow_Config :=
       {| MaxConcurrency := 10;
          Timeout := time_Hour;
          Config_RetryPolicy :=
            {| MaxAttempts := 3;
               InitialDelay := time_Second;
               MaxDelay := 5 * time_Minute;
               BackoffFactor := 2 # 1 |} |};
     Workflow_CreatedAt := now;
     Workflow_UpdatedAt := now;
     Workflow_StartedAt := None;
     Workflow_CompletedAt := None |}.

(** The [for _, dep := range t.Dependencies] loop of [CanExecute]:
    [false] as soon as a dependency is not a key of [completedTasks]. *)
Fixpoint depsCompleted (deps : list string) (completedTasks : gmap string bool) : bool :=
  match deps with
  | [] => true
  | dep :: rest =>
      if negb (getb completedTasks dep) then false
      else depsCompleted rest completedTasks
  end.

Definition CanExecute (t : Task) (completedTasks : gmap string bool) : bool :=
  if depsCompleted (Task_Dependencies t) completedTasks then
    bool_decide (Task_Status t = TaskStatusPending)
    || bool_decide (Task_Status t = TaskStatusRetrying)
  else false.

(** Field updates used by the front-ends. *)
Definition Task_setMaxRetries (v : Z) (t : Task) : Task :=
  mkTask (Task_ID t) (Task_WorkflowID t) (Task_Name t) (Task_Type t) (Task_Payload t)
    (Task_Status t) (Task_Result t) (Task_Error t) (Task_RetryCount t) v
    (Task_Priority t) (Task_Dependencies t) (Task_CreatedAt t) (Task_UpdatedAt t)
    (Task_StartedAt t) (Task_CompletedAt t).

Definition Task_setPriority (v : Z) (t : Task) : Task :=
  mkTask (Task_ID t) (Task_WorkflowID t) (Task_Name t) (Task_Type t) (Task_Payload t)
    (Task_Status t) (Task_Result t) (Task_Error t) (Task_RetryCount t) (Task_MaxRetries t)
    v (Task_Dependencies t) (Task_CreatedAt t) (Task_UpdatedAt t)
    (Task_StartedAt t) (Task_CompletedAt t).

Definition Task_setDependencies (v : list string) (t : Task) : Task :=
  mkTask (Task_ID t) (Task_WorkflowID t) (Task_Name t) (Task_Type t) (Task_Payload t)
    (Task_Status t) (Task_Result t) (Task_Error t) (Task_RetryCount t) (Task_MaxRetries t)
    (Task_Priority t) v (Task_CreatedAt t) (Task_UpdatedAt t)
    (Task_StartedAt t) (Task_CompletedAt t).

Definition Workflow_setTasks (v : list Task) (w : Workflow) : Workflow :=
  mkWorkflow (Workflow_ID w) (Workflow_Name w) (Workflow_Description w) (Workflow_Status w)
    v (Workflow_Config w) (Workflow_CreatedAt w) (Workflow_UpdatedAt w)
    (Workflow_StartedAt w) (Workflow_CompletedAt w).

Definition Workflow_setConfig (v : WorkflowConfig) (w : Workflow) : Workflow :=
  mkWorkflow (Workflow_ID w) (Workflow_Name w) (Workflow_Description w) (Workflow_Status w)
    (Workflow_Tasks w) v (Workflow_CreatedAt w) (Workflow_UpdatedAt w)
    (Workflow_StartedAt w) (Workflow_CompletedAt w).

End core.

(** ** Package core: the YAML front-end (yaml_parser.go) *)

Module yaml.
Import core.

Record RetryPolicySpec : Type := mkRetryPolicySpec {
  Spec_MaxAttempts : Z;
  Spec_InitialDelay : string;
  Spec_MaxDelay : string;
  Spec_BackoffFactor : Q
}.

Record WorkflowConfigSpec : Type := mkWorkflowConfigSpec {
  Spec_MaxConcurrency : Z;
  Spec_Timeout : string;
  Spec_RetryPolicy : RetryPolicySpec
}.

Record TaskSpec : Type := mkTaskSpec {
  TaskSpec_Name : string;
  TaskSpec_Type : string;
  TaskSpec_Payload : gmap string JValue;
  TaskSpec_MaxRetries : Z;
  TaskSpec_Priority : Z;
  TaskSpec_Dependencies : list string      (* depends_on *)
}.

Record WorkflowSpec : Type := mkWorkflowSpec {
  Spec_Name : string;
  Spec_Description : string;
  Spec_Config : WorkflowConfigSpec;
  Spec_Tasks : list TaskSpec
}.

(** *** Cycle detection *)

(** [visited] and [recStack] of [hasCycle]. *)
Record dfs : Type := mkDfs {
  visited : gmap string bool;
  recStack : gmap string bool
}.

(** [taskDeps]: a later task of the same name overwrites an earlier one. *)
Definition mkTaskDeps (tasks : list Task) : gmap string (list string) :=
  foldl (fun m t => <[Task_Name t := Task_Dependencies t]> m) ∅ tasks.

(** The [for _, dep := range taskDeps[taskName]] loop of [hasCycleUtil];
    [visit] is the recursive call.  [None]: the recursion ran out of fuel. *)
Fixpoint visitDeps (visit : string -> dfs -> option (bool * dfs))
    (deps : list string) (st : dfs) : option (bool * dfs) :=
  match deps with
  | [] => Some (false, st)
  | dep :: rest =>
      if negb (getb (visited st) dep) then
        match visit dep st with
        | None => None
        | Some (true, st') => Some (true, st')
        | Some (false, st') =>
            if getb (recStack st') dep then Some (true, st')
            else visitDeps visit rest st'
        end
      else if getb (recStack st) dep then Some (true, st)
      else visitDeps visit rest st
  end.

Fixpoint hasCycleUtil (fuel : nat) (taskDeps : gmap string (list string))
    (taskName : string) (st : dfs) : option (bool * dfs) :=
  match fuel with
  | O => None
  | S fuel' =>
      let st1 := {| visited := <[taskName := true]> (visited st);
                    recStack := <[taskName := true]> (recStack st) |} in
      match visitDeps (hasCycleUtil fuel' taskDeps)
              (default [] (taskDeps !! taskName)) st1 with
      | None => None
      | Some (true, st2) => Some (true, st2)
      | Some (false, st2) =>
          Some (false, {| visited := visited st2;
                          recStack := <[taskName := false]> (recStack st2) |})
      end
  end.

(** The final [for _, task := range tasks] loop of [hasCycle]. *)
Fixpoint hasCycleLoop (fuel : nat) (taskDeps : gmap string (list string))
    (tasks : list Task) (st : dfs) : option bool :=
  match tasks with
  | [] => Some false
  | task :: rest =>
      if negb (getb (visited st) (Task_Name task)) then
        match hasCycleUtil fuel taskDeps (Task_Name task) st with
        | None => None
        | Some (true, _) => Some true
        | Some (false, st') => hasCycleLoop fuel taskDeps rest st'
        end
      else hasCycleLoop fuel taskDeps rest st
  end.

(** A bound on the depth of the recursion: every call is on a name not yet
    visited, and the names are task names or names in dependency lists. *)
Definition depthBound (tasks : list Task) : nat :=
  S (length tasks + length (concat (map Task_Dependencies tasks))).

Definition hasCycleFuel (fuel : nat) (tasks : list Task) : option bool :=
  hasCycleLoop fuel (mkTaskDeps tasks) tasks {| visited := ∅; recStack := ∅ |}.

(** [hasCycle]: the recursion is run with [depthBound tasks], which is
    always enough ([hasCycleFuel_total] below). *)
Definition hasCycle (tasks : list Task) : bool :=
  match hasCycleFuel (depthBound tasks) tasks with
  | Some b => b
  | None => true
  end.

(** *** Dependency validation *)

Definition mkTaskNames (tasks : list Task) : gmap string bool :=
  foldl (fun m t => <[Task_Name t := true]> m) ∅ tasks.

(** Inner loop of the dangling-reference check: the first dependency of
    the list that is not a task name. *)
Fixpoint firstMissing (taskNames : gmap string bool) (deps : list string) : option string :=
  match deps with
  | [] => None
  | dep :: rest =>
      if negb (getb taskNames dep) then Some dep else firstMissing taskNames rest
  end.

Fixpoint checkReferences (taskNames : gmap string bool) (tasks : list Task) : result unit :=
  match tasks with
  | [] => Ok tt
  | task :: rest =>
      match firstMissing taskNames (Task_Dependencies task) with
      | Some dep =>
          Err ("task " ++ Task_Name task ++ " depends on non-existent task " ++ dep)
      | None => checkReferences taskNames rest
      end
  end.

Definition validateWorkflowDependencies (tasks : list Task) : result unit :=
  match checkReferences (mkTaskNames tasks) tasks with
  | Err e => Err e
  | Ok _ =>
      if hasCycle tasks then Err "workflow contains circular dependencies"
      else Ok tt
  end.

(** *** Conversion of a parsed definition *)

Section Convert.
(** [time.ParseDuration] of the Go library; the error is its message. *)
Variable ParseDuration : string -> result Z.
(** The supply [uuid.New()] draws from, and the clock. *)
Variable uuid : nat -> string.
Variable now : Z.

Definition convertTask (workflowID : string) (id : string) (taskSpec : TaskSpec) : Task :=
  let task := NewTask id now workflowID (TaskSpec_Name taskSpec)
                (TaskSpec_Type taskSpec) (TaskSpec_Payload taskSpec) in
  let task := if TaskSpec_MaxRetries taskSpec >? 0
              then Task_setMaxRetries (TaskSpec_MaxRetries taskSpec) task else task in
  let task := if TaskSpec_Priority taskSpec >? 0
              then Task_setPriority (TaskSpec_Priority taskSpec) task else task in
  Task_setDependencies (TaskSpec_Dependencies taskSpec) task.

(** The task loop: the [i]-th task takes the [i]-th draw after [k]. *)
Fixpoint convertTasks (workflowID : string) (k : nat) (specs : list TaskSpec) : list Task :=
  match specs with
  | [] => []
  | taskSpec :: rest =>
      convertTask workflowID (uuid k) taskSpec :: convertTasks workflowID (S k) rest
  end.

Definition convertConfig (c : WorkflowConfigSpec) (cfg : WorkflowConfig) : result WorkflowConfig :=
  let maxc := if Spec_MaxConcurrency c >? 0 then Spec_MaxConcurrency c
              else MaxConcurrency cfg in
  match (if bool_decide (Spec_Timeout c = "") then Ok (Timeout cfg)
         else match ParseDuration (Spec_Timeout c) with
              | Ok d => Ok d
              | Err e => Err ("invalid timeout duration: " ++ e)
              end) with
  | Err e => Err e
  | Ok timeout =>
    let rp := Spec_RetryPolicy c in
    let p := Config_RetryPolicy cfg in
    let attempts := if Spec_MaxAttempts rp >? 0 then Spec_MaxAttempts rp
                    else MaxAttempts p in
    match (if bool_decide (Spec_InitialDelay rp = "") then Ok (InitialDelay p)
           else match ParseDuration (Spec_InitialDelay rp) with
                | Ok d => Ok d
                | Err e => Err ("invalid initial delay: " ++ e)
                end) with
    | Err e => Err e
    | Ok initial =>
      match (if bool_decide (Spec_MaxDelay rp = "") then Ok (MaxDelay p)
             else match ParseDuration (Spec_MaxDelay rp) with
                  | Ok d => Ok d
                  | Err e => Err ("invalid max delay: " ++ e)
                  end) with
      | Err e => Err e
      | Ok maxd =>
        let factor := if Qlt_le_dec 0 (Spec_BackoffFactor rp)
                      then Spec_BackoffFactor rp else BackoffFactor p in
        Ok {| MaxConcurrency := maxc;
              Timeout := timeout;
              Config_RetryPolicy :=
                {| MaxAttempts := attempts; InitialDelay := initial;
                   MaxDelay := maxd; BackoffFactor := factor |} |}
      end
    end
  end.

Definition convertSpecToWorkflow (spec : WorkflowSpec) : result Workflow :=
  let workflow := NewWorkflow (uuid 0) now (Spec_Name spec) (Spec_Description spec) in
  match convertConfig (Spec_Config spec) (Workflow_Config workflow) with
  | Err e => Err e
  | Ok cfg =>
      let workflow := Workflow_setConfig cfg workflow in
      let tasks := convertTasks (Workflow_ID workflow) 1 (Spec_Tasks spec) in
      let workflow := Workflow_setTasks tasks workflow in
      match validateWorkflowDependencies (Workflow_Tasks workflow) with
      | Err e => Err ("workflow validation failed: " ++ e)
      | Ok _ => Ok workflow
      end
  end.
End Convert.

End yaml.

(** ** Package storage: the state store (postgres.go)

    The two tables are lists of rows in insertion order.  A task row is
    the [Task] that [scanTask] reads back (a NULL [error] reads as the
    empty string, a NULL [result] as the nil map).  The primary keys and
    the foreign key of [tasks.workflow_id] are modelled; the width limits
    of the columns are not, and neither are connection failures. *)

Module storage.
Import core.

Record WorkflowRow : Type := mkWorkflowRow {
  row_id : string;
  row_name : string;
  row_description : string;
  row_status : WorkflowStatus;
  row_config : WorkflowConfig;
  row_created_at : Z;
  row_updated_at : Z;
  row_started_at : option Z;
  row_completed_at : option Z
}.

Record PostgresStore : Type := mkStore {
  workflows : list WorkflowRow;
  tasks : list Task
}.

Definition empty : PostgresStore := {| workflows := []; tasks := [] |}.

(** Stable insertion sort, for [ORDER BY]: rows that compare equal keep
    their insertion order. *)
Fixpoint insertBy {A : Type} (le : A -> A -> bool) (x : A) (l : list A) : list A :=
  match l with
  | [] => [x]
  | y :: l' => if le x y then x :: y :: l' else y :: insertBy le x l'
  end.

Definition sortBy {A : Type} (le : A -> A -> bool) (l : list A) : list A :=
  foldr (insertBy le) [] l.

Definition hasWorkflow (id : string) (s : PostgresStore) : bool :=
  existsb (fun r => bool_decide (row_id r = id)) (workflows s).

Definition hasTask (id : string) (s : PostgresStore) : bool :=
  existsb (fun t => bool_decide (Task_ID t = id)) (tasks s).

Definition CreateWorkflow (workflow : Workflow) (s : PostgresStore) : result PostgresStore :=
  if hasWorkflow (Workflow_ID workflow) s then
    Err "failed to create workflow: duplicate key value violates unique constraint"
  else
    Ok {| workflows := workflows s ++
            [ {| row_id := Workflow_ID workflow;
                 row_name := Workflow_Name workflow;
                 row_description := Workflow_Description workflow;
                 row_status := Workflow_Status workflow;
                 row_config := Workflow_Config workflow;
                 row_created_at := Workflow_CreatedAt workflow;
                 row_updated_at := Workflow_UpdatedAt workflow;
                 row_started_at := None;
                 row_completed_at := None |} ];
          tasks := tasks s |}.

(** The [INSERT] of [CreateTask] names twelve columns: [result], [error],
    [started_at] and [completed_at] are left NULL. *)
Definition CreateTask (task : Task) (s : PostgresStore) : result PostgresStore :=
  if hasTask (Task_ID task) s then
    Err "failed to create task: duplicate key value violates unique constraint"
  else if negb (hasWorkflow (Task_WorkflowID task) s) then
    Err "failed to create task: violates foreign key constraint"
  else
    Ok {| workflows := workflows s;
          tasks := tasks s ++
            [ mkTask (Task_ID task) (Task_WorkflowID task) (Task_Name task) (Task_Type task)
                (Task_Payload task) (Task_Status task) None "" (Task_RetryCount task)
                (Task_MaxRetries task) (Task_Priority task) (Task_Dependencies task)
                (Task_CreatedAt task) (Task_UpdatedAt task) None None ] |}.

Definition GetTask (id : string) (s : PostgresStore) : result Task :=
  match find (fun t => bool_decide (Task_ID t = id)) (tasks s) with
  | Some t => Ok t
  | None => Err "failed to scan task: sql: no rows in result set"
  end.

Definition GetTasksByWorkflow (workflowID : string) (s : PostgresStore) : list Task :=
  sortBy (fun a b => Task_CreatedAt a <=? Task_CreatedAt b)
    (filter (fun t => Task_WorkflowID t = workflowID) (tasks s)).

Definition GetWorkflow (id : string) (s : PostgresStore) : result Workflow :=
  match find (fun r => bool_decide (row_id r = id)) (workflows s) with
  | None => Err ("workflow not found: " ++ id)
  | Some r =>
      Ok {| Workflow_ID := row_id r;
            Workflow_Name := row_name r;
            Workflow_Description := row_description r;
            Workflow_Status := row_status r;
            Workflow_Tasks := GetTasksByWorkflow id s;
            Workflow_Config := row_config r;
            Workflow_CreatedAt := row_created_at r;
            Workflow_UpdatedAt := row_updated_at r;
            Workflow_StartedAt := row_started_at r;
            Workflow_CompletedAt := row_completed_at r |}
  end.

(** The [UPDATE] of [UpdateWorkflowStatus], on one row. *)
Definition setWorkflowStatus (status : WorkflowStatus) (now : Z) (r : WorkflowRow) : WorkflowRow :=
  match status with
  | WorkflowStatusRunning =>
      mkWorkflowRow (row_id r) (row_name r) (row_description r) status (row_config r)
        (row_created_at r) now (Some now) (row_completed_at r)
  | WorkflowStatusCompleted | WorkflowStatusFailed | WorkflowStatusCancelled =>
      mkWorkflowRow (row_id r) (row_name r) (row_description r) status (row_config r)
        (row_created_at r) now (row_started_at r) (Some now)
  | WorkflowStatusPending =>
      mkWorkflowRow (row_id r) (row_name r) (row_description r) status (row_config r)
        (row_created_at r) now (row_started_at r) (row_completed_at r)
  end.

Definition UpdateWorkflowStatus (id : string) (status : WorkflowStatus) (now : Z)
    (s : PostgresStore) : PostgresStore :=
  {| workflows := map (fun r => if bool_decide (row_id r = id)
                                then setWorkflowStatus status now r else r) (workflows s);
     tasks := tasks s |}.

(** The [UPDATE] of [UpdateTaskStatus], on one row: the [switch status]. *)
Definition setTaskStatus (status : TaskStatus) (result : option (gmap string JValue))
    (errorMsg : string) (now : Z) (t : Task) : Task :=
  match status with
  | TaskStatusRunning =>
      mkTask (Task_ID t) (Task_WorkflowID t) (Task_Name t) (Task_Type t) (Task_Payload t)
        status (Task_Result t) (Task_Error t) (Task_RetryCount t) (Task_MaxRetries t)
        (Task_Priority t) (Task_Dependencies t) (Task_CreatedAt t) now
        (Some now) (Task_CompletedAt t)
  | TaskStatusCompleted =>
      mkTask (Task_ID t) (Task_WorkflowID t) (Task_Name t) (Task_Type t) (Task_Payload t)
        status result (Task_Error t) (Task_RetryCount t) (Task_MaxRetries t)
        (Task_Priority t) (Task_Dependencies t) (Task_CreatedAt t) now
        (Task_StartedAt t) (Some now)
  | TaskStatusFailed =>
      mkTask (Task_ID t) (Task_WorkflowID t) (Task_Name t) (Task_Type t) (Task_Payload t)
        status (Task_Result t) errorMsg (Task_RetryCount t) (Task_MaxRetries t)
        (Task_Priority t) (Task_Dependencies t) (Task_CreatedAt t) now
        (Task_StartedAt t) (Some now)
  | TaskStatusRetrying =>
      mkTask (Task_ID t) (Task_WorkflowID t) (Task_Name t) (Task_Type t) (Task_Payload t)
        status (Task_Result t) (Task_Error t) (Task_RetryCount t + 1) (Task_MaxRetries t)
        (Task_Priority t) (Task_Dependencies t) (Task_CreatedAt t) now
        (Task_StartedAt t) (Task_CompletedAt t)
  | TaskStatusPending | TaskStatusCancelled =>
      mkTask (Task_ID t) (Task_WorkflowID t) (Task_Name t) (Task_Type t) (Task_Payload t)
        status (Task_Result t) (Task_Error t) (Task_RetryCount t) (Task_MaxRetries t)
        (Task_Priority t) (Task_Dependencies t) (Task_CreatedAt t) now
        (Task_StartedAt t) (Task_CompletedAt t)
  end.

Definition UpdateTaskStatus (id : string) (status : TaskStatus)
    (result : option (gmap string JValue)) (errorMsg : string) (now : Z)
    (s : PostgresStore) : PostgresStore :=
  {| workflows := workflows s;
     tasks := map (fun t => if bool_decide (Task_ID t = id)
                            then setTaskStatus status result errorMsg now t else t) (tasks s) |}.

Definition GetPendingTasks (s : PostgresStore) : list Task :=
  sortBy (fun a b => (Task_Priority b <? Task_Priority a)
                     || ((Task_Priority a =? Task_Priority b)
                         && (Task_CreatedAt a <=? Task_CreatedAt b)))
    (filter (fun t => Task_Status t = TaskStatusPending ∨ Task_Status t = TaskStatusRetrying)
       (tasks s)).

End storage.

(** ** Package queue: the work queue (redis.go)

    The Redis keyspace: lists (head = left end) and sorted sets (kept by
    ascending score; members of equal score in insertion order).  A queued
    element is the JSON text of a task; it is identified with the task
    that [TaskFromJSON] reads back from it, so [ToJSON] only erases what
    [omitempty] does not write.  Every element of the queue is written by
    [ToJSON], so [TaskFromJSON] does not fail on it. *)

Module queue.
Import core.

Record RedisQueue : Type := mkQueue {
  lists : gmap string (list Task);
  zsets : gmap string (list (Z * Task))
}.

Definition empty : RedisQueue := {| lists := ∅; zsets := ∅ |}.

Definition getList (q : RedisQueue) (key : string) : list Task :=
  default [] (lists q !! key).

Definition getZSet (q : RedisQueue) (key : string) : list (Z * Task) :=
  default [] (zsets q !! key).

Definition setList (key : string) (l : list Task) (q : RedisQueue) : RedisQueue :=
  {| lists := <[key := l]> (lists q); zsets := zsets q |}.

Definition setZSet (key : string) (z : list (Z * Task)) (q : RedisQueue) : RedisQueue :=
  {| lists := lists q; zsets := <[key := z]> (zsets q) |}.

Definition queueKey (taskType : string) : string := "queue:" ++ taskType.
Definition processingKey (taskType : string) : string := "processing:" ++ taskType.
Definition retryKey (taskType : string) : string := "retry:" ++ taskType.
Definition deadLetterKey (taskType : string) : string := "dead_letter:" ++ taskType.

(** [result] carries [omitempty]: an empty map is not written. *)
Definition ToJSON (t : Task) : Task :=
  if bool_decide (Task_Result t = Some ∅) then
    mkTask (Task_ID t) (Task_WorkflowID t) (Task_Name t) (Task_Type t) (Task_Payload t)
      (Task_Status t) None (Task_Error t) (Task_RetryCount t) (Task_MaxRetries t)
      (Task_Priority t) (Task_Dependencies t) (Task_CreatedAt t) (Task_UpdatedAt t)
      (Task_StartedAt t) (Task_CompletedAt t)
  else t.

Definition TaskFromJSON (data : Task) : Task := data.

(** Redis commands. *)
Definition LPush (key : string) (x : Task) (q : RedisQueue) : RedisQueue :=
  setList key (x :: getList q key) q.

(** [LREM key 1 x]: the first occurrence from the head. *)
Fixpoint removeFirst (x : Task) (l : list Task) : list Task :=
  match l with
  | [] => []
  | y :: l' => if bool_decide (y = x) then l' else y :: removeFirst x l'
  end.

Definition LRem1 (key : string) (x : Task) (q : RedisQueue) : RedisQueue :=
  setList key (removeFirst x (getList q key)) q.

Definition ZRem (key : string) (x : Task) (q : RedisQueue) : RedisQueue :=
  setZSet key (filter (fun e => e.2 ≠ x) (getZSet q key)) q.

Fixpoint insertScore (score : Z) (x : Task) (z : list (Z * Task)) : list (Z * Task) :=
  match z with
  | [] => [(score, x)]
  | e :: z' => if score <? e.1 then (score, x) :: e :: z'
               else e :: insertScore score x z'
  end.

(** [ZADD]: a member already present only changes its score. *)
Definition ZAdd (key : string) (score : Z) (x : Task) (q : RedisQueue) : RedisQueue :=
  setZSet key (insertScore score x (filter (fun e => e.2 ≠ x) (getZSet q key))) q.

(** [ZRANGEBYSCORE key min max LIMIT 0 count]. *)
Definition ZRangeByScore (key : string) (min max : Z) (count : nat) (q : RedisQueue) : list Task :=
  take count (map snd (filter (fun e => min ≤ e.1 ∧ e.1 ≤ max) (getZSet q key))).

(** [t.Unix()] of an instant in nanoseconds. *)
Definition Unix (t : Z) : Z := t / time_Second.

(** [time.Duration(1 << uint(retryCount))]: a shift of a 64-bit integer by
    an unsigned count; counts of 64 and more shift every bit out. *)
Definition shl1 (retryCount : Z) : Z :=
  let count := retryCount mod 2 ^ 64 in
  if count <? 64 then wrap64 (Z.shiftl 1 count) else 0.

Definition calculateBackoff (retryCount : Z) : Z :=
  let base := time_Second * 2 in
  let backoff := wrap64 (base * shl1 retryCount) in
  if backoff >? time_Minute * 5 then time_Minute * 5 else backoff.

Definition EnqueueTask (task : Task) (q : RedisQueue) : RedisQueue :=
  LPush (queueKey (Task_Type task)) (ToJSON task) q.

(** [BRPOPLPUSH]: the tail of the ready list moves to the head of the
    processing list; [None] when the ready list stays empty until the
    timeout. *)
Definition DequeueTask (taskType : string) (q : RedisQueue) : option Task * RedisQueue :=
  match reverse (getList q (queueKey taskType)) with
  | [] => (None, q)
  | x :: rest =>
      let q := setList (queueKey taskType) (reverse rest) q in
      let q := LPush (processingKey taskType) x q in
      (Some (TaskFromJSON x), q)
  end.

Definition AckTask (task : Task) (q : RedisQueue) : RedisQueue :=
  LRem1 (processingKey (Task_Type task)) (ToJSON task) q.

Definition NackTask (now : Z) (task : Task) (q : RedisQueue) : RedisQueue :=
  let taskJSON := ToJSON task in
  let q := LRem1 (processingKey (Task_Type task)) taskJSON q in
  if Task_RetryCount task <? Task_MaxRetries task then
    let retryAt := now + calculateBackoff (Task_RetryCount task) in
    ZAdd (retryKey (Task_Type task)) (Unix retryAt) taskJSON q
  else
    LPush (deadLetterKey (Task_Type task)) taskJSON q.

Definition ProcessRetries (now : Z) (taskType : string) (q : RedisQueue) : RedisQueue :=
  let due := ZRangeByScore (retryKey taskType) 0 (Unix now) 100 q in
  foldl (fun q taskJSON =>
           LPush (queueKey taskType) taskJSON (ZRem (retryKey taskType) taskJSON q))
        q due.

Record QueueStats : Type := mkQueueStats {
  stats_pending : nat;
  stats_processing : nat;
  stats_retry : nat;
  stats_dead_letter : nat
}.

Definition GetQueueStats (taskType : string) (q : RedisQueue) : QueueStats :=
  {| stats_pending := length (getList q (queueKey taskType));
     stats_processing := length (getList q (processingKey taskType));
     stats_retry := length (getZSet q (retryKey taskType));
     stats_dead_letter := length (getList q (deadLetterKey taskType)) |}.

End queue.

(** ** Package core: the scheduler (scheduler.go) *)

Module scheduler.
Import core.

Record Scheduler : Type := mkScheduler {
  store : storage.PostgresStore;
  queue : queue.RedisQueue
}.

(** [completedTasks]: keyed by the ID of every completed task. *)
Definition mkCompletedTasks (tasks : list Task) : gmap string bool :=
  foldl (fun m task => if bool_decide (Task_Status task = TaskStatusCompleted)
                       then <[Task_ID task := true]> m else m) ∅ tasks.

Definition tasksToSchedule (completedTasks : gmap string bool) (tasks : list Task) : list Task :=
  filter (fun task => CanExecute task completedTasks = true) tasks.

(** The last loop of [scheduleWorkflowTasks]. *)
Definition enqueueAll (now : Z) (tasks : list Task) (s : Scheduler) : Scheduler :=
  foldl (fun s task =>
           {| queue := queue.EnqueueTask task (queue s);
              store := storage.UpdateTaskStatus (Task_ID task) TaskStatusPending None ""
                         now (store s) |})
        s tasks.

Definition scheduleWorkflowTasks (now : Z) (workflowID : string) (tasks : list Task)
    (s : Scheduler) : result Scheduler :=
  match storage.GetWorkflow workflowID (store s) with
  | Err e => Err ("failed to get workflow: " ++ e)
  | Ok workflow =>
      if bool_decide (Workflow_Status workflow ≠ WorkflowStatusPending)
         && bool_decide (Workflow_Status workflow ≠ WorkflowStatusRunning)
      then Ok s
      else
        let completedTasks := mkCompletedTasks (Workflow_Tasks workflow) in
        let ready := tasksToSchedule completedTasks tasks in
        if bool_decide (length ready = 0%nat) then Ok s
        else
          let s := if bool_decide (Workflow_Status workflow = WorkflowStatusPending)
                   then {| store := storage.UpdateWorkflowStatus workflowID
                                      WorkflowStatusRunning now (store s);
                           queue := queue s |}
                   else s in
          Ok (enqueueAll now ready s)
  end.

(** [workflowTasks]: the pending tasks grouped by workflow, the groups in
    the order of their first task. *)
Fixpoint addToGroup (task : Task) (groups : list (string * list Task)) : list (string * list Task) :=
  match groups with
  | [] => [(Task_WorkflowID task, [task])]
  | g :: groups' =>
      if bool_decide (g.1 = Task_WorkflowID task) then (g.1, (g.2 ++ [task])%list) :: groups'
      else g :: addToGroup task groups'
  end.

Definition groupByWorkflow (tasks : list Task) : list (string * list Task) :=
  foldl (fun groups task => addToGroup task groups) [] tasks.

(** The loop over [workflowTasks]: an error of [scheduleWorkflowTasks] is
    logged and the loop goes on. *)
Definition scheduleGroups (now : Z) (groups : list (string * list Task)) (s : Scheduler)
    : Scheduler :=
  foldl (fun s g => match scheduleWorkflowTasks now g.1 g.2 s with
                    | Ok s' => s'
                    | Err _ => s
                    end)
        s groups.

(** Go ranges over a map in an order it does not specify, and not the
    same from one run to the next: [visit] is the order of this run, and
    arranges the entries of the map without adding or dropping any
    ([visitOrder]). *)
Definition visitOrder (visit : list (string * list Task) -> list (string * list Task)) : Prop :=
  forall groups, visit groups ≡ₚ groups.

Definition schedulePendingTasks (visit : list (string * list Task) -> list (string * list Task))
    (now : Z) (s : Scheduler) : Scheduler :=
  scheduleGroups now (visit (groupByWorkflow (storage.GetPendingTasks (store s)))) s.

(** The retry-promotion tick. *)
Definition taskTypes : list string := ["etl"; "ml_training"; "ci"; "generic"].

Definition processRetries (now : Z) (s : Scheduler) : Scheduler :=
  {| store := store s;
     queue := foldl (fun q taskType => queue.ProcessRetries now taskType q) (queue s) taskTypes |}.

(** [checkWorkflowCompletion] returns [nil] at once; the monitor tick calls it. *)
Definition checkWorkflowCompletion (s : Scheduler) : result Scheduler := Ok s.

Definition monitorWorkflows (s : Scheduler) : Scheduler :=
  match checkWorkflowCompletion s with
  | Ok s' => s'
  | Err _ => s
  end.

(** A failing [CreateTask] is logged and the loop goes on. *)
Definition createTasks (tasks : list Task) (st : storage.PostgresStore) : storage.PostgresStore :=
  foldl (fun st task => match storage.CreateTask task st with
                        | Ok st' => st'
                        | Err _ => st
                        end) st tasks.

Definition SubmitWorkflow (workflow : Workflow) (s : Scheduler) : result Scheduler :=
  match storage.CreateWorkflow workflow (store s) with
  | Err e => Err ("failed to create workflow: " ++ e)
  | Ok st => Ok {| store := createTasks (Workflow_Tasks workflow) st; queue := queue s |}
  end.

Definition CancelWorkflow (now : Z) (workflowID : string) (s : Scheduler) : Scheduler :=
  {| store := storage.UpdateWorkflowStatus workflowID WorkflowStatusCancelled now (store s);
     queue := queue s |}.

Definition GetWorkflow (workflowID : string) (s : Scheduler) : result Workflow :=
  storage.GetWorkflow workflowID (store s).

Definition GetTask (taskID : string) (s : Scheduler) : result Task :=
  storage.GetTask taskID (store s).

Definition GetWorkflowTasks (workflowID : string) (s : Scheduler) : list Task :=
  storage.GetTasksByWorkflow workflowID (store s).

End scheduler.

(** ** Package api: the HTTP server (server.go)

    A request is its method, the segments of its path and what its body
    decodes to.  The server state is the scheduler it wraps, the number of
    UUIDs drawn so far, and the dashboard files on disk that the static
    routes and the [NoRoute] handler read.  The redirect of a path with a
    trailing slash is not modelled, and neither is what [http.ServeFile]
    makes of the request headers (conditional and range requests), of a
    path that ends in [/index.html] or of one with a [..] element. *)

Module api.
Import core.

Record CreateTaskRequest : Type := mkCreateTaskRequest {
  TaskReq_Name : string;
  TaskReq_Type : string;
  TaskReq_Payload : gmap string JValue;
  TaskReq_MaxRetries : Z;
  TaskReq_Priority : Z;
  TaskReq_Dependencies : option (list string)       (* nil when absent *)
}.

Record CreateWorkflowRequest : Type := mkCreateWorkflowRequest {
  Req_Name : string;
  Req_Description : string;
  Req_Tasks : option (list CreateTaskRequest);      (* nil when absent *)
  Req_Config : option WorkflowConfig
}.

Inductive Body : Type :=
| NoBody
| Malformed
| WorkflowJSON (req : CreateWorkflowRequest)
| StatusJSON (task_id : string) (status : TaskStatus)
    (result : option (gmap string JValue)) (error : string).

Record Request : Type := mkRequest {
  Method : string;
  Path : list string;
  ReqBody : Body
}.

Inductive Content : Type :=
| ErrorJSON (msg : string)
| MessageJSON (msg : string)
| WorkflowOut (w : Workflow)
| TaskOut (t : Task)
| TasksOut (l : list Task)
| WorkflowListOut
| HealthOut
| MetricsOut
| FileOut
| NotFoundText.

Record Response : Type := mkResponse {
  StatusCode : Z;
  RespBody : Content
}.

Definition StatusOK : Z := 200.
Definition StatusCreated : Z := 201.
Definition StatusBadRequest : Z := 400.
Definition StatusNotFound : Z := 404.
Definition StatusInternalServerError : Z := 500.

Record Server : Type := mkServer {
  sched : scheduler.Scheduler;
  drawn : nat;
  dashboardIndex : bool;
  dashboardStatic : list string -> bool
}.

Definition withSched (s : scheduler.Scheduler) (srv : Server) : Server :=
  mkServer s (drawn srv) (dashboardIndex srv) (dashboardStatic srv).

Inductive Handler : Type :=
| h_createWorkflow | h_getWorkflow | h_cancelWorkflow | h_listWorkflows
| h_getTask | h_getWorkflowTasks | h_healthCheck | h_getMetrics
| h_static | h_index.

Inductive Segment : Type :=
| Lit (s : string)
| Param
| CatchAll.

(** [setupRoutes].  The static routes answer GET and HEAD. *)
Definition routes : list (string * list Segment * Handler) :=
  [ ("POST", [Lit "api"; Lit "v1"; Lit "workflows"], h_createWorkflow);
    ("GET", [Lit "api"; Lit "v1"; Lit "workflows"; Param], h_getWorkflow);
    ("PUT", [Lit "api"; Lit "v1"; Lit "workflows"; Param; Lit "cancel"], h_cancelWorkflow);
    ("GET", [Lit "api"; Lit "v1"; Lit "workflows"], h_listWorkflows);
    ("GET", [Lit "api"; Lit "v1"; Lit "tasks"; Param], h_getTask);
    ("GET", [Lit "api"; Lit "v1"; Lit "workflows"; Param; Lit "tasks"], h_getWorkflowTasks);
    ("GET", [Lit "api"; Lit "v1"; Lit "health"], h_healthCheck);
    ("GET", [Lit "api"; Lit "v1"; Lit "metrics"], h_getMetrics);
    ("GET", [Lit "static"; CatchAll], h_static);
    ("HEAD", [Lit "static"; CatchAll], h_static);
    ("GET", [], h_index);
    ("HEAD", [], h_index) ].

(** A path matches a pattern segment by segment; the value of the [:id]
    parameter, when the pattern has one, is returned. *)
Fixpoint matchPath (pattern : list Segment) (path : list string) : option (option string) :=
  match pattern, path with
  | [], [] => Some None
  | CatchAll :: _, _ => Some None
  | Lit s :: pattern', seg :: path' =>
      if bool_decide (s = seg) then matchPath pattern' path' else None
  | Param :: pattern', seg :: path' =>
      if bool_decide (seg = "") then None
      else match matchPath pattern' path' with
           | Some _ => Some (Some seg)
           | None => None
           end
  | _, _ => None
  end.

Fixpoint findRoute (table : list (string * list Segment * Handler)) (req : Request)
    : option (Handler * option string) :=
  match table with
  | [] => None
  | (method, pattern, h) :: table' =>
      if bool_decide (method = Method req) then
        match matchPath pattern (Path req) with
        | Some param => Some (h, param)
        | None => findRoute table' req
        end
      else findRoute table' req
  end.

Section Handlers.
Variable uuid : nat -> string.
Variable now : Z.

(** [ShouldBindJSON]: the body must decode, [name] must be non-empty and
    [tasks] present.  The [required] tags of [CreateTaskRequest] are not
    reached: the [tasks] field carries no [dive]. *)
Definition ShouldBindJSON (b : Body) : result CreateWorkflowRequest :=
  match b with
  | WorkflowJSON req =>
      if bool_decide (Req_Name req = "") then
        Err "Field validation for 'Name' failed on the 'required' tag"
      else match Req_Tasks req with
           | None => Err "Field validation for 'Tasks' failed on the 'required' tag"
           | Some _ => Ok req
           end
  | StatusJSON _ _ _ _ => Err "Field validation for 'Name' failed on the 'required' tag"
  | NoBody => Err "EOF"
  | Malformed => Err "invalid character"
  end.

Definition requestTask (workflowID : string) (id : string) (taskReq : CreateTaskRequest) : Task :=
  let task := NewTask id now workflowID (TaskReq_Name taskReq) (TaskReq_Type taskReq)
                (TaskReq_Payload taskReq) in
  let task := if TaskReq_MaxRetries taskReq >? 0
              then Task_setMaxRetries (TaskReq_MaxRetries taskReq) task else task in
  let task := if TaskReq_Priority taskReq >? 0
              then Task_setPriority (TaskReq_Priority taskReq) task else task in
  match TaskReq_Dependencies taskReq with
  | Some deps => Task_setDependencies deps task
  | None => task
  end.

(** The task loop of [createWorkflow]: the [i]-th task takes the [i]-th
    draw after [k]. *)
Fixpoint requestTasks (workflowID : string) (k : nat) (reqs : list CreateTaskRequest) : list Task :=
  match reqs with
  | [] => []
  | taskReq :: rest =>
      requestTask workflowID (uuid k) taskReq :: requestTasks workflowID (S k) rest
  end.

(** The workflow [createWorkflow] builds from a bound request. *)
Definition requestWorkflow (k : nat) (req : CreateWorkflowRequest) : Workflow :=
  let workflow := NewWorkflow (uuid k) now (Req_Name req) (Req_Description req) in
  let workflow := match Req_Config req with
                  | Some cfg => Workflow_setConfig cfg workflow
                  | None => workflow
                  end in
  Workflow_setTasks
    (requestTasks (Workflow_ID workflow) (S k) (default [] (Req_Tasks req))) workflow.

Definition createWorkflow (req : Request) (srv : Server) : Response * Server :=
  match ShouldBindJSON (ReqBody req) with
  | Err e => ({| StatusCode := StatusBadRequest; RespBody := ErrorJSON e |}, srv)
  | Ok r =>
      let workflow := requestWorkflow (drawn srv) r in
      let srv := mkServer (sched srv)
                   (S (drawn srv) + length (default [] (Req_Tasks r)))
                   (dashboardIndex srv) (dashboardStatic srv) in
      match scheduler.SubmitWorkflow workflow (sched srv) with
      | Err _ => ({| StatusCode := StatusInternalServerError;
                     RespBody := ErrorJSON "Failed to create workflow" |}, srv)
      | Ok s => ({| StatusCode := StatusCreated; RespBody := WorkflowOut workflow |},
                 withSched s srv)
      end
  end.

Definition getWorkflow (workflowID : string) (srv : Server) : Response * Server :=
  match scheduler.GetWorkflow workflowID (sched srv) with
  | Err _ => ({| StatusCode := StatusNotFound; RespBody := ErrorJSON "Workflow not found" |}, srv)
  | Ok w => ({| StatusCode := StatusOK; RespBody := WorkflowOut w |}, srv)
  end.

Definition cancelWorkflow (workflowID : string) (srv : Server) : Response * Server :=
  ({| StatusCode := StatusOK; RespBody := MessageJSON "Workflow cancelled" |},
   withSched (scheduler.CancelWorkflow now workflowID (sched srv)) srv).

Definition listWorkflows (srv : Server) : Response * Server :=
  ({| StatusCode := StatusOK; RespBody := WorkflowListOut |}, srv).

Definition getTask (taskID : string) (srv : Server) : Response * Server :=
  match scheduler.GetTask taskID (sched srv) with
  | Err _ => ({| StatusCode := StatusNotFound; RespBody := ErrorJSON "Task not found" |}, srv)
  | Ok t => ({| StatusCode := StatusOK; RespBody := TaskOut t |}, srv)
  end.

Definition getWorkflowTasks (workflowID : string) (srv : Server) : Response * Server :=
  ({| StatusCode := StatusOK;
      RespBody := TasksOut (scheduler.GetWorkflowTasks workflowID (sched srv)) |}, srv).

Definition healthCheck (srv : Server) : Response * Server :=
  ({| StatusCode := StatusOK; RespBody := HealthOut |}, srv).

Definition getMetrics (srv : Server) : Response * Server :=
  ({| StatusCode := StatusOK; RespBody := MetricsOut |}, srv).

(** [c.File]: the file when it is on disk, 404 otherwise. *)
Definition serveFile (present : bool) (srv : Server) : Response * Server :=
  if present then ({| StatusCode := StatusOK; RespBody := FileOut |}, srv)
  else ({| StatusCode := StatusNotFound; RespBody := NotFoundText |}, srv).

(** The [NoRoute] handler: the dashboard's index file. *)
Definition noRoute (srv : Server) : Response * Server :=
  serveFile (dashboardIndex srv) srv.

(** The handler of [router.Static]: a file that is on disk is served; for
    one that is not, gin hands the request to the [NoRoute] handlers. *)
Definition serveStatic (path : list string) (srv : Server) : Response * Server :=
  if dashboardStatic srv path then ({| StatusCode := StatusOK; RespBody := FileOut |}, srv)
  else noRoute srv.

(** The router: the handler of the first matching route, and the
    [NoRoute] handler, which serves the dashboard's index file, for a
    request that matches none. *)
Definition ServeHTTP (req : Request) (srv : Server) : Response * Server :=
  match findRoute routes req with
  | Some (h_createWorkflow, _) => createWorkflow req srv
  | Some (h_getWorkflow, id) => getWorkflow (default "" id) srv
  | Some (h_cancelWorkflow, id) => cancelWorkflow (default "" id) srv
  | Some (h_listWorkflows, _) => listWorkflows srv
  | Some (h_getTask, id) => getTask (default "" id) srv
  | Some (h_getWorkflowTasks, id) => getWorkflowTasks (default "" id) srv
  | Some (h_healthCheck, _) => healthCheck srv
  | Some (h_getMetrics, _) => getMetrics srv
  | Some (h_static, _) => serveStatic (drop 1 (Path req)) srv
  | Some (h_index, _) => serveFile (dashboardIndex srv) srv
  | None => noRoute srv
  end.
End Handlers.

End api.

(** ** The worker runtime (cmd/worker/main.go)

    The worker shares the Redis queue with the scheduler and reaches the
    state store only through the HTTP endpoint behind [schedulerURL];
    [serve] is what answers there. *)

Module worker.
Import core.

Record Worker : Type := mkWorker {
  id : string;
  address : string;
  taskTypes : list string;
  schedulerURL : string
}.

Definition getString (payload : gmap string JValue) (key : string) : option string :=
  match payload !! key with
  | Some (JString s) => Some s
  | _ => None
  end.

(** [payload[key].(float64)]. *)
Definition getFloat (payload : gmap string JValue) (key : string) : option float64 :=
  match payload !! key with
  | Some (JFloat f) => Some f
  | _ => None
  end.

(** An integer constant in a result map is a Go [int]. *)
Definition JInt (n : Z) : JValue := JInteger n.

(** [time.Duration(f)], the conversion of a [float64] to [int64]: the
    fraction is discarded, towards zero.  For a value that [int64] cannot
    hold (and for a NaN) Go leaves the result to the implementation; it
    is taken here as on amd64, where the conversion yields the least
    [int64]. *)
Definition truncate (f : float64) : Z :=
  match f with
  | S754_zero _ => 0
  | S754_finite sign m e =>
      let magnitude := if 0 <=? e then Z.pos m * 2 ^ e else Z.pos m / 2 ^ (- e) in
      let v := if sign then - magnitude else magnitude in
      if (- 2 ^ 63 <=? v) && (v <? 2 ^ 63) then v else - 2 ^ 63
  | S754_infinity _ | S754_nan => - 2 ^ 63
  end.

Definition runETLTask (task : Task) : result (gmap string JValue) :=
  match getString (Task_Payload task) "source_url" with
  | None => Err "missing or invalid source_url"
  | Some sourceURL =>
      match getString (Task_Payload task) "target_url" with
      | None => Err "missing or invalid target_url"
      | Some targetURL =>
          Ok (<["records_processed" := JInt 1000]>
              (<["processing_time" := JString "5s"]>
              (<["source" := JString sourceURL]>
              (<["target" := JString targetURL]> ∅))))
      end
  end.

Definition runMLTrainingTask (task : Task) : result (gmap string JValue) :=
  match getString (Task_Payload task) "model_name" with
  | None => Err "missing or invalid model_name"
  | Some modelName =>
      match getString (Task_Payload task) "dataset_url" with
      | None => Err "missing or invalid dataset_url"
      | Some _ =>
          Ok (<["model_name" := JString modelName]>
              (<["accuracy" := JFloat (float64_div 95 100)]>
              (<["training_time" := JString "10s"]>
              (<["model_size_mb" := JFloat (float64_div 256 10)]> ∅))))
      end
  end.

Definition runCITask (task : Task) : result (gmap string JValue) :=
  match getString (Task_Payload task) "repo_url" with
  | None => Err "missing or invalid repo_url"
  | Some repoURL =>
      match getString (Task_Payload task) "command" with
      | None => Err "missing or invalid command"
      | Some command =>
          Ok (<["repo_url" := JString repoURL]>
              (<["command" := JString command]>
              (<["exit_code" := JInt 0]>
              (<["build_time" := JString "8s"]>
              (<["tests_passed" := JInt 42]>
              (<["tests_failed" := JInt 0]> ∅))))))
      end
  end.

(** [time.Duration(duration) * time.Second]: the [float64] is truncated
    to an [int64], the product wraps. *)
Definition runGenericTask (task : Task) : result (gmap string JValue) :=
  match getString (Task_Payload task) "command" with
  | None => Err "missing or invalid command"
  | Some command =>
      let sleepDuration :=
        match getFloat (Task_Payload task) "sleep_duration" with
        | Some duration => wrap64 (truncate duration * time_Second)
        | None => time_Second * 3
        end in
      Ok (<["command" := JString command]>
          (<["exit_code" := JInt 0]>
          (<["output" := JString "Task completed successfully"]>
          (<["duration" := JDuration sleepDuration]> ∅))))
  end.

Definition runTask (task : Task) : result (gmap string JValue) :=
  if bool_decide (Task_Type task = "etl") then runETLTask task
  else if bool_decide (Task_Type task = "ml_training") then runMLTrainingTask task
  else if bool_decide (Task_Type task = "ci") then runCITask task
  else if bool_decide (Task_Type task = "generic") then runGenericTask task
  else Err ("unknown task type: " ++ Task_Type task).

Section Runtime.
(** The HTTP endpoint behind [schedulerURL], at the time of the call. *)
Variable serve : Z -> api.Request -> api.Server -> api.Response * api.Server.
Variable now : Z.

Definition notifyTaskStatus (w : Worker) (taskID : string) (status : TaskStatus)
    (result : option (gmap string JValue)) (errorMsg : string)
    (srv : api.Server) : api.Server :=
  if bool_decide (schedulerURL w = "") then srv
  else
    (serve now
       {| api.Method := "POST";
          api.Path := ["api"; "v1"; "tasks"; taskID; "status"];
          api.ReqBody := api.StatusJSON taskID status result errorMsg |}
       srv).2.

Definition onQueue (f : queue.RedisQueue -> queue.RedisQueue) (srv : api.Server) : api.Server :=
  api.withSched
    {| scheduler.store := scheduler.store (api.sched srv);
       scheduler.queue := f (scheduler.queue (api.sched srv)) |} srv.

Definition executeTask (w : Worker) (task : Task) (srv : api.Server) : api.Server :=
  let srv := notifyTaskStatus w (Task_ID task) TaskStatusRunning None "" srv in
  match runTask task with
  | Err e =>
      if Task_RetryCount task <? Task_MaxRetries task then
        let srv := onQueue (queue.NackTask now task) srv in
        notifyTaskStatus w (Task_ID task) TaskStatusRetrying None e srv
      else
        let srv := onQueue (queue.AckTask task) srv in
        notifyTaskStatus w (Task_ID task) TaskStatusFailed None e srv
  | Ok result =>
      let srv := onQueue (queue.AckTask task) srv in
      notifyTaskStatus w (Task_ID task) TaskStatusCompleted (Some result) "" srv
  end.

(** One turn of the loop of [processTaskType]. *)
Definition processTaskType (w : Worker) (taskType : string) (srv : api.Server) : api.Server :=
  match queue.DequeueTask taskType (scheduler.queue (api.sched srv)) with
  | (None, _) => srv
  | (Some task, q) => executeTask w task (onQueue (fun _ => q) srv)
  end.
End Runtime.

End worker.

(** ** The specification's words, and concrete systems *)

Module spec.
Import core.

(** Section 3, RetryPolicy: "the effective delay before the n-th retry is
    min(max_delay, initial_delay * backoff_factor^n)". *)
Definition backoff (p : RetryPolicy) (n : nat) : Q :=
  let d := (inject_Z (InitialDelay p) * BackoffFactor p ^ Z.of_nat n)%Q in
  if Qle_bool (inject_Z (MaxDelay p)) d then inject_Z (MaxDelay p) else d.

(** The terminal outcomes a worker reports. *)
Definition terminal (s : TaskStatus) : Prop :=
  s = TaskStatusCompleted ∨ s = TaskStatusFailed.

(** A row with its two columns [updated_at] and [completed_at] set to
    [now], and nothing else changed. *)
Definition restamp (now : Z) (t : Task) : Task :=
  mkTask (Task_ID t) (Task_WorkflowID t) (Task_Name t) (Task_Type t) (Task_Payload t)
    (Task_Status t) (Task_Result t) (Task_Error t) (Task_RetryCount t) (Task_MaxRetries t)
    (Task_Priority t) (Task_Dependencies t) (Task_CreatedAt t) now
    (Task_StartedAt t) (Some now).

(** The invariant of Section 8 on a persisted task. *)
Definition retryBudget (t : Task) : Prop :=
  0 ≤ Task_RetryCount t ∧ Task_RetryCount t ≤ Task_MaxRetries t.

(** What a task created through a public front-end satisfies. *)
Definition positiveDefaults (t : Task) : Prop :=
  1 ≤ Task_MaxRetries t ∧ 1 ≤ Task_Priority t.

(** "A non-positive value is silently replaced by the default." *)
Definition orDefault (submitted default : Z) : Z :=
  if submitted <=? 0 then default else submitted.

(** The task a front-end makes of a submitted task: the default 3 for
    [max_retries] and the default 1 for [priority]. *)
Definition defaulted (name type : string) (maxRetries priority : Z) (t : Task) : Prop :=
  Task_Name t = name ∧ Task_Type t = type
  ∧ Task_MaxRetries t = orDefault maxRetries 3
  ∧ Task_Priority t = orDefault priority 1.

Definition defaultedRequest (t : Task) (r : api.CreateTaskRequest) : Prop :=
  defaulted (api.TaskReq_Name r) (api.TaskReq_Type r) (api.TaskReq_MaxRetries r)
    (api.TaskReq_Priority r) t.

Definition defaultedSpec (t : Task) (sp : yaml.TaskSpec) : Prop :=
  defaulted (yaml.TaskSpec_Name sp) (yaml.TaskSpec_Type sp) (yaml.TaskSpec_MaxRetries sp)
    (yaml.TaskSpec_Priority sp) t.

End spec.

Module example.
Import core.

(** A supply of identifiers standing for [uuid.New()]. *)
Definition uuid (n : nat) : string := "id-" ++ pretty n.

(** An orchestrator that has just started: empty store, empty queue, the
    dashboard built. *)
Definition srv0 : api.Server :=
  api.mkServer (scheduler.mkScheduler storage.empty queue.empty) 0 true (fun _ => true).

Definition submit (req : api.CreateWorkflowRequest) : api.Request :=
  api.mkRequest "POST" ["api"; "v1"; "workflows"] (api.WorkflowJSON req).

(** A scheduler tick that visits the workflows in the order of their
    first pending task. *)
Definition tick (now : Z) (srv : api.Server) : api.Server :=
  api.withSched (scheduler.schedulePendingTasks (fun groups => groups) now (api.sched srv)) srv.

Definition retryTick (now : Z) (srv : api.Server) : api.Server :=
  api.withSched (scheduler.processRetries now (api.sched srv)) srv.

Definition monitorTick (srv : api.Server) : api.Server :=
  api.withSched (scheduler.monitorWorkflows (api.sched srv)) srv.

Definition storeOf (srv : api.Server) : storage.PostgresStore :=
  scheduler.store (api.sched srv).

Definition queueOf (srv : api.Server) : queue.RedisQueue :=
  scheduler.queue (api.sched srv).

(** A direct write of a task outcome into the state store. *)
Definition record (id : string) (status : TaskStatus) (result : option (gmap string JValue))
    (error : string) (now : Z) (srv : api.Server) : api.Server :=
  api.withSched
    {| scheduler.store := storage.UpdateTaskStatus id status result error now (storeOf srv);
       scheduler.queue := queueOf srv |} srv.

Definition theWorker : worker.Worker :=
  worker.mkWorker "worker-1" "localhost:9000" ["generic"] "http://localhost:8080".

(** Views of a system state. *)
Definition workflowStatus (id : string) (srv : api.Server) : option WorkflowStatus :=
  match scheduler.GetWorkflow id (api.sched srv) with
  | Ok w => Some (Workflow_Status w)
  | Err _ => None
  end.

Definition taskRows (srv : api.Server) : list (string * TaskStatus * Z * Z) :=
  map (λ t, (Task_Name t, Task_Status t, Task_RetryCount t, Task_MaxRetries t))
    (storage.tasks (storeOf srv)).

Definition taskDeps (srv : api.Server) : list (string * string * list string) :=
  map (λ t, (Task_ID t, Task_Name t, Task_Dependencies t)) (storage.tasks (storeOf srv)).

Definition readyNames (taskType : string) (srv : api.Server) : list string :=
  map Task_Name (queue.getList (queueOf srv) (queue.queueKey taskType)).

Definition retryEntries (taskType : string) (srv : api.Server) : list (Z * string * Z) :=
  map (λ e, (e.1, Task_Name e.2, Task_RetryCount e.2))
    (queue.getZSet (queueOf srv) (queue.retryKey taskType)).

Definition deadLetters (taskType : string) (srv : api.Server) : list Task :=
  queue.getList (queueOf srv) (queue.deadLetterKey taskType).

(** *** A -> B, B -> A over HTTP *)
Definition cyclicRequest : api.CreateWorkflowRequest :=
  api.mkCreateWorkflowRequest "cyclic" ""
    (Some [ api.mkCreateTaskRequest "A" "generic" ∅ 0 0 (Some ["B"]);
            api.mkCreateTaskRequest "B" "generic" ∅ 0 0 (Some ["A"]) ])
    None.

Definition cyclicSpec : yaml.WorkflowSpec :=
  yaml.mkWorkflowSpec "cyclic" ""
    (yaml.mkWorkflowConfigSpec 0 "" (yaml.mkRetryPolicySpec 0 "" "" 0))
    [ yaml.mkTaskSpec "A" "generic" ∅ 0 0 ["B"];
      yaml.mkTaskSpec "B" "generic" ∅ 0 0 ["A"] ].

(** *** B depends on A, A completed *)
Definition chainRequest : api.CreateWorkflowRequest :=
  api.mkCreateWorkflowRequest "chain" ""
    (Some [ api.mkCreateTaskRequest "A" "generic" (<["command" := JString "a"]> ∅) 0 0 None;
            api.mkCreateTaskRequest "B" "generic" (<["command" := JString "b"]> ∅) 0 0
              (Some ["A"]) ])
    None.

Definition chainSubmitted : api.Server := (api.ServeHTTP uuid 10 (submit chainRequest) srv0).2.
(** First tick: A is enqueued and the workflow starts running. *)
Definition chainStarted : api.Server := tick 20 chainSubmitted.
(** A worker takes A; its outcome [completed] is written to the store. *)
Definition chainADone : api.Server :=
  let srv := worker.processTaskType (api.ServeHTTP uuid) 30 theWorker "generic" chainStarted in
  record "id-1" TaskStatusCompleted (Some (<["exit_code" := worker.JInt 0]> ∅)) "" 40 srv.
Definition chainNextTick : api.Server := tick 50 chainADone.

(** *** A single task that is complete; a workflow without tasks *)
Definition soloRequest : api.CreateWorkflowRequest :=
  api.mkCreateWorkflowRequest "solo" ""
    (Some [ api.mkCreateTaskRequest "A" "generic" (<["command" := JString "a"]> ∅) 0 0 None ])
    None.

Definition soloDone : api.Server :=
  let srv := tick 20 (api.ServeHTTP uuid 10 (submit soloRequest) srv0).2 in
  record "id-1" TaskStatusCompleted (Some (<["exit_code" := worker.JInt 0]> ∅)) "" 40 srv.

Definition soloFailed : api.Server :=
  let srv := tick 20 (api.ServeHTTP uuid 10 (submit soloRequest) srv0).2 in
  record "id-1" TaskStatusFailed None "boom" 40 srv.

Definition emptyRequest : api.CreateWorkflowRequest :=
  api.mkCreateWorkflowRequest "empty" "" (Some []) None.

Definition emptySubmitted : api.Server := (api.ServeHTTP uuid 10 (submit emptyRequest) srv0).2.

(** *** Task Y, max_retries = 1, failing on every attempt
    The payload has no [command], so [runGenericTask] fails. *)
Definition retryRequest : api.CreateWorkflowRequest :=
  api.mkCreateWorkflowRequest "retry" ""
    (Some [ api.mkCreateTaskRequest "Y" "generic" ∅ 1 0 None ])
    None.

Section Run.
Variable serve : Z -> api.Request -> api.Server -> api.Response * api.Server.

Definition retrySubmitted : api.Server := (serve 10 (submit retryRequest) srv0).2.
Definition retryEnqueued : api.Server := tick 20 retrySubmitted.
(** First attempt, at t = 30 s. *)
Definition retryAttempt1 : api.Server :=
  worker.processTaskType serve (30 * time_Second) theWorker "generic" retryEnqueued.
(** Retry promotion, at t = 60 s. *)
Definition retryPromoted : api.Server := retryTick (60 * time_Second) retryAttempt1.
(** Second attempt, at t = 61 s. *)
Definition retryAttempt2 : api.Server :=
  worker.processTaskType serve (61 * time_Second) theWorker "generic" retryPromoted.
End Run.

(** The report a worker posts for task [id]. *)
Definition statusReport (id : string) (status : TaskStatus)
    (result : option (gmap string JValue)) (error : string) : api.Request :=
  api.mkRequest "POST" ["api"; "v1"; "tasks"; id; "status"]
    (api.StatusJSON id status result error).

(** B -> A, C -> B: no cycle, nothing dangling. *)
Definition linearSpec : yaml.WorkflowSpec :=
  yaml.mkWorkflowSpec "linear" ""
    (yaml.mkWorkflowConfigSpec 0 "" (yaml.mkRetryPolicySpec 0 "" "" 0))
    [ yaml.mkTaskSpec "A" "generic" ∅ 0 0 [];
      yaml.mkTaskSpec "B" "generic" ∅ 0 0 ["A"];
      yaml.mkTaskSpec "C" "generic" ∅ 0 0 ["B"] ].

(** *** Values of [max_retries] and [priority] that are zero, negative and
    positive *)
Definition defaultsRequest : api.CreateWorkflowRequest :=
  api.mkCreateWorkflowRequest "defaults" ""
    (Some [ api.mkCreateTaskRequest "A" "generic" ∅ 0 0 None;
            api.mkCreateTaskRequest "B" "etl" ∅ (-2) (-5) None;
            api.mkCreateTaskRequest "C" "ci" ∅ 7 9 None ])
    None.

Definition defaultsSpec : yaml.WorkflowSpec :=
  yaml.mkWorkflowSpec "defaults" ""
    (yaml.mkWorkflowConfigSpec 0 "" (yaml.mkRetryPolicySpec 0 "" "" 0))
    [ yaml.mkTaskSpec "A" "generic" ∅ 0 0 [];
      yaml.mkTaskSpec "B" "etl" ∅ (-2) (-5) [];
      yaml.mkTaskSpec "C" "ci" ∅ 7 9 [] ].

Definition taskDefaults (tasks : list Task) : list (string * Z * Z) :=
  map (λ t, (Task_Name t, Task_MaxRetries t, Task_Priority t)) tasks.

(** *** A workflow with a retry policy of its own
    Task Y fails at t = 30.9 s, with three retries left. *)
Definition slowPolicy : RetryPolicy :=
  mkRetryPolicy 3 (10 * time_Second) time_Minute (3 # 1).

Definition policyRequest (p : RetryPolicy) : api.CreateWorkflowRequest :=
  api.mkCreateWorkflowRequest "policy" ""
    (Some [ api.mkCreateTaskRequest "Y" "generic" ∅ 3 0 None ])
    (Some (mkWorkflowConfig 10 time_Hour p)).

Definition policyNacked (p : RetryPolicy) : api.Server :=
  let srv := tick (20 * time_Second)
               (api.ServeHTTP uuid (10 * time_Second) (submit (policyRequest p)) srv0).2 in
  worker.processTaskType (api.ServeHTTP uuid) 30900000000 theWorker "generic" srv.

Definition storedPolicy (id : string) (srv : api.Server) : option RetryPolicy :=
  match scheduler.GetWorkflow id (api.sched srv) with
  | Ok w => Some (Config_RetryPolicy (Workflow_Config w))
  | Err _ => None
  end.

End example.

(** ** Runs of the system *)

Module system.
Import core.

(** One step of the orchestrator or of a worker: an HTTP request is
    served, one of the three scheduler loops ticks, or a worker takes a
    turn of its dequeue loop and posts its reports to the server. *)
Inductive step (uuid : nat → string) : api.Server → api.Server → Prop :=
| step_request (now : Z) (req : api.Request) (srv : api.Server) :
    step uuid srv (api.ServeHTTP uuid now req srv).2
| step_schedule (visit : list (string * list Task) → list (string * list Task))
    (now : Z) (srv : api.Server) :
    scheduler.visitOrder visit →
    step uuid srv
      (api.withSched (scheduler.schedulePendingTasks visit now (api.sched srv)) srv)
| step_retries (now : Z) (srv : api.Server) :
    step uuid srv (example.retryTick now srv)
| step_monitor (srv : api.Server) :
    step uuid srv (example.monitorTick srv)
| step_worker (now : Z) (w : worker.Worker) (taskType : string) (srv : api.Server) :
    step uuid srv (worker.processTaskType (api.ServeHTTP uuid) now w taskType srv).

(** The orchestrator starts on an empty store and an empty queue. *)
Definition initial (srv : api.Server) : Prop :=
  api.sched srv = scheduler.mkScheduler storage.empty queue.empty.

Definition reachable (uuid : nat → string) (srv : api.Server) : Prop :=
  ∃ srv0, initial srv0 ∧ rtc (step uuid) srv0 srv.

(** What every run keeps: no dead letter, every stored task pending with
    retry count 0 and no result, no workflow completed or failed. *)
Definition noDeadLetters (q : queue.RedisQueue) : Prop :=
  ∀ taskType, queue.getList q (queue.deadLetterKey taskType) = [].

Definition untouched (t : Task) : Prop :=
  Task_Status t = TaskStatusPending ∧ Task_RetryCount t = 0 ∧ Task_Result t = None.

Definition unfinished (r : storage.WorkflowRow) : Prop :=
  storage.row_status r ≠ WorkflowStatusCompleted
  ∧ storage.row_status r ≠ WorkflowStatusFailed.

Definition kept (s : scheduler.Scheduler) : Prop :=
  noDeadLetters (scheduler.queue s)
  ∧ Forall untouched (storage.tasks (scheduler.store s))
  ∧ Forall unfinished (storage.workflows (scheduler.store s)).

Definition frozen (srv : api.Server) : Prop := kept (api.sched srv).

End system.

(** ** Dependency graphs *)

Module graph.
Import core.

(** The graph [hasCycle] walks: [taskDeps] as an edge relation. *)
Definition edge (G : gmap string (list string)) (a b : string) : Prop :=
  b ∈ default [] (G !! a).

Definition cyclic (G : gmap string (list string)) : Prop :=
  ∃ x, tc (edge G) x x.

(** A definition file as written: every task with its [depends_on]. *)
Definition definitions (specs : list yaml.TaskSpec) : list (string * list string) :=
  map (λ sp, (yaml.TaskSpec_Name sp, yaml.TaskSpec_Dependencies sp)) specs.

Definition taskDefinitions (tasks : list Task) : list (string * list string) :=
  map (λ t, (Task_Name t, Task_Dependencies t)) tasks.

(** [a] depends on [b]: some task named [a] lists [b]. *)
Definition dependsOn (defs : list (string * list string)) (a b : string) : Prop :=
  ∃ ds, (a, ds) ∈ defs ∧ b ∈ ds.

(** Some [depends_on] names a task that is not defined. *)
Definition dangling (defs : list (string * list string)) : Prop :=
  ∃ a ds d, (a, ds) ∈ defs ∧ d ∈ ds ∧ d ∉ defs.*1.

Definition circular (defs : list (string * list string)) : Prop :=
  ∃ x, tc (dependsOn defs) x x.

(** The state of the walk: visited names, names on the recursion stack,
    and the names the walk is done with. *)
Definition seen (st : yaml.dfs) (x : string) : Prop := getb (yaml.visited st) x = true.
Definition active (st : yaml.dfs) (x : string) : Prop := getb (yaml.recStack st) x = true.
Definition finished (st : yaml.dfs) (x : string) : Prop := seen st x ∧ ¬ active st x.

(** The invariant of the walk: a name on the stack has been visited, the
    finished names are closed under edges, and none is on a cycle. *)
Record invariant (G : gmap string (list string)) (st : yaml.dfs) : Prop := mkInvariant {
  inv_stack : ∀ x, active st x → seen st x;
  inv_closed : ∀ x y, finished st x → edge G x y → finished st y;
  inv_acyclic : ∀ x, finished st x → ¬ tc (edge G) x x
}.

(** What holds when [hasCycleUtil] is entered on [n] ... *)
Definition entry (G : gmap string (list string)) (st : yaml.dfs) (n : string) : Prop :=
  invariant G st ∧ ¬ seen st n ∧ ∀ x, active st x → rtc (edge G) x n.

(** ... and when it returns [false]. *)
Definition exit (G : gmap string (list string)) (st st' : yaml.dfs) (n : string) : Prop :=
  invariant G st'
  ∧ (∀ x, seen st x → seen st' x)
  ∧ seen st' n
  ∧ (∀ x, getb (yaml.recStack st') x = getb (yaml.recStack st) x).

Definition visitCorrect (G : gmap string (list string))
    (visit : string → yaml.dfs → option (bool * yaml.dfs)) : Prop :=
  ∀ n st b st', visit n st = Some (b, st') → entry G st n →
    if b then cyclic G else exit G st st' n.

(** Entering a name marks it visited and puts it on the stack; leaving it
    takes it off the stack. *)
Definition enter (n : string) (st : yaml.dfs) : yaml.dfs :=
  {| yaml.visited := <[n := true]> (yaml.visited st);
     yaml.recStack := <[n := true]> (yaml.recStack st) |}.

Definition leave (n : string) (st : yaml.dfs) : yaml.dfs :=
  {| yaml.visited := yaml.visited st;
     yaml.recStack := <[n := false]> (yaml.recStack st) |}.

(** A call only adds to the visited names, and visits its argument. *)
Definition visitGrows (visit : string → yaml.dfs → option (bool * yaml.dfs)) : Prop :=
  ∀ n st b st', visit n st = Some (b, st') →
    (∀ x, seen st x → seen st' x) ∧ seen st' n.

(** Every name in a dependency list of [G] is in the universe [U]. *)
Definition closedIn (U : list string) (G : gmap string (list string)) : Prop :=
  ∀ x ds d, G !! x = Some ds → d ∈ ds → d ∈ U.

(** The names of a definition that the walk has not visited. *)
Definition unvisited (universe : list string) (st : yaml.dfs) : nat :=
  length (filter (λ x, getb (yaml.visited st) x = false) universe).

Definition universe (tasks : list Task) : list string :=
  (map Task_Name tasks ++ concat (map Task_Dependencies tasks))%list.

End graph.

(** ** Package queue: the worker registry (redis.go)

    The keys [worker:<id>], each with the instant at which its TTL ends,
    and the sets [workers:<type>].  A key is gone once the clock has
    passed that instant.  The members of a set are kept in the order of
    their insertion; [SMEMBERS] returns them in that order. *)

Module registry.

Record WorkerInfo : Type := mkWorkerInfo {
  Worker_ID : string;
  Worker_Address : string;
  Worker_TaskTypes : list string;
  Worker_Status : string;
  Worker_LastHeartbeat : Z;
  Worker_CurrentTasks : list string
}.

Record Registry : Type := mkRegistry {
  workerKeys : gmap string (WorkerInfo * Z);
  workerSets : gmap string (list string)
}.

Definition empty : Registry := {| workerKeys := ∅; workerSets := ∅ |}.

Definition workerKey (workerID : string) : string := "worker:" ++ workerID.
Definition workerSetKey (taskType : string) : string := "workers:" ++ taskType.

(** Redis commands. *)
Definition Get (now : Z) (key : string) (r : Registry) : option WorkerInfo :=
  match workerKeys r !! key with
  | Some (v, expiry) => if now <=? expiry then Some v else None
  | None => None
  end.

Definition Set_ (now : Z) (key : string) (v : WorkerInfo) (ttl : Z) (r : Registry) : Registry :=
  {| workerKeys := <[key := (v, now + ttl)]> (workerKeys r); workerSets := workerSets r |}.

Definition Del (key : string) (r : Registry) : Registry :=
  {| workerKeys := delete key (workerKeys r); workerSets := workerSets r |}.

Definition SMembers (key : string) (r : Registry) : list string :=
  default [] (workerSets r !! key).

Definition SAdd (key : string) (member : string) (r : Registry) : Registry :=
  if bool_decide (member ∈ SMembers key r) then r
  else {| workerKeys := workerKeys r;
          workerSets := <[key := (SMembers key r ++ [member])%list]> (workerSets r) |}.

Definition SRem (key : string) (member : string) (r : Registry) : Registry :=
  {| workerKeys := workerKeys r;
     workerSets := <[key := filter (λ m, m ≠ member) (SMembers key r)]> (workerSets r) |}.

Definition RegisterWorker (now : Z) (workerID address : string) (taskTypes : list string)
    (r : Registry) : Registry :=
  let workerInfo := {| Worker_ID := workerID;
                       Worker_Address := address;
                       Worker_TaskTypes := taskTypes;
                       Worker_Status := "active";
                       Worker_LastHeartbeat := now;
                       Worker_CurrentTasks := [] |} in
  let r := Set_ now (workerKey workerID) workerInfo (time_Minute * 5) r in
  foldl (λ r taskType, SAdd (workerSetKey taskType) workerID r) r taskTypes.

Definition UpdateWorkerHeartbeat (now : Z) (workerID : string) (r : Registry) : result Registry :=
  match Get now (workerKey workerID) r with
  | None => Err "failed to get worker info: redis: nil"
  | Some workerInfo =>
      let workerInfo := mkWorkerInfo (Worker_ID workerInfo) (Worker_Address workerInfo)
                          (Worker_TaskTypes workerInfo) (Worker_Status workerInfo) now
                          (Worker_CurrentTasks workerInfo) in
      Ok (Set_ now (workerKey workerID) workerInfo (time_Minute * 5) r)
  end.

(** The body of the loop of [GetActiveWorkers], for one member of the set. *)
Definition visitWorker (now : Z) (workerSetKey : string)
    (acc : list WorkerInfo * Registry) (workerID : string) : list WorkerInfo * Registry :=
  match Get now (workerKey workerID) acc.2 with
  | None => (acc.1, SRem workerSetKey workerID acc.2)
  | Some workerInfo =>
      if now - Worker_LastHeartbeat workerInfo >? time_Minute * 2 then
        (acc.1, Del (workerKey workerID) (SRem workerSetKey workerID acc.2))
      else ((acc.1 ++ [workerInfo])%list, acc.2)
  end.

Definition GetActiveWorkers (now : Z) (taskType : string) (r : Registry)
    : list WorkerInfo * Registry :=
  foldl (visitWorker now (workerSetKey taskType)) ([], r)
    (SMembers (workerSetKey taskType) r).

(** One tick of the heartbeat loop of a worker: a failure is logged. *)
Definition heartbeat (now : Z) (workerID : string) (r : Registry) : Registry :=
  match UpdateWorkerHeartbeat now workerID r with
  | Ok r' => r'
  | Err _ => r
  end.

End registry.

(** ** Predicates of the further properties *)

Module laws.
Import core.

(** The order of [GetPendingTasks]: priority descending, then creation
    time ascending. *)
Definition pendingOrder (a b : Task) : Prop :=
  Task_Priority b < Task_Priority a
  ∨ (Task_Priority a = Task_Priority b ∧ Task_CreatedAt a ≤ Task_CreatedAt b).

Definition createdOrder (a b : Task) : Prop := Task_CreatedAt a ≤ Task_CreatedAt b.

Definition schedulable (t : Task) : Prop :=
  Task_Status t = TaskStatusPending ∨ Task_Status t = TaskStatusRetrying.

(** The row [CreateTask] writes for a task. *)
Definition row (task : Task) : Task :=
  mkTask (Task_ID task) (Task_WorkflowID task) (Task_Name task) (Task_Type task)
    (Task_Payload task) (Task_Status task) None "" (Task_RetryCount task)
    (Task_MaxRetries task) (Task_Priority task) (Task_Dependencies task)
    (Task_CreatedAt task) (Task_UpdatedAt task) None None.

(** The constraints of the schema: primary keys, and the foreign key of a
    task to its workflow. *)
Record storeOK (st : storage.PostgresStore) : Prop := mkStoreOK {
  ok_workflow_ids : NoDup (map storage.row_id (storage.workflows st));
  ok_task_ids : NoDup (map Task_ID (storage.tasks st));
  ok_foreign_key : ∀ t, t ∈ storage.tasks st →
                     Task_WorkflowID t ∈ map storage.row_id (storage.workflows st)
}.

(** A queued element is the JSON of a task of the type of its key. *)
Definition queued (taskType : string) (x : Task) : Prop :=
  Task_Type x = taskType ∧ queue.ToJSON x = x.

(** What the queue operations keep: every element sits under a key of its
    own type, and a retry set holds no member twice. *)
Record queueOK (q : queue.RedisQueue) : Prop := mkQueueOK {
  ok_ready : ∀ ty, Forall (queued ty) (queue.getList q (queue.queueKey ty));
  ok_processing : ∀ ty, Forall (queued ty) (queue.getList q (queue.processingKey ty));
  ok_dead : ∀ ty, Forall (queued ty) (queue.getList q (queue.deadLetterKey ty));
  ok_retry : ∀ ty, Forall (λ e, queued ty e.2) (queue.getZSet q (queue.retryKey ty));
  ok_members : ∀ ty, NoDup (map snd (queue.getZSet q (queue.retryKey ty)))
}.

(** [n] turns of the dequeue loop on one task type: what was taken, in the
    order it was taken. *)
Fixpoint drain (n : nat) (taskType : string) (q : queue.RedisQueue)
    : list Task * queue.RedisQueue :=
  match n with
  | O => ([], q)
  | S n' =>
      match queue.DequeueTask taskType q with
      | (None, q') => ([], q')
      | (Some task, q') => let r := drain n' taskType q' in (task :: r.1, r.2)
      end
  end.

Definition enqueueEach (tasks : list Task) (q : queue.RedisQueue) : queue.RedisQueue :=
  foldl (λ q task, queue.EnqueueTask task q) q tasks.

(** The retry entries that are due at [now]. *)
Definition due (now : Z) (z : list (Z * Task)) : list (Z * Task) :=
  filter (λ e, 0 ≤ e.1 ∧ e.1 ≤ queue.Unix now) z.

(** A worker is live at [now]: its key holds [info], has not expired, and
    the heartbeat is at most two minutes old. *)
Definition live (now : Z) (workerID : string) (info : registry.WorkerInfo)
    (r : registry.Registry) : Prop :=
  registry.Get now (registry.workerKey workerID) r = Some info
  ∧ now - registry.Worker_LastHeartbeat info ≤ time_Minute * 2.

(** What [GetActiveWorkers] decides for a member of the set: a worker
    whose key is gone or whose heartbeat is older than two minutes is not
    listed, and the latter ([stale]) has its key deleted. *)
Definition verdict (now : Z) (r : registry.Registry) (workerID : string)
    : option registry.WorkerInfo :=
  match registry.Get now (registry.workerKey workerID) r with
  | Some info =>
      if now - registry.Worker_LastHeartbeat info >? time_Minute * 2 then None else Some info
  | None => None
  end.

Definition stale (now : Z) (r : registry.Registry) (workerID : string) : bool :=
  match registry.Get now (registry.workerKey workerID) r with
  | Some info => now - registry.Worker_LastHeartbeat info >? time_Minute * 2
  | None => false
  end.

(** The loop of [GetActiveWorkers] after the members [visited] of the set
    [setKey], started on the registry [r]: the workers listed so far, the
    set, and the keys. *)
Definition visited (now : Z) (setKey : string) (r : registry.Registry)
    (visited : list string) (acc : list registry.WorkerInfo * registry.Registry) : Prop :=
  acc.1 = omap (verdict now r) visited
  ∧ registry.SMembers setKey acc.2
    = filter (λ id, id ∈ visited → is_Some (verdict now r id)) (registry.SMembers setKey r)
  ∧ (∀ key, key ≠ setKey → registry.SMembers key acc.2 = registry.SMembers key r)
  ∧ (∀ later id, registry.Get later (registry.workerKey id) acc.2
                 = if bool_decide (id ∈ visited) && stale now r id then None
                   else registry.Get later (registry.workerKey id) r).

(** The identifiers a submission draws are new to the store and distinct. *)
Definition freshDraws (uuid : nat → string) (k n : nat) (st : storage.PostgresStore) : Prop :=
  NoDup (map uuid (seq k n))
  ∧ ∀ i, (k ≤ i < k + n)%nat →
      (uuid i ∉ map storage.row_id (storage.workflows st))
      ∧ (uuid i ∉ map Task_ID (storage.tasks st)).

End laws.

(** * Properties *)

Import core.

(** ** Files served by the router *)

Lemma serveFile_server (present : bool) (srv : api.Server) :
  (api.serveFile present srv).2 = srv.
Proof. by destruct present. Qed.

Lemma noRoute_server (srv : api.Server) : (api.noRoute srv).2 = srv.
Proof. apply serveFile_server. Qed.

Lemma serveStatic_server (path : list string) (srv : api.Server) :
  (api.serveStatic path srv).2 = srv.
Proof. unfold api.serveStatic. destruct (api.dashboardStatic srv path); [done|apply noRoute_server]. Qed.

(** ** Lists *)

Lemma find_app_None {A : Type} (p : A → bool) (l1 l2 : list A) :
  find p l1 = None → find p (l1 ++ l2) = find p l2.
Proof. induction l1 as [|x l1 IH]; simpl; [done|]. destruct (p x); [done|exact IH]. Qed.

Lemma find_app_Some {A : Type} (p : A → bool) (l1 l2 : list A) (x : A) :
  find p l1 = Some x → find p (l1 ++ l2) = Some x.
Proof. induction l1 as [|y l1 IH]; simpl; [done|]. destruct (p y); [done|exact IH]. Qed.

Lemma find_existsb {A : Type} (p : A → bool) (l : list A) :
  existsb p l = false ↔ find p l = None.
Proof. induction l as [|x l IH]; simpl; [done|]. destruct (p x); [done|exact IH]. Qed.

Lemma find_fmap_keep {A : Type} (p : A → bool) (f : A → A) (l : list A) :
  (∀ x, p (f x) = p x) → find p (map f l) = f <$> find p l.
Proof.
  intros Hp. induction l as [|x l IH]; simpl; [done|].
  rewrite Hp. destruct (p x); [done|exact IH].
Qed.

Lemma find_fmap_other {A : Type} (p : A → bool) (f : A → A) (l : list A) :
  (∀ x, p (f x) = p x) → (∀ x, p x = true → f x = x) → find p (map f l) = find p l.
Proof.
  intros Hp Hf. induction l as [|x l IH]; simpl; [done|].
  rewrite Hp. destruct (p x) eqn:Hx; [by rewrite Hf|exact IH].
Qed.

Lemma filter_none {A : Type} (P : A → Prop) `{∀ x, Decision (P x)} (l : list A) :
  (∀ x, x ∈ l → ¬ P x) → filter P l = [].
Proof.
  induction l as [|x l IH]; [done|]. intros Hl.
  rewrite filter_cons_False by (apply Hl; left).
  apply IH. intros y Hy. apply Hl. by right.
Qed.

Lemma filter_all {A : Type} (P : A → Prop) `{∀ x, Decision (P x)} (l : list A) :
  (∀ x, x ∈ l → P x) → filter P l = l.
Proof.
  induction l as [|x l IH]; [done|]. intros Hl.
  rewrite filter_cons_True by (apply Hl; left).
  f_equal. apply IH. intros y Hy. apply Hl. by right.
Qed.


Lemma map_id_on {A : Type} (f : A → A) (l : list A) :
  Forall (λ x, f x = x) l → map f l = l.
Proof. induction 1 as [|x l Hx _ IH]; simpl; [done|]. by rewrite Hx, IH. Qed.

(** ** Keys of the state store *)


Lemma GetWorkflow_Err (id : string) (st : storage.PostgresStore) :
  (∃ e, storage.GetWorkflow id st = Err e) ↔ storage.hasWorkflow id st = false.
Proof.
  unfold storage.GetWorkflow, storage.hasWorkflow. rewrite find_existsb.
  destruct (find _ _); split; try done; [by intros [? ?]|by eexists].
Qed.

Lemma hasWorkflow_elem (id : string) (st : storage.PostgresStore) :
  storage.hasWorkflow id st = true ↔ id ∈ map storage.row_id (storage.workflows st).
Proof.
  unfold storage.hasWorkflow. rewrite existsb_exists, list_elem_of_fmap.
  split.
  - intros (r & Hin & Hid). apply bool_decide_eq_true in Hid.
    exists r. split; [done|by apply list_elem_of_In].
  - intros (r & -> & Hin). exists r. split; [by apply list_elem_of_In|].
    by apply bool_decide_eq_true.
Qed.

Lemma hasTask_elem (id : string) (st : storage.PostgresStore) :
  storage.hasTask id st = true ↔ id ∈ map Task_ID (storage.tasks st).
Proof.
  unfold storage.hasTask. rewrite existsb_exists, list_elem_of_fmap.
  split.
  - intros (r & Hin & Hid). apply bool_decide_eq_true in Hid.
    exists r. split; [done|by apply list_elem_of_In].
  - intros (r & -> & Hin). exists r. split; [by apply list_elem_of_In|].
    by apply bool_decide_eq_true.
Qed.

Lemma hasWorkflow_not_elem (id : string) (st : storage.PostgresStore) :
  storage.hasWorkflow id st = false ↔ id ∉ map storage.row_id (storage.workflows st).
Proof. rewrite <- hasWorkflow_elem. by destruct (storage.hasWorkflow id st). Qed.

Lemma hasTask_not_elem (id : string) (st : storage.PostgresStore) :
  storage.hasTask id st = false ↔ id ∉ map Task_ID (storage.tasks st).
Proof. rewrite <- hasTask_elem. by destruct (storage.hasTask id st). Qed.

Lemma createTasks_fresh (ts : list Task) (st : storage.PostgresStore) :
  NoDup (map Task_ID ts) →
  (∀ t, t ∈ ts → Task_ID t ∉ map Task_ID (storage.tasks st)) →
  (∀ t, t ∈ ts → storage.hasWorkflow (Task_WorkflowID t) st = true) →
  scheduler.createTasks ts st
  = storage.mkStore (storage.workflows st) (storage.tasks st ++ map laws.row ts).
Proof.
  unfold scheduler.createTasks. revert st.
  induction ts as [|t ts IH]; intros st Hnd Hfresh Hwf; simpl.
  - rewrite app_nil_r. by destruct st.
  - apply NoDup_cons in Hnd as [Hhd Hnd].
    unfold storage.CreateTask at 2.
    rewrite (proj2 (hasTask_not_elem _ _)) by (apply Hfresh; left).
    rewrite Hwf by left. simpl.
    rewrite IH; simpl.
    + by rewrite <- app_assoc.
    + done.
    + intros t' Hin. rewrite map_app. simpl.
      intros [Hold|Hnew%list_elem_of_singleton]%elem_of_app.
      * by apply (Hfresh t'); [right|].
      * apply Hhd. rewrite <- Hnew. apply list_elem_of_fmap. by exists t'.
    + intros t' Hin. unfold storage.hasWorkflow. simpl. apply (Hwf t'). by right.
Qed.

(** ** Reading a Go map of booleans *)

Lemma getb_insert (m : gmap string bool) (k x : string) (v : bool) :
  getb (<[k := v]> m) x = if decide (k = x) then v else getb m x.
Proof. unfold getb. rewrite lookup_insert. by case_decide. Qed.

Lemma getb_empty (x : string) : getb ∅ x = false.
Proof. unfold getb. by rewrite lookup_empty. Qed.

(** ** Defaults of the submission paths *)

Lemma requestTasks_ids (uuid : nat → string) (now : Z) (wid : string) (k : nat)
    (reqs : list api.CreateTaskRequest) :
  map Task_ID (api.requestTasks uuid now wid k reqs) = map uuid (seq k (length reqs)).
Proof.
  revert k. induction reqs as [|r reqs IH]; intros k; [done|]. simpl.
  rewrite IH. f_equal. unfold api.requestTask.
  by destruct (api.TaskReq_MaxRetries r >? 0), (api.TaskReq_Priority r >? 0),
    (api.TaskReq_Dependencies r).
Qed.

Lemma requestTasks_rows (uuid : nat → string) (now : Z) (wid : string) (k : nat)
    (reqs : list api.CreateTaskRequest) :
  Forall (λ t, laws.row t = t ∧ Task_WorkflowID t = wid ∧ Task_CreatedAt t = now)
    (api.requestTasks uuid now wid k reqs).
Proof.
  revert k. induction reqs as [|r reqs IH]; intros k; simpl; constructor; [|apply IH].
  unfold api.requestTask.
  by destruct (api.TaskReq_MaxRetries r >? 0), (api.TaskReq_Priority r >? 0),
    (api.TaskReq_Dependencies r).
Qed.

Section Defaults.
Variable uuid : nat -> string.
Variable now : Z.

Lemma requestTask_fields (workflowID id : string) (r : api.CreateTaskRequest) :
  let t := api.requestTask now workflowID id r in
  Task_MaxRetries t = (if api.TaskReq_MaxRetries r >? 0 then api.TaskReq_MaxRetries r else 3)
  ∧ Task_Priority t = (if api.TaskReq_Priority r >? 0 then api.TaskReq_Priority r else 1).
Proof.
  unfold api.requestTask.
  destruct (api.TaskReq_MaxRetries r >? 0), (api.TaskReq_Priority r >? 0),
    (api.TaskReq_Dependencies r); simpl; auto.
Qed.

Lemma convertTask_fields (workflowID id : string) (sp : yaml.TaskSpec) :
  let t := yaml.convertTask now workflowID id sp in
  Task_MaxRetries t
    = (if yaml.TaskSpec_MaxRetries sp >? 0 then yaml.TaskSpec_MaxRetries sp else 3)
  ∧ Task_Priority t
    = (if yaml.TaskSpec_Priority sp >? 0 then yaml.TaskSpec_Priority sp else 1).
Proof.
  unfold yaml.convertTask.
  destruct (yaml.TaskSpec_MaxRetries sp >? 0), (yaml.TaskSpec_Priority sp >? 0);
    simpl; auto.
Qed.

Lemma default_positive (v d : Z) : 1 ≤ d → 1 ≤ (if v >? 0 then v else d).
Proof. intros Hd. destruct (Z.gtb_spec v 0); lia. Qed.

Lemma requestTask_positive (workflowID id : string) (r : api.CreateTaskRequest) :
  spec.positiveDefaults (api.requestTask now workflowID id r).
Proof.
  destruct (requestTask_fields workflowID id r) as [Hm Hp].
  unfold spec.positiveDefaults. rewrite Hm, Hp.
  split; apply default_positive; lia.
Qed.

Lemma convertTask_positive (workflowID id : string) (sp : yaml.TaskSpec) :
  spec.positiveDefaults (yaml.convertTask now workflowID id sp).
Proof.
  destruct (convertTask_fields workflowID id sp) as [Hm Hp].
  unfold spec.positiveDefaults. rewrite Hm, Hp.
  split; apply default_positive; lia.
Qed.

Lemma requestTasks_positive (workflowID : string) (reqs : list api.CreateTaskRequest) (k : nat) :
  Forall spec.positiveDefaults (api.requestTasks uuid now workflowID k reqs).
Proof.
  revert k. induction reqs as [|r reqs IH]; intros k; simpl; constructor.
  - apply requestTask_positive.
  - apply IH.
Qed.

Lemma convertTasks_positive (workflowID : string) (specs : list yaml.TaskSpec) (k : nat) :
  Forall spec.positiveDefaults (yaml.convertTasks uuid now workflowID k specs).
Proof.
  revert k. induction specs as [|sp specs IH]; intros k; simpl; constructor.
  - apply convertTask_positive.
  - apply IH.
Qed.

Lemma requestWorkflow_tasks (k : nat) (req : api.CreateWorkflowRequest) :
  Workflow_Tasks (api.requestWorkflow uuid now k req)
  = api.requestTasks uuid now (uuid k) (S k) (default [] (api.Req_Tasks req)).
Proof. unfold api.requestWorkflow. destruct (api.Req_Config req); reflexivity. Qed.

(** What [CreateTask] persists keeps [max_retries] and [priority]. *)
Lemma CreateTask_positive (task : Task) (st st' : storage.PostgresStore) :
  storage.CreateTask task st = Ok st' →
  spec.positiveDefaults task →
  Forall (λ t, In t (storage.tasks st) ∨ spec.positiveDefaults t) (storage.tasks st').
Proof.
  unfold storage.CreateTask. intros H Hp.
  destruct (storage.hasTask _ _); [discriminate|].
  destruct (negb _); [discriminate|].
  injection H as <-. simpl. apply Forall_app. split.
  - apply Forall_forall. intros t Ht. left. by apply list_elem_of_In.
  - constructor; [|constructor]. right. exact Hp.
Qed.

Lemma createTasks_positive (tasks : list Task) (st : storage.PostgresStore) :
  Forall spec.positiveDefaults tasks →
  Forall (λ t, In t (storage.tasks st) ∨ spec.positiveDefaults t)
    (storage.tasks (scheduler.createTasks tasks st)).
Proof.
  unfold scheduler.createTasks. revert st.
  induction tasks as [|task tasks IH]; intros st Hall; simpl.
  - apply Forall_forall. intros t Ht. left. by apply list_elem_of_In.
  - inversion Hall as [|? ? Hp Hrest]; subst.
    destruct (storage.CreateTask task st) as [st'|e] eqn:Hc.
    + specialize (IH st' Hrest).
      pose proof (CreateTask_positive _ _ _ Hc Hp) as Hst'.
      rewrite Forall_forall in IH, Hst'. apply Forall_forall. intros t Ht.
      destruct (IH t Ht) as [Hin|Hpos]; [|by right].
      apply Hst'. by apply list_elem_of_In.
    + apply IH. exact Hrest.
Qed.

Lemma createWorkflow_positive (req : api.Request) (srv : api.Server) :
  Forall (λ t, In t (storage.tasks (example.storeOf srv)) ∨ spec.positiveDefaults t)
    (storage.tasks (example.storeOf (api.createWorkflow uuid now req srv).2)).
Proof.
  assert (Hsame : Forall (λ t, In t (storage.tasks (example.storeOf srv))
                               ∨ spec.positiveDefaults t)
                    (storage.tasks (example.storeOf srv))).
  { apply Forall_forall. intros t Ht. left. by apply list_elem_of_In. }
  unfold api.createWorkflow.
  destruct (api.ShouldBindJSON (api.ReqBody req)) as [r|e]; [|exact Hsame].
  pose proof (requestWorkflow_tasks (api.drawn srv) r) as Htasks.
  pose proof (requestTasks_positive (uuid (api.drawn srv)) (default [] (api.Req_Tasks r))
                (S (api.drawn srv))) as Hpos.
  rewrite <- Htasks in Hpos. clear Htasks.
  generalize dependent (api.requestWorkflow uuid now (api.drawn srv) r).
  intros wf Hpos.
  unfold scheduler.SubmitWorkflow. cbn [api.sched].
  destruct (storage.CreateWorkflow wf _) as [st|e] eqn:Hc; [|exact Hsame].
  assert (Hst : storage.tasks st = storage.tasks (scheduler.store (api.sched srv))).
  { unfold storage.CreateWorkflow in Hc.
    destruct (storage.hasWorkflow _ _); [discriminate|]. by injection Hc as <-. }
  unfold example.storeOf. cbn. rewrite <- Hst. by apply createTasks_positive.
Qed.
End Defaults.

(** The submission of a request that binds, with identifiers that are new
    to the store: the answer and the server it leaves. *)
Lemma createWorkflow_fresh (uuid : nat → string) (now : Z)
    (r : api.CreateWorkflowRequest) (srv : api.Server) :
  api.ShouldBindJSON (api.WorkflowJSON r) = Ok r →
  laws.freshDraws uuid (api.drawn srv) (S (length (default [] (api.Req_Tasks r))))
    (example.storeOf srv) →
  let wf := api.requestWorkflow uuid now (api.drawn srv) r in
  let st := example.storeOf srv in
  api.ServeHTTP uuid now (example.submit r) srv
  = (api.mkResponse api.StatusCreated (api.WorkflowOut wf),
     api.mkServer
       (scheduler.mkScheduler
          (storage.mkStore
             (storage.workflows st
              ++ [storage.mkWorkflowRow (Workflow_ID wf) (Workflow_Name wf)
                    (Workflow_Description wf) (Workflow_Status wf) (Workflow_Config wf)
                    (Workflow_CreatedAt wf) (Workflow_UpdatedAt wf) None None])
             (storage.tasks st ++ Workflow_Tasks wf))
          (scheduler.queue (api.sched srv)))
       (S (api.drawn srv) + length (default [] (api.Req_Tasks r)))
       (api.dashboardIndex srv) (api.dashboardStatic srv)).
Proof.
  intros Hbind [Hnd Hfresh] wf st.
  set (k := api.drawn srv) in *.
  set (reqs := default [] (api.Req_Tasks r)) in *.
  assert (Hid : Workflow_ID wf = uuid k).
  { subst wf. unfold api.requestWorkflow. by destruct (api.Req_Config r). }
  assert (Hts : Workflow_Tasks wf = api.requestTasks uuid now (uuid k) (S k) reqs)
    by apply requestWorkflow_tasks.
  pose proof (requestTasks_rows uuid now (uuid k) (S k) reqs) as Hrows.
  pose proof (requestTasks_ids uuid now (uuid k) (S k) reqs) as Hids.
  rewrite <- Hts in Hrows, Hids.
  simpl in Hnd. apply NoDup_cons in Hnd as [Hk Hnd].
  destruct (Hfresh k ltac:(lia)) as [Hkw Hkt].
  unfold api.ServeHTTP.
  change (api.findRoute api.routes (example.submit r))
    with (Some (api.h_createWorkflow, @None string)).
  unfold api.createWorkflow. cbn [example.submit api.ReqBody].
  rewrite Hbind. cbn [api.sched]. fold k. fold wf. fold reqs.
  clearbody wf.
  unfold scheduler.SubmitWorkflow, storage.CreateWorkflow.
  fold (example.storeOf srv). fold st.
  rewrite (proj2 (hasWorkflow_not_elem _ _)) by (by rewrite Hid).
  rewrite createTasks_fresh; cbn [storage.workflows storage.tasks].
  - rewrite (map_id_on laws.row); [done|].
    eapply Forall_impl; [exact Hrows|]. by intros t [? _].
  - by rewrite Hids.
  - intros t Hin Hold.
    assert (Hin' : Task_ID t ∈ map uuid (seq (S k) (length reqs))).
    { rewrite <- Hids. apply list_elem_of_fmap. by exists t. }
    apply list_elem_of_fmap in Hin' as (i & Hi & Hseq).
    apply elem_of_seq in Hseq.
    destruct (Hfresh i ltac:(lia)) as [_ Hnot]. apply Hnot. by rewrite <- Hi.
  - intros t Hin. apply hasWorkflow_elem. simpl. rewrite map_app.
    apply elem_of_app. right. simpl. apply list_elem_of_singleton.
    rewrite Forall_forall in Hrows. destruct (Hrows t Hin) as (_ & -> & _).
    exact (eq_sym Hid).
Qed.

Lemma orDefault_gtb (v d : Z) : (if v >? 0 then v else d) = spec.orDefault v d.
Proof. unfold spec.orDefault. destruct (Z.gtb_spec v 0), (Z.leb_spec v 0); lia. Qed.

Lemma requestTasks_defaulted (uuid : nat → string) (now : Z) (workflowID : string) (k : nat)
    (reqs : list api.CreateTaskRequest) :
  Forall2 spec.defaultedRequest (api.requestTasks uuid now workflowID k reqs) reqs.
Proof.
  revert k. induction reqs as [|r reqs IH]; intros k; simpl; constructor; [|apply IH].
  destruct (requestTask_fields now workflowID (uuid k) r) as [Hm Hp].
  unfold spec.defaultedRequest, spec.defaulted.
  rewrite Hm, Hp, !orDefault_gtb. split_and!; try done.
  - unfold api.requestTask.
    by destruct (api.TaskReq_MaxRetries r >? 0), (api.TaskReq_Priority r >? 0),
      (api.TaskReq_Dependencies r).
  - unfold api.requestTask.
    by destruct (api.TaskReq_MaxRetries r >? 0), (api.TaskReq_Priority r >? 0),
      (api.TaskReq_Dependencies r).
Qed.

Lemma convertTasks_defaulted (uuid : nat → string) (now : Z) (workflowID : string) (k : nat)
    (specs : list yaml.TaskSpec) :
  Forall2 spec.defaultedSpec (yaml.convertTasks uuid now workflowID k specs) specs.
Proof.
  revert k. induction specs as [|sp specs IH]; intros k; simpl; constructor; [|apply IH].
  destruct (convertTask_fields now workflowID (uuid k) sp) as [Hm Hp].
  unfold spec.defaultedSpec, spec.defaulted.
  rewrite Hm, Hp, !orDefault_gtb. split_and!; try done.
  - unfold yaml.convertTask.
    by destruct (yaml.TaskSpec_MaxRetries sp >? 0), (yaml.TaskSpec_Priority sp >? 0).
  - unfold yaml.convertTask.
    by destruct (yaml.TaskSpec_MaxRetries sp >? 0), (yaml.TaskSpec_Priority sp >? 0).
Qed.

Lemma defaulted_positive (name type : string) (maxRetries priority : Z) (t : Task) :
  spec.defaulted name type maxRetries priority t → spec.positiveDefaults t.
Proof.
  intros (_ & _ & Hm & Hp). unfold spec.positiveDefaults, spec.orDefault in *.
  destruct (Z.leb_spec maxRetries 0), (Z.leb_spec priority 0); lia.
Qed.

(** ** Backoff *)

Lemma wrap64_small (z : Z) : - 2 ^ 63 ≤ z < 2 ^ 63 → wrap64 z = z.
Proof.
  intros H. unfold wrap64.
  rewrite Z.mod_small; lia.
Qed.

Lemma calculateBackoff_capped (n : Z) : queue.calculateBackoff n ≤ 5 * time_Minute.
Proof.
  unfold queue.calculateBackoff.
  destruct (Z.gtb_spec (wrap64 (time_Second * 2 * queue.shl1 n)) (time_Minute * 5)); lia.
Qed.

Lemma calculateBackoff_exact (n : Z) :
  0 ≤ n ≤ 32 →
  queue.calculateBackoff n = Z.min (5 * time_Minute) (2 * time_Second * 2 ^ n).
Proof.
  intros Hn.
  assert (Hpow : 1 ≤ 2 ^ n ≤ 2 ^ 32).
  { split; [apply (Z.pow_le_mono_r 2 0 n); lia | apply Z.pow_le_mono_r; lia]. }
  assert (Hshl : queue.shl1 n = 2 ^ n).
  { unfold queue.shl1. rewrite (Z.mod_small n) by lia.
    destruct (Z.ltb_spec n 64); [|lia].
    rewrite Z.shiftl_1_l. apply wrap64_small. lia. }
  unfold queue.calculateBackoff. rewrite Hshl.
  rewrite wrap64_small by (unfold time_Second; lia).
  unfold time_Minute, time_Second in *.
  destruct (Z.gtb_spec (1000000000 * 2 * 2 ^ n) (60 * 1000000000 * 5)); lia.
Qed.

(** ** Status updates of the state store *)

Lemma setTaskStatus_twice status result errorMsg now1 now2 (t : Task) :
  spec.terminal status →
  storage.setTaskStatus status result errorMsg now2
    (storage.setTaskStatus status result errorMsg now1 t)
  = spec.restamp now2 (storage.setTaskStatus status result errorMsg now1 t).
Proof. intros [-> | ->]; reflexivity. Qed.

Lemma restamp_same status result errorMsg now (t : Task) :
  spec.terminal status →
  spec.restamp now (storage.setTaskStatus status result errorMsg now t)
  = storage.setTaskStatus status result errorMsg now t.
Proof. intros [-> | ->]; reflexivity. Qed.

Lemma setTaskStatus_id status result errorMsg now (t : Task) :
  Task_ID (storage.setTaskStatus status result errorMsg now t) = Task_ID t.
Proof. destruct status; reflexivity. Qed.

(** C9 (as amended). Applying the same terminal report (completed with a
    result, or failed with an error) a second time changes nothing but the
    two timestamps [updated_at] and [completed_at] of the task, which take
    the time of the second call; status, result, error, retry count and
    every other row are as after the first application, and the second
    application changes nothing at all when it happens at the same instant. *)
Theorem terminal_report_twice (id : string) (status : TaskStatus)
    (result : option (gmap string JValue)) (errorMsg : string) (now1 now2 : Z)
    (s : storage.PostgresStore) :
  spec.terminal status →
  let s1 := storage.UpdateTaskStatus id status result errorMsg now1 s in
  let s2 := storage.UpdateTaskStatus id status result errorMsg now2 s1 in
  storage.workflows s2 = storage.workflows s1
  ∧ storage.tasks s2
    = map (λ t, if bool_decide (Task_ID t = id) then spec.restamp now2 t else t) (storage.tasks s1)
  ∧ (now2 = now1 → s2 = s1).
Proof.
  intros Hterm s1 s2.
  assert (Htasks : storage.tasks s2
    = map (λ t, if bool_decide (Task_ID t = id) then spec.restamp now2 t else t) (storage.tasks s1)).
  { unfold s2, s1, storage.UpdateTaskStatus. simpl.
    rewrite !map_map. apply map_ext. intros t.
    destruct (bool_decide (Task_ID t = id)) eqn:Hid.
    - rewrite setTaskStatus_id, Hid. by apply setTaskStatus_twice.
    - by rewrite Hid. }
  split; [reflexivity|]. split; [exact Htasks|].
  intros ->.
  assert (Heq : storage.tasks s2 = storage.tasks s1).
  { rewrite Htasks. unfold s1, storage.UpdateTaskStatus. simpl.
    rewrite map_map. apply map_ext. intros t.
    destruct (bool_decide (Task_ID t = id)) eqn:Hid.
    - rewrite setTaskStatus_id, Hid. by apply restamp_same.
    - by rewrite Hid. }
  unfold s2 at 1. unfold storage.UpdateTaskStatus at 1.
  fold s2. change (map _ (storage.tasks s1)) with (storage.tasks s2).
  rewrite Heq. by destruct s1.
Qed.

Lemma terminal_report_twice_witness :
  let s := example.storeOf example.soloDone in
  let r := Some (<["exit_code" := worker.JInt 0]> ∅) in
  let s1 := storage.UpdateTaskStatus "id-1" TaskStatusCompleted r "" 50 s in
  let s2 := storage.UpdateTaskStatus "id-1" TaskStatusCompleted r "" 60 s1 in
  spec.terminal TaskStatusCompleted
  ∧ storage.tasks s2
    = map (λ t, if bool_decide (Task_ID t = "id-1") then spec.restamp 60 t else t) (storage.tasks s1).
Proof.
  intros s r s1 s2. split; [by left|].
  apply (terminal_report_twice "id-1" TaskStatusCompleted r "" 50 60 s). by left.
Defined.

(** C9, as stated, fails: the second application of the same [completed]
    report, one instant later, leaves a different row. *)
Lemma terminal_report_twice_restamps :
  let s := example.storeOf example.soloDone in
  let r := Some (<["exit_code" := worker.JInt 0]> ∅) in
  let s1 := storage.UpdateTaskStatus "id-1" TaskStatusCompleted r "" 50 s in
  let s2 := storage.UpdateTaskStatus "id-1" TaskStatusCompleted r "" 51 s1 in
  s2 ≠ s1
  ∧ (Task_CompletedAt <$> storage.tasks s1) = [Some 50]
  ∧ (Task_CompletedAt <$> storage.tasks s2) = [Some 51].
Proof.
  intros s r s1 s2. split; [|split]; [|reflexivity|reflexivity].
  intros H. apply (f_equal (λ st, Task_CompletedAt <$> storage.tasks st)) in H.
  vm_compute in H. discriminate.
Qed.

(** ** Submission of a cyclic workflow *)

Lemma createWorkflow_bad_request (uuid : nat → string) (now : Z) (req : api.Request)
    (srv : api.Server) :
  api.StatusCode (api.createWorkflow uuid now req srv).1 = api.StatusBadRequest
  ↔ ∃ e, api.ShouldBindJSON (api.ReqBody req) = Err e.
Proof.
  unfold api.createWorkflow.
  destruct (api.ShouldBindJSON (api.ReqBody req)) as [r|e].
  - destruct (scheduler.SubmitWorkflow _ _); simpl;
      (split; [discriminate|by intros [? ?]]).
  - simpl. split; [by eexists|done].
Qed.

(** C6. What the code does with a submission over HTTP: the answer is 400
    exactly when the body does not bind (it does not decode, or [name] or
    [tasks] is missing); the dependencies are not looked at.  With
    A -> B, B -> A posted to [/api/v1/workflows] the answer is 201, and one
    workflow row and both task rows are written.  The YAML front-end
    rejects the same two tasks. *)
Theorem cyclic_submission_is_stored :
  (∀ uuid now req srv,
     api.StatusCode (api.createWorkflow uuid now req srv).1 = api.StatusBadRequest
     ↔ ∃ e, api.ShouldBindJSON (api.ReqBody req) = Err e)
  ∧ (let r := api.ServeHTTP example.uuid 10 (example.submit example.cyclicRequest)
                example.srv0 in
     api.StatusCode r.1 = api.StatusCreated
     ∧ map storage.row_id (storage.workflows (example.storeOf r.2)) = ["id-0"]
     ∧ example.taskDeps r.2 = [("id-1", "A", ["B"]); ("id-2", "B", ["A"])])
  ∧ (∀ ParseDuration,
       yaml.convertSpecToWorkflow ParseDuration example.uuid 10 example.cyclicSpec
       = Err "workflow validation failed: workflow contains circular dependencies").
Proof.
  split; [exact createWorkflow_bad_request|].
  repeat split; try (vm_compute; reflexivity).
Qed.

(** ** The scheduling tick *)

Lemma mkCompletedTasks_spec (tasks : list Task) (m : gmap string bool) (d : string) :
  getb (foldl (λ m task, if bool_decide (Task_Status task = TaskStatusCompleted)
                         then <[Task_ID task := true]> m else m) m tasks) d = true
  ↔ (∃ c, c ∈ tasks ∧ Task_ID c = d ∧ Task_Status c = TaskStatusCompleted)
    ∨ getb m d = true.
Proof.
  revert m. induction tasks as [|t rest IH]; intros m; simpl.
  - split; [by right|]. intros [(c & Hc & _)|H]; [by apply elem_of_nil in Hc|done].
  - rewrite IH. split.
    + intros [(c & Hc & Hid & Hst)|H].
      * left. exists c. split; [by right|done].
      * case_bool_decide as Hdone; [|by right].
        unfold getb in H. rewrite lookup_insert in H. case_decide as Heq; [|by right].
        left. exists t. split; [by left|done].
    + intros [(c & [->|Hc]%elem_of_cons & Hid & Hst)|H].
      * right. rewrite bool_decide_eq_true_2 by done.
        unfold getb. by rewrite Hid, lookup_insert_eq.
      * left. by exists c.
      * right. case_bool_decide; [|done].
        unfold getb in *. rewrite lookup_insert. by case_decide.
Qed.

Lemma depsCompleted_spec (deps : list string) (m : gmap string bool) :
  depsCompleted deps m = true ↔ ∀ d, d ∈ deps → getb m d = true.
Proof.
  induction deps as [|dep rest IH]; simpl.
  - split; [|done]. intros _ d Hd. by apply elem_of_nil in Hd.
  - destruct (getb m dep) eqn:Hdep; simpl.
    + rewrite IH. split.
      * intros H d [->|Hd]%elem_of_cons; [done|by apply H].
      * intros H d Hd. apply H. by right.
    + split; [done|]. intros H. rewrite <- Hdep. apply H. by left.
Qed.

(** The ready set of the code: a dependency counts as completed when it
    is the ID of a completed task of the workflow. *)
Lemma tasksToSchedule_spec (all pending : list Task) (t : Task) :
  t ∈ scheduler.tasksToSchedule (scheduler.mkCompletedTasks all) pending
  ↔ t ∈ pending
    ∧ (Task_Status t = TaskStatusPending ∨ Task_Status t = TaskStatusRetrying)
    ∧ ∀ d, d ∈ Task_Dependencies t →
        ∃ c, c ∈ all ∧ Task_ID c = d ∧ Task_Status c = TaskStatusCompleted.
Proof.
  unfold scheduler.tasksToSchedule. rewrite list_elem_of_filter.
  unfold CanExecute, scheduler.mkCompletedTasks.
  destruct (depsCompleted _ _) eqn:Hdeps.
  - pose proof (proj1 (depsCompleted_spec _ _) Hdeps) as Hall. clear Hdeps. split.
    + intros [Hst Hin]. split; [done|]. split.
      * apply orb_true_iff in Hst as [H|H]; apply bool_decide_eq_true in H; auto.
      * intros d Hd. specialize (Hall d Hd).
        apply mkCompletedTasks_spec in Hall as [H|H]; [done|].
        by rewrite getb_empty in H.
    + intros (Hin & Hst & _). split; [|done]. apply orb_true_iff.
      destruct Hst as [H|H]; [left|right]; by apply bool_decide_eq_true.
  - split; [by intros [? _]|]. intros (_ & _ & Hall).
    assert (depsCompleted (Task_Dependencies t)
              (foldl (λ m task, if bool_decide (Task_Status task = TaskStatusCompleted)
                                then <[Task_ID task := true]> m else m) ∅ all) = true).
    { apply depsCompleted_spec. intros d Hd. apply mkCompletedTasks_spec. left.
      by apply Hall. }
    congruence.
Qed.

(** C1. What the code does on a scheduler tick: a task is selected when it
    is pending or retrying and every entry of its dependency list is the
    ID of a completed task of the workflow, because [completedTasks] is
    keyed by task ID while dependencies are task names.  So when B depends
    on A and A is completed, B, pending and with its only dependency
    completed, is not among the tasks to schedule and the tick leaves the
    queue as it was.  Keyed by name, the same task could execute. *)
Theorem completed_dependency_not_scheduled :
  (∀ all pending t,
     t ∈ scheduler.tasksToSchedule (scheduler.mkCompletedTasks all) pending
     ↔ t ∈ pending
       ∧ (Task_Status t = TaskStatusPending ∨ Task_Status t = TaskStatusRetrying)
       ∧ ∀ d, d ∈ Task_Dependencies t →
           ∃ c, c ∈ all ∧ Task_ID c = d ∧ Task_Status c = TaskStatusCompleted)
  ∧ example.workflowStatus "id-0" example.chainADone = Some WorkflowStatusRunning
  ∧ example.taskRows example.chainADone
    = [("A", TaskStatusCompleted, 0, 3); ("B", TaskStatusPending, 0, 3)]
  ∧ example.taskDeps example.chainADone = [("id-1", "A", []); ("id-2", "B", ["A"])]
  ∧ scheduler.tasksToSchedule
      (scheduler.mkCompletedTasks (storage.tasks (example.storeOf example.chainADone)))
      (storage.GetPendingTasks (example.storeOf example.chainADone)) = []
  ∧ example.queueOf example.chainNextTick = example.queueOf example.chainADone
  ∧ example.readyNames "generic" example.chainNextTick = []
  ∧ Forall (λ t, CanExecute t (<["A" := true]> ∅) = true)
      (storage.GetPendingTasks (example.storeOf example.chainADone)).
Proof.
  split; [exact tasksToSchedule_spec|].
  repeat split; try (vm_compute; reflexivity).
  vm_compute. repeat constructor.
Qed.

(** ** The worker, the server and the queue *)

Lemma statusReport_unrouted (id : string) (status : TaskStatus)
    (result : option (gmap string JValue)) (error : string) :
  api.findRoute api.routes (example.statusReport id status result error) = None.
Proof. reflexivity. Qed.

Lemma statusReport_dropped (uuid : nat -> string) (now : Z) (id : string)
    (status : TaskStatus) (result : option (gmap string JValue)) (error : string)
    (srv : api.Server) :
  api.ServeHTTP uuid now (example.statusReport id status result error) srv
  = api.serveFile (api.dashboardIndex srv) srv.
Proof. unfold api.ServeHTTP. by rewrite statusReport_unrouted. Qed.

Lemma notifyTaskStatus_dropped (uuid : nat -> string) (now : Z) (w : worker.Worker)
    (id : string) (status : TaskStatus) (result : option (gmap string JValue))
    (error : string) (srv : api.Server) :
  worker.notifyTaskStatus (api.ServeHTTP uuid) now w id status result error srv = srv.
Proof.
  unfold worker.notifyTaskStatus. case_bool_decide; [done|].
  change (api.mkRequest "POST" ["api"; "v1"; "tasks"; id; "status"]
            (api.StatusJSON id status result error))
    with (example.statusReport id status result error).
  rewrite statusReport_dropped. unfold api.serveFile.
  by destruct (api.dashboardIndex srv).
Qed.

Lemma executeTask_store (uuid : nat -> string) (now : Z) (w : worker.Worker)
    (task : Task) (srv : api.Server) :
  example.storeOf (worker.executeTask (api.ServeHTTP uuid) now w task srv)
  = example.storeOf srv.
Proof.
  unfold worker.executeTask. rewrite !notifyTaskStatus_dropped.
  destruct (worker.runTask task) as [r|e].
  - by rewrite notifyTaskStatus_dropped.
  - destruct (Task_RetryCount task <? Task_MaxRetries task);
      by rewrite notifyTaskStatus_dropped.
Qed.

Lemma getList_setList_ne (k k' : string) (l : list Task) (q : queue.RedisQueue) :
  k ≠ k' → queue.getList (queue.setList k l q) k' = queue.getList q k'.
Proof. intros Hne. unfold queue.getList, queue.setList. simpl. by rewrite lookup_insert_ne. Qed.

Lemma getList_setZSet (k k' : string) (z : list (Z * Task)) (q : queue.RedisQueue) :
  queue.getList (queue.setZSet k z q) k' = queue.getList q k'.
Proof. done. Qed.

Lemma getList_setList (k : string) (l : list Task) (q : queue.RedisQueue) :
  queue.getList (queue.setList k l q) k = l.
Proof. unfold queue.getList, queue.setList. simpl. by rewrite lookup_insert_eq. Qed.

Lemma getZSet_setZSet (k : string) (z : list (Z * Task)) (q : queue.RedisQueue) :
  queue.getZSet (queue.setZSet k z q) k = z.
Proof. unfold queue.getZSet, queue.setZSet. simpl. by rewrite lookup_insert_eq. Qed.

Lemma getZSet_setZSet_ne (k k' : string) (z : list (Z * Task)) (q : queue.RedisQueue) :
  k ≠ k' → queue.getZSet (queue.setZSet k z q) k' = queue.getZSet q k'.
Proof. intros Hne. unfold queue.getZSet, queue.setZSet. simpl. by rewrite lookup_insert_ne. Qed.

Lemma getZSet_setList (k k' : string) (l : list Task) (q : queue.RedisQueue) :
  queue.getZSet (queue.setList k l q) k' = queue.getZSet q k'.
Proof. done. Qed.

Lemma processingKey_not_deadLetterKey (a b : string) :
  queue.processingKey a ≠ queue.deadLetterKey b.
Proof. unfold queue.processingKey, queue.deadLetterKey. simpl. discriminate. Qed.

Lemma AckTask_dead_letters (task : Task) (q : queue.RedisQueue) (ty : string) :
  queue.getList (queue.AckTask task q) (queue.deadLetterKey ty)
  = queue.getList q (queue.deadLetterKey ty).
Proof.
  unfold queue.AckTask, queue.LRem1.
  apply getList_setList_ne, processingKey_not_deadLetterKey.
Qed.

(** With retries left, [NackTask] schedules a retry and does not touch the
    dead-letter list. *)
Lemma NackTask_dead_letters (now : Z) (task : Task) (q : queue.RedisQueue) (ty : string) :
  Task_RetryCount task < Task_MaxRetries task →
  queue.getList (queue.NackTask now task q) (queue.deadLetterKey ty)
  = queue.getList q (queue.deadLetterKey ty).
Proof.
  intros Hlt. unfold queue.NackTask.
  destruct (Z.ltb_spec (Task_RetryCount task) (Task_MaxRetries task)); [|lia].
  unfold queue.ZAdd, queue.LRem1. rewrite getList_setZSet.
  apply getList_setList_ne, processingKey_not_deadLetterKey.
Qed.

Section Endpoint.
Variable serve : Z → api.Request → api.Server → api.Response * api.Server.
Hypothesis serve_queue :
  ∀ now req srv, example.queueOf (serve now req srv).2 = example.queueOf srv.

Lemma notifyTaskStatus_queue now w id status result e srv :
  example.queueOf (worker.notifyTaskStatus serve now w id status result e srv)
  = example.queueOf srv.
Proof.
  unfold worker.notifyTaskStatus. case_bool_decide; [done|]. apply serve_queue.
Qed.

(** Whatever the task and its outcome, [executeTask] leaves every
    dead-letter list as it was: it calls [NackTask] only with retries left. *)
Lemma executeTask_dead_letters now w task srv ty :
  example.deadLetters ty (worker.executeTask serve now w task srv)
  = example.deadLetters ty srv.
Proof.
  unfold example.deadLetters, worker.executeTask.
  destruct (worker.runTask task) as [r|e].
  - rewrite notifyTaskStatus_queue. unfold worker.onQueue, example.queueOf. simpl.
    rewrite AckTask_dead_letters. apply (f_equal (λ q, queue.getList q _)).
    apply notifyTaskStatus_queue.
  - destruct (Z.ltb_spec (Task_RetryCount task) (Task_MaxRetries task)).
    + rewrite notifyTaskStatus_queue. unfold worker.onQueue, example.queueOf. simpl.
      rewrite NackTask_dead_letters by done. apply (f_equal (λ q, queue.getList q _)).
      apply notifyTaskStatus_queue.
    + rewrite notifyTaskStatus_queue. unfold worker.onQueue, example.queueOf. simpl.
      rewrite AckTask_dead_letters. apply (f_equal (λ q, queue.getList q _)).
      apply notifyTaskStatus_queue.
Qed.
End Endpoint.

Lemma api_serve_queue (uuid : nat → string) (now : Z) (req : api.Request) (srv : api.Server) :
  example.queueOf (api.ServeHTTP uuid now req srv).2 = example.queueOf srv.
Proof.
  unfold api.ServeHTTP.
  destruct (api.findRoute api.routes req) as [[[] id]|]; try done.
  - unfold api.createWorkflow. destruct (api.ShouldBindJSON _); [|done].
    unfold scheduler.SubmitWorkflow. simpl. by destruct (storage.CreateWorkflow _ _).
  - unfold api.getWorkflow. by destruct (scheduler.GetWorkflow _ _).
  - unfold api.getTask. by destruct (scheduler.GetTask _ _).
  - by rewrite serveStatic_server.
  - by rewrite serveFile_server.
  - by rewrite noRoute_server.
Qed.

(** ** What every run of the system keeps *)

Lemma foldl_keeps {A B : Type} (P : A → Prop) (f : A → B → A) (l : list B) (a : A) :
  (∀ a x, P a → P (f a x)) → P a → P (foldl f a l).
Proof. intros Hstep. revert a. induction l as [|x l IH]; intros a Ha; simpl; auto. Qed.

Lemma queueKey_not_deadLetterKey (a b : string) : queue.queueKey a ≠ queue.deadLetterKey b.
Proof. unfold queue.queueKey, queue.deadLetterKey. simpl. discriminate. Qed.

Lemma noDeadLetters_setList (k : string) (l : list Task) (q : queue.RedisQueue) :
  (∀ ty, k ≠ queue.deadLetterKey ty) →
  system.noDeadLetters q → system.noDeadLetters (queue.setList k l q).
Proof. intros Hk Hq ty. rewrite getList_setList_ne; [apply Hq|apply Hk]. Qed.

Lemma noDeadLetters_setZSet (k : string) (z : list (Z * Task)) (q : queue.RedisQueue) :
  system.noDeadLetters q → system.noDeadLetters (queue.setZSet k z q).
Proof. intros Hq ty. apply Hq. Qed.

Lemma noDeadLetters_EnqueueTask (task : Task) (q : queue.RedisQueue) :
  system.noDeadLetters q → system.noDeadLetters (queue.EnqueueTask task q).
Proof.
  intros Hq. unfold queue.EnqueueTask, queue.LPush.
  apply noDeadLetters_setList; [|done]. intros ty. apply queueKey_not_deadLetterKey.
Qed.

Lemma noDeadLetters_ProcessRetries (now : Z) (ty : string) (q : queue.RedisQueue) :
  system.noDeadLetters q → system.noDeadLetters (queue.ProcessRetries now ty q).
Proof.
  intros Hq. unfold queue.ProcessRetries.
  generalize (queue.ZRangeByScore (queue.retryKey ty) 0 (queue.Unix now) 100 q).
  intros due. apply foldl_keeps; [|done].
  intros q' x Hq'. unfold queue.LPush, queue.ZRem.
  apply noDeadLetters_setList; [intros ty'; apply queueKey_not_deadLetterKey|].
  by apply noDeadLetters_setZSet.
Qed.

Lemma noDeadLetters_DequeueTask (ty : string) (q : queue.RedisQueue) :
  system.noDeadLetters q → system.noDeadLetters (queue.DequeueTask ty q).2.
Proof.
  intros Hq. unfold queue.DequeueTask.
  destruct (reverse (queue.getList q (queue.queueKey ty))) as [|x rest]; [done|].
  simpl. unfold queue.LPush.
  apply noDeadLetters_setList; [intros ty'; apply processingKey_not_deadLetterKey|].
  apply noDeadLetters_setList; [intros ty'; apply queueKey_not_deadLetterKey|done].
Qed.

(** The store operations the code reaches. *)
Lemma untouched_setPending (now : Z) (t : Task) :
  system.untouched t →
  system.untouched (storage.setTaskStatus TaskStatusPending None "" now t).
Proof. by intros (? & ? & ?). Qed.

Lemma UpdateTaskStatus_pending_keeps (id : string) (now : Z) (st : storage.PostgresStore) :
  Forall system.untouched (storage.tasks st) →
  Forall system.untouched
    (storage.tasks (storage.UpdateTaskStatus id TaskStatusPending None "" now st)).
Proof.
  intros H. unfold storage.UpdateTaskStatus. simpl.
  apply Forall_fmap. eapply Forall_impl; [exact H|].
  intros t Ht. simpl. case_bool_decide; [by apply untouched_setPending|done].
Qed.

Lemma UpdateWorkflowStatus_keeps (id : string) (status : WorkflowStatus) (now : Z)
    (st : storage.PostgresStore) :
  status = WorkflowStatusRunning ∨ status = WorkflowStatusCancelled →
  Forall system.unfinished (storage.workflows st) →
  Forall system.unfinished
    (storage.workflows (storage.UpdateWorkflowStatus id status now st)).
Proof.
  intros Hstatus H. unfold storage.UpdateWorkflowStatus. simpl.
  apply Forall_fmap. eapply Forall_impl; [exact H|].
  intros r Hr. simpl. case_bool_decide; [|done].
  destruct Hstatus as [-> | ->]; by split.
Qed.

Lemma requestTasks_untouched (uuid : nat → string) (now : Z) (workflowID : string)
    (reqs : list api.CreateTaskRequest) (k : nat) :
  Forall system.untouched (api.requestTasks uuid now workflowID k reqs).
Proof.
  revert k. induction reqs as [|r reqs IH]; intros k; simpl; constructor; [|apply IH].
  unfold api.requestTask.
  by destruct (api.TaskReq_MaxRetries r >? 0), (api.TaskReq_Priority r >? 0),
    (api.TaskReq_Dependencies r).
Qed.

Lemma CreateTask_keeps (task : Task) (st st' : storage.PostgresStore) :
  storage.CreateTask task st = Ok st' →
  system.untouched task →
  Forall system.untouched (storage.tasks st) →
  Forall system.untouched (storage.tasks st')
  ∧ storage.workflows st' = storage.workflows st.
Proof.
  unfold storage.CreateTask. intros Hc (Hs & Hr & _) Hst.
  destruct (storage.hasTask _ _); [done|].
  destruct (negb _); [done|].
  injection Hc as <-. simpl. split; [|done].
  apply Forall_app. split; [done|]. constructor; [|constructor]. by split_and!.
Qed.

Lemma createTasks_keeps (tasks : list Task) (st : storage.PostgresStore) :
  Forall system.untouched tasks →
  Forall system.untouched (storage.tasks st) →
  Forall system.untouched (storage.tasks (scheduler.createTasks tasks st))
  ∧ storage.workflows (scheduler.createTasks tasks st) = storage.workflows st.
Proof.
  unfold scheduler.createTasks. revert st.
  induction tasks as [|task tasks IH]; intros st Hnew Hst; [done|].
  apply Forall_cons in Hnew as [Htask Hnew]. simpl.
  destruct (storage.CreateTask task st) as [st'|e] eqn:Hc; [|by apply IH].
  destruct (CreateTask_keeps _ _ _ Hc Htask Hst) as [Hst' Hw'].
  rewrite <- Hw'. by apply IH.
Qed.

Lemma SubmitWorkflow_keeps (wf : Workflow) (s s' : scheduler.Scheduler) :
  scheduler.SubmitWorkflow wf s = Ok s' →
  Workflow_Status wf = WorkflowStatusPending →
  Forall system.untouched (Workflow_Tasks wf) →
  system.kept s → system.kept s'.
Proof.
  unfold scheduler.SubmitWorkflow. intros Hrun Hstatus Htasks (Hq & Ht & Hw).
  destruct (storage.CreateWorkflow wf (scheduler.store s)) as [st|e] eqn:Hc; [|done].
  injection Hrun as <-.
  unfold storage.CreateWorkflow in Hc.
  destruct (storage.hasWorkflow _ _); [done|]. injection Hc as <-.
  match goal with
  | |- system.kept {| scheduler.store := scheduler.createTasks ?ts ?st; scheduler.queue := _ |} =>
      destruct (createTasks_keeps ts st Htasks Ht) as [Ht' Hw']
  end.
  split_and!; cbn [scheduler.store scheduler.queue]; [done|done|].
  rewrite Hw'. cbn [storage.workflows]. apply Forall_app. split; [done|]. constructor; [|constructor].
  split; simpl; by rewrite Hstatus.
Qed.

Lemma enqueueAll_keeps (now : Z) (tasks : list Task) (s : scheduler.Scheduler) :
  system.kept s → system.kept (scheduler.enqueueAll now tasks s).
Proof.
  unfold scheduler.enqueueAll. apply foldl_keeps.
  intros s0 task (Hq0 & Ht0 & Hw0).
  split_and!; cbn [scheduler.store scheduler.queue].
  - by apply noDeadLetters_EnqueueTask.
  - by apply UpdateTaskStatus_pending_keeps.
  - done.
Qed.

Lemma scheduleWorkflowTasks_keeps (now : Z) (workflowID : string) (tasks : list Task)
    (s s' : scheduler.Scheduler) :
  scheduler.scheduleWorkflowTasks now workflowID tasks s = Ok s' →
  system.kept s → system.kept s'.
Proof.
  unfold scheduler.scheduleWorkflowTasks. intros Hrun Hs.
  destruct (storage.GetWorkflow _ _) as [wf|e]; [|done].
  destruct (_ && _); [by injection Hrun as <-|].
  destruct (bool_decide (length _ = 0%nat)); [by injection Hrun as <-|].
  injection Hrun as <-. apply enqueueAll_keeps.
  destruct (bool_decide (Workflow_Status wf = WorkflowStatusPending)); [|done].
  destruct Hs as (Hq & Ht & Hw).
  split_and!; cbn [scheduler.store scheduler.queue]; [done|done|].
  apply UpdateWorkflowStatus_keeps; [by left|done].
Qed.

Lemma schedulePendingTasks_keeps (visit : list (string * list Task) → list (string * list Task))
    (now : Z) (s : scheduler.Scheduler) :
  system.kept s → system.kept (scheduler.schedulePendingTasks visit now s).
Proof.
  unfold scheduler.schedulePendingTasks, scheduler.scheduleGroups. apply foldl_keeps.
  intros s0 g Hs0.
  destruct (scheduler.scheduleWorkflowTasks now g.1 g.2 s0) as [s1|e] eqn:Hrun; [|done].
  by eapply scheduleWorkflowTasks_keeps.
Qed.

Lemma processRetries_keeps (now : Z) (s : scheduler.Scheduler) :
  system.kept s → system.kept (scheduler.processRetries now s).
Proof.
  intros (Hq & Ht & Hw). unfold scheduler.processRetries.
  split_and!; cbn [scheduler.store scheduler.queue]; [|done|done].
  apply foldl_keeps; [|done]. intros q ty. apply noDeadLetters_ProcessRetries.
Qed.

Lemma CancelWorkflow_keeps (now : Z) (id : string) (s : scheduler.Scheduler) :
  system.kept s → system.kept (scheduler.CancelWorkflow now id s).
Proof.
  intros (Hq & Ht & Hw). unfold scheduler.CancelWorkflow.
  split_and!; cbn [scheduler.store scheduler.queue]; [done|done|].
  apply UpdateWorkflowStatus_keeps; [by right|done].
Qed.

Section Invariant.
Variable uuid : nat → string.

Lemma requestWorkflow_fresh (now : Z) (k : nat) (r : api.CreateWorkflowRequest) :
  Workflow_Status (api.requestWorkflow uuid now k r) = WorkflowStatusPending
  ∧ Forall system.untouched (Workflow_Tasks (api.requestWorkflow uuid now k r)).
Proof.
  split.
  - unfold api.requestWorkflow. by destruct (api.Req_Config r).
  - rewrite requestWorkflow_tasks. apply requestTasks_untouched.
Qed.

Lemma createWorkflow_keeps (now : Z) (req : api.Request) (srv : api.Server) :
  system.frozen srv → system.frozen (api.createWorkflow uuid now req srv).2.
Proof.
  intros Hs. unfold api.createWorkflow.
  destruct (api.ShouldBindJSON _) as [r|e]; [|done].
  destruct (requestWorkflow_fresh now (api.drawn srv) r) as [Hstatus Htasks].
  cbn [api.sched].
  destruct (scheduler.SubmitWorkflow _ _) as [s'|e] eqn:Hrun; [|done].
  unfold system.frozen. simpl. by eapply SubmitWorkflow_keeps.
Qed.

Lemma frozen_request (now : Z) (req : api.Request) (srv : api.Server) :
  system.frozen srv → system.frozen (api.ServeHTTP uuid now req srv).2.
Proof.
  intros Hs. unfold api.ServeHTTP.
  destruct (api.findRoute api.routes req) as [[[] id]|]; try done.
  - by apply createWorkflow_keeps.
  - unfold api.getWorkflow. by destruct (scheduler.GetWorkflow _ _).
  - unfold api.cancelWorkflow, system.frozen. simpl. by apply CancelWorkflow_keeps.
  - unfold api.getTask. by destruct (scheduler.GetTask _ _).
  - by rewrite serveStatic_server.
  - by rewrite serveFile_server.
  - by rewrite noRoute_server.
Qed.

Lemma frozen_worker (now : Z) (w : worker.Worker) (ty : string) (srv : api.Server) :
  system.frozen srv →
  system.frozen (worker.processTaskType (api.ServeHTTP uuid) now w ty srv).
Proof.
  intros (Hq & Ht & Hw). unfold worker.processTaskType.
  pose proof (noDeadLetters_DequeueTask ty _ Hq) as Hdq.
  destruct (queue.DequeueTask ty _) as [[task|] q]; [|done].
  simpl in Hdq. split_and!.
  - intros ty'. fold (example.queueOf (worker.executeTask (api.ServeHTTP uuid) now w
                        task (worker.onQueue (λ _, q) srv))).
    fold (example.deadLetters ty' (worker.executeTask (api.ServeHTTP uuid) now w
            task (worker.onQueue (λ _, q) srv))).
    rewrite executeTask_dead_letters by (intros; apply api_serve_queue). apply Hdq.
  - fold (example.storeOf (worker.executeTask (api.ServeHTTP uuid) now w
            task (worker.onQueue (λ _, q) srv))).
    by rewrite executeTask_store.
  - fold (example.storeOf (worker.executeTask (api.ServeHTTP uuid) now w
            task (worker.onQueue (λ _, q) srv))).
    by rewrite executeTask_store.
Qed.

Lemma frozen_step (srv srv' : api.Server) :
  system.step uuid srv srv' → system.frozen srv → system.frozen srv'.
Proof.
  intros Hstep H. destruct Hstep.
  - by apply frozen_request.
  - by apply schedulePendingTasks_keeps.
  - by apply processRetries_keeps.
  - done.
  - by apply frozen_worker.
Qed.

Lemma frozen_initial (srv : api.Server) : system.initial srv → system.frozen srv.
Proof.
  unfold system.initial, system.frozen. intros ->.
  split_and!; simpl; [done|constructor..].
Qed.

(** In every state the system can reach, no dead-letter list has an entry,
    every stored task is pending with retry count 0 and no result, and no
    workflow is completed or failed. *)
Lemma reachable_frozen (srv : api.Server) :
  system.reachable uuid srv → system.frozen srv.
Proof.
  intros (srv0 & Hinit & Hrun). apply frozen_initial in Hinit.
  induction Hrun as [|x y z Hstep _ IH]; [done|].
  apply IH. by eapply frozen_step.
Qed.
End Invariant.

(** What the writes of the store keep is kept by every step of the
    system: the scheduler, the server and the workers reach the store
    through [CreateWorkflow], [CreateTask] on the tasks of a request,
    [UpdateTaskStatus] with the status pending and [UpdateWorkflowStatus]
    only. *)
Section StoreInvariant.
Variable P : storage.PostgresStore → Prop.
Variable G : Task → Prop.
Hypothesis G_request : ∀ now workflowID id r, G (api.requestTask now workflowID id r).
Hypothesis P_CreateWorkflow : ∀ wf st st', P st → storage.CreateWorkflow wf st = Ok st' → P st'.
Hypothesis P_CreateTask : ∀ task st st',
  P st → G task → storage.CreateTask task st = Ok st' → P st'.
Hypothesis P_UpdateTaskStatus : ∀ id now st,
  P st → P (storage.UpdateTaskStatus id TaskStatusPending None "" now st).
Hypothesis P_UpdateWorkflowStatus : ∀ id status now st,
  P st → P (storage.UpdateWorkflowStatus id status now st).

Lemma G_requestTasks (uuid : nat → string) (now : Z) (workflowID : string) (k : nat)
    (reqs : list api.CreateTaskRequest) :
  Forall G (api.requestTasks uuid now workflowID k reqs).
Proof.
  revert k. induction reqs as [|r reqs IH]; intros k; simpl; constructor; [|apply IH].
  apply G_request.
Qed.

Lemma P_createTasks (tasks : list Task) (st : storage.PostgresStore) :
  Forall G tasks → P st → P (scheduler.createTasks tasks st).
Proof.
  unfold scheduler.createTasks. intros Htasks. revert st.
  induction Htasks as [|t tasks Ht _ IH]; intros st Hst; [done|]. simpl.
  apply IH. destruct (storage.CreateTask t st) eqn:Hc; [by eapply P_CreateTask|done].
Qed.

Lemma P_SubmitWorkflow (wf : Workflow) (s s' : scheduler.Scheduler) :
  Forall G (Workflow_Tasks wf) →
  P (scheduler.store s) → scheduler.SubmitWorkflow wf s = Ok s' → P (scheduler.store s').
Proof.
  intros Htasks Hst. unfold scheduler.SubmitWorkflow.
  destruct (storage.CreateWorkflow wf _) eqn:Hc; [|done]. intros [= <-]. simpl.
  apply P_createTasks; [done|]. by eapply P_CreateWorkflow.
Qed.

Lemma P_enqueueAll (now : Z) (tasks : list Task) (s : scheduler.Scheduler) :
  P (scheduler.store s) → P (scheduler.store (scheduler.enqueueAll now tasks s)).
Proof.
  unfold scheduler.enqueueAll. revert s.
  induction tasks as [|t tasks IH]; intros s Hst; [done|]. simpl.
  apply IH. simpl. by apply P_UpdateTaskStatus.
Qed.

Lemma P_scheduleWorkflowTasks (now : Z) (wid : string) (tasks : list Task)
    (s s' : scheduler.Scheduler) :
  P (scheduler.store s) → scheduler.scheduleWorkflowTasks now wid tasks s = Ok s' →
  P (scheduler.store s').
Proof.
  intros Hst. unfold scheduler.scheduleWorkflowTasks.
  destruct (storage.GetWorkflow wid _) as [w|]; [|done].
  destruct (_ && _); [by intros [= <-]|].
  case_bool_decide; [by intros [= <-]|].
  intros [= <-]. apply P_enqueueAll.
  case_bool_decide; [|done]. simpl. by apply P_UpdateWorkflowStatus.
Qed.

Lemma P_scheduleGroups (now : Z) (groups : list (string * list Task))
    (s : scheduler.Scheduler) :
  P (scheduler.store s) → P (scheduler.store (scheduler.scheduleGroups now groups s)).
Proof.
  unfold scheduler.scheduleGroups. revert s.
  induction groups as [|g groups IH]; intros s Hst; [done|]. simpl.
  apply IH. destruct (scheduler.scheduleWorkflowTasks now g.1 g.2 s) eqn:Hs; [|done].
  by eapply P_scheduleWorkflowTasks.
Qed.

Lemma P_request (uuid : nat → string) (now : Z) (req : api.Request) (srv : api.Server) :
  P (example.storeOf srv) → P (example.storeOf (api.ServeHTTP uuid now req srv).2).
Proof.
  intros Hst. unfold api.ServeHTTP.
  destruct (api.findRoute api.routes req) as [[[] id]|]; try done.
  - unfold api.createWorkflow.
    destruct (api.ShouldBindJSON _) as [r|e]; [|done].
    cbn [api.sched].
    destruct (scheduler.SubmitWorkflow _ _) as [s'|e] eqn:Hrun; [|done].
    unfold example.storeOf. simpl. eapply P_SubmitWorkflow; [|exact Hst|exact Hrun].
    rewrite requestWorkflow_tasks. apply G_requestTasks.
  - unfold api.getWorkflow. by destruct (scheduler.GetWorkflow _ _).
  - unfold api.cancelWorkflow, example.storeOf. simpl. by apply P_UpdateWorkflowStatus.
  - unfold api.getTask. by destruct (scheduler.GetTask _ _).
  - by rewrite serveStatic_server.
  - by rewrite serveFile_server.
  - by rewrite noRoute_server.
Qed.

Lemma P_step (uuid : nat → string) (srv srv' : api.Server) :
  system.step uuid srv srv' → P (example.storeOf srv) → P (example.storeOf srv').
Proof.
  intros Hstep H. destruct Hstep.
  - by apply P_request.
  - unfold example.storeOf, scheduler.schedulePendingTasks. simpl.
    by apply P_scheduleGroups.
  - done.
  - done.
  - unfold worker.processTaskType.
    destruct (queue.DequeueTask _ _) as [[task|] q]; [|done].
    by rewrite executeTask_store.
Qed.

Lemma P_reachable (uuid : nat → string) (srv : api.Server) :
  P storage.empty → system.reachable uuid srv → P (example.storeOf srv).
Proof.
  intros H0 (srv0 & Hinit & Hrun).
  assert (Hst : P (example.storeOf srv0)).
  { unfold example.storeOf. by rewrite Hinit. }
  clear Hinit. induction Hrun as [|x y z Hstep _ IH]; [done|].
  apply IH. by eapply P_step.
Qed.
End StoreInvariant.

(** Every stored task has a [max_retries] and a [priority] of at least 1. *)
Lemma reachable_positive (uuid : nat → string) (srv : api.Server) :
  system.reachable uuid srv →
  Forall spec.positiveDefaults (storage.tasks (example.storeOf srv)).
Proof.
  apply (P_reachable (λ st, Forall spec.positiveDefaults (storage.tasks st))
           spec.positiveDefaults).
  - intros. apply requestTask_positive.
  - intros wf st st' Hst. unfold storage.CreateWorkflow.
    destruct (storage.hasWorkflow _ _); [done|]. by intros [= <-].
  - intros task st st' Hst Htask. unfold storage.CreateTask.
    destruct (storage.hasTask _ _); [done|]. destruct (negb _); [done|]. intros [= <-].
    simpl. apply Forall_app. split; [done|]. constructor; [exact Htask|constructor].
  - intros id now st Hst. simpl. apply Forall_map. simpl.
    eapply Forall_impl; [exact Hst|]. intros t Ht. by case_bool_decide.
  - done.
  - constructor.
Qed.

Lemma retryAttempt2_reachable :
  system.reachable example.uuid (example.retryAttempt2 (api.ServeHTTP example.uuid)).
Proof.
  exists example.srv0. split; [reflexivity|].
  eapply rtc_l; [apply (system.step_request _ 10 (example.submit example.retryRequest))|].
  eapply rtc_l; [apply (system.step_schedule _ (λ groups, groups) 20); by intros ?|].
  eapply rtc_l; [apply (system.step_worker _ (30 * time_Second) example.theWorker "generic")|].
  eapply rtc_l; [apply (system.step_retries _ (60 * time_Second))|].
  eapply rtc_l; [apply (system.step_worker _ (61 * time_Second) example.theWorker "generic")|].
  apply rtc_refl.
Qed.

(** ** The status callback *)

(** C2. What the code does with a status report: [setupRoutes] has no
    route for [POST /api/v1/tasks/{id}/status], so the request falls to the
    [NoRoute] handler, which serves the dashboard's index file (200 when
    it is on disk, 404 otherwise) and leaves the server, hence the state
    store, as it was; the execution of a task by a worker therefore never
    changes the state store, and in every state the system reaches every
    stored task is still pending, with retry count 0 and no result.  After
    a worker reports [completed] with a result for a pending task, the
    store still returns the task as pending and without a result. *)
Theorem status_report_never_stored :
  (∀ uuid now id status result error srv,
     let r := api.ServeHTTP uuid now (example.statusReport id status result error) srv in
     r = api.serveFile (api.dashboardIndex srv) srv
     ∧ r.2 = srv
     ∧ (api.StatusCode r.1 = api.StatusOK ↔ api.dashboardIndex srv = true))
  ∧ (∀ uuid now w task srv,
       example.storeOf (worker.executeTask (api.ServeHTTP uuid) now w task srv)
       = example.storeOf srv)
  ∧ (∀ uuid srv, system.reachable uuid srv →
       Forall system.untouched (storage.tasks (example.storeOf srv)))
  ∧ (let r := Some (<["exit_code" := worker.JInt 0]> ∅) in
     let srv := worker.notifyTaskStatus (api.ServeHTTP example.uuid) 30 example.theWorker
                  "id-1" TaskStatusCompleted r "" example.chainStarted in
     srv = example.chainStarted
     ∧ scheduler.GetTask "id-1" (api.sched srv)
       = scheduler.GetTask "id-1" (api.sched example.chainStarted)
     ∧ (Task_Status <$> storage.tasks (example.storeOf srv))
       = [TaskStatusPending; TaskStatusPending]
     ∧ (Task_Result <$> storage.tasks (example.storeOf srv)) = [None; None]).
Proof.
  split; [|split; [|split]].
  - intros uuid now id status result error srv r. subst r.
    rewrite statusReport_dropped. unfold api.serveFile.
    destruct (api.dashboardIndex srv); simpl; repeat split; try done.
  - exact executeTask_store.
  - intros uuid srv Hreach. by apply (reachable_frozen uuid srv Hreach).
  - cbv zeta. rewrite notifyTaskStatus_dropped.
    repeat split; vm_compute; reflexivity.
Qed.

Lemma status_report_never_stored_witness :
  system.reachable example.uuid (example.retryAttempt2 (api.ServeHTTP example.uuid))
  ∧ Forall system.untouched
      (storage.tasks (example.storeOf (example.retryAttempt2 (api.ServeHTTP example.uuid)))).
Proof.
  split; [exact retryAttempt2_reachable|].
  exact (proj1 (proj2 (proj2 status_report_never_stored)) _ _ retryAttempt2_reachable).
Defined.

(** ** Retry exhaustion *)

(** C3. What the code does with a failing task: [executeTask] never adds
    to a dead-letter list, whatever the task, because it calls [NackTask]
    only while the retry count it holds is below [max_retries]; in every
    state the system reaches the dead-letter lists are empty.  For task
    Y, [max_retries = 1], failing twice (first attempt, Nack into the retry
    set, promotion, second attempt), the worker tests the retry count of
    the queued copy, which is still 0 at the second attempt, so Y goes back
    to the retry set; nothing is pushed onto [dead_letter:generic], and the
    stored task is pending with retry count 0. *)
Theorem retry_exhaustion_never_dead_letters :
  (∀ uuid now w task srv ty,
     example.deadLetters ty (worker.executeTask (api.ServeHTTP uuid) now w task srv)
       = example.deadLetters ty srv)
  ∧ (∀ uuid srv, system.reachable uuid srv → ∀ ty, example.deadLetters ty srv = [])
  ∧ (let srv := example.retryAttempt2 (api.ServeHTTP example.uuid) in
     example.retryEntries "generic" (example.retryAttempt1 (api.ServeHTTP example.uuid))
       = [(32, "Y", 0)]
     ∧ example.readyNames "generic" (example.retryPromoted (api.ServeHTTP example.uuid))
       = ["Y"]
     ∧ example.taskRows srv = [("Y", TaskStatusPending, 0, 1)]
     ∧ example.retryEntries "generic" srv = [(63, "Y", 0)]
     ∧ example.deadLetters "generic" srv = []).
Proof.
  split; [|split].
  - intros uuid now w task srv ty.
    apply executeTask_dead_letters. intros. apply api_serve_queue.
  - intros uuid srv Hreach ty. by apply (reachable_frozen uuid srv Hreach).
  - repeat split; vm_compute; reflexivity.
Qed.

Lemma retry_exhaustion_never_dead_letters_witness :
  system.reachable example.uuid (example.retryAttempt2 (api.ServeHTTP example.uuid))
  ∧ example.deadLetters "generic" (example.retryAttempt2 (api.ServeHTTP example.uuid)) = [].
Proof.
  split; [exact retryAttempt2_reachable|].
  exact (proj1 (proj2 retry_exhaustion_never_dead_letters) _ _ retryAttempt2_reachable
           "generic").
Defined.

(** ** The retry budget *)

(** C4. In every state the system reaches, every persisted task has
    [0 <= retry_count <= max_retries]: a task is stored with retry count 0
    and a [max_retries] of at least 1, the scheduler writes the status
    pending only, which leaves both as they are, and what a worker does
    (its reports of running, retrying, failed and completed included)
    does not change the store. *)
Theorem retry_count_within_budget (uuid : nat → string) (srv : api.Server) :
  system.reachable uuid srv →
  Forall spec.retryBudget (storage.tasks (example.storeOf srv))
  ∧ ∀ now w taskType,
      Forall spec.retryBudget
        (storage.tasks
           (example.storeOf (worker.processTaskType (api.ServeHTTP uuid) now w taskType srv))).
Proof.
  intros Hreach.
  assert (Hall : ∀ srv', system.reachable uuid srv' →
                   Forall spec.retryBudget (storage.tasks (example.storeOf srv'))).
  { intros srv' Hr.
    destruct (reachable_frozen uuid srv' Hr) as (_ & Huntouched & _).
    pose proof (reachable_positive uuid srv' Hr) as Hpositive.
    rewrite Forall_forall in Huntouched, Hpositive. apply Forall_forall. intros t Ht.
    destruct (Huntouched t Ht) as (_ & Hcount & _). destruct (Hpositive t Ht) as [Hmax _].
    unfold spec.retryBudget. lia. }
  split; [by apply Hall|]. intros now w taskType. apply Hall.
  destruct Hreach as (srv0 & Hinit & Hrun). exists srv0. split; [done|].
  eapply rtc_r; [exact Hrun|]. apply system.step_worker.
Qed.

Lemma retry_count_within_budget_witness :
  system.reachable example.uuid (example.retryAttempt2 (api.ServeHTTP example.uuid))
  ∧ Forall spec.retryBudget
      (storage.tasks (example.storeOf (example.retryAttempt2 (api.ServeHTTP example.uuid)))).
Proof.
  split; [exact retryAttempt2_reachable|].
  exact (proj1 (retry_count_within_budget _ _ retryAttempt2_reachable)).
Defined.

(** ** The delay before a retry *)

Lemma insertScore_member (score : Z) (x : Task) (z : list (Z * Task)) :
  Forall (λ e, e.2 ≠ x) z →
  filter (λ e, e.2 = x) (queue.insertScore score x z) = [(score, x)].
Proof.
  induction 1 as [|e z He Hz IH]; simpl.
  - by rewrite filter_cons_True.
  - destruct (score <? e.1).
    + rewrite filter_cons_True by done. rewrite filter_cons_False by done.
      f_equal. apply filter_none. rewrite Forall_forall in Hz. intros y Hy. by apply Hz.
    + by rewrite filter_cons_False.
Qed.

(** With retries left, [NackTask] leaves the task in the retry set once,
    under the score of the instant [now] plus [calculateBackoff], in whole
    seconds. *)
Lemma NackTask_score (now : Z) (task : Task) (q : queue.RedisQueue) :
  Task_RetryCount task < Task_MaxRetries task →
  filter (λ e, e.2 = queue.ToJSON task)
    (queue.getZSet (queue.NackTask now task q) (queue.retryKey (Task_Type task)))
  = [(queue.Unix (now + queue.calculateBackoff (Task_RetryCount task)), queue.ToJSON task)].
Proof.
  intros Hlt. unfold queue.NackTask.
  destruct (Z.ltb_spec (Task_RetryCount task) (Task_MaxRetries task)); [|lia].
  unfold queue.ZAdd. rewrite getZSet_setZSet. apply insertScore_member.
  apply Forall_forall. by intros e [He _]%list_elem_of_filter.
Qed.

(** C8. What the code does for the delay before a retry: [NackTask]
    takes the task, the queue and the clock, and no retry policy; it puts
    the task into the retry set under the score [now + calculateBackoff
    retry_count], in whole Unix seconds, where [calculateBackoff n] is
    [min(5 min, 2 s * 2^n)] for [n] from 0 to 32, from constants of the
    code.  A workflow submitted with a retry policy of its own
    ([initial_delay] 10 s, [max_delay] 1 min, factor 3) has the policy
    stored, and its task, failing at t = 30.9 s, is due at second 32
    whatever the policy is: the retry tick at 32.0 s puts it back on the
    ready list, 1.1 s after the failure, where the policy asks for 10 s.
    Under the default policy the first delay is 2 s, not [initial_delay]
    (1 s), and with a [max_delay] of one minute the ninth delay is five
    minutes. *)
Theorem nack_delay_ignores_retry_policy :
  (∀ now task q,
     Task_RetryCount task < Task_MaxRetries task →
     filter (λ e, e.2 = queue.ToJSON task)
       (queue.getZSet (queue.NackTask now task q) (queue.retryKey (Task_Type task)))
     = [(queue.Unix (now + queue.calculateBackoff (Task_RetryCount task)),
         queue.ToJSON task)])
  ∧ (∀ n, 0 ≤ n ≤ 32 →
       queue.calculateBackoff n = Z.min (5 * time_Minute) (2 * time_Second * 2 ^ n))
  ∧ (∀ p, example.storedPolicy "id-0" (example.policyNacked p) = Some p
          ∧ example.retryEntries "generic" (example.policyNacked p) = [(32, "Y", 0)]
          ∧ example.readyNames "generic"
              (example.retryTick 31999999999 (example.policyNacked p)) = []
          ∧ example.readyNames "generic"
              (example.retryTick (32 * time_Second) (example.policyNacked p)) = ["Y"])
  ∧ (spec.backoff example.slowPolicy 0 == inject_Z (10 * time_Second))%Q
  ∧ (let p := Config_RetryPolicy (Workflow_Config (NewWorkflow "w" 0 "w" "")) in
     queue.calculateBackoff 0 = 2 * time_Second
     ∧ InitialDelay p = time_Second
     ∧ (spec.backoff p 0 == inject_Z time_Second)%Q)
  ∧ (let p := mkRetryPolicy 3 time_Second time_Minute (2 # 1) in
     queue.calculateBackoff 8 = 5 * time_Minute
     ∧ (spec.backoff p 8 == inject_Z time_Minute)%Q).
Proof.
  split_and!.
  - apply NackTask_score.
  - apply calculateBackoff_exact.
  - intros p. split_and!; vm_compute; reflexivity.
  - vm_compute. reflexivity.
  - split_and!; vm_compute; reflexivity.
  - split_and!; vm_compute; reflexivity.
Qed.

(** ** Defaults at submission *)

(** C10. Through the HTTP API and through a YAML definition alike, the
    tasks of the workflow built are the submitted tasks, one for one and in
    their order, each with [max_retries = 3] when the submitted value is
    not positive and the submitted value otherwise, and likewise
    [priority = 1].  The HTTP submission answers 201 with that workflow,
    and with identifiers new to the store it adds exactly these tasks to
    the state store; a YAML definition whose configuration and
    dependencies are accepted is parsed into that workflow.  Hence no
    task with [max_retries = 0] or [priority <= 0] is built by either
    front-end or stored in any state the system reaches.  Submitted values
    0 and 0, -2 and -5, 7 and 9 give 3 and 1, 3 and 1, 7 and 9 over either
    path. *)
Theorem submission_defaults :
  (∀ uuid now r srv,
     api.ShouldBindJSON (api.WorkflowJSON r) = Ok r →
     let wf := api.requestWorkflow uuid now (api.drawn srv) r in
     let out := api.ServeHTTP uuid now (example.submit r) srv in
     Forall2 spec.defaultedRequest (Workflow_Tasks wf) (default [] (api.Req_Tasks r))
     ∧ (api.StatusCode out.1 = api.StatusCreated →
        api.RespBody out.1 = api.WorkflowOut wf)
     ∧ (laws.freshDraws uuid (api.drawn srv) (S (length (default [] (api.Req_Tasks r))))
          (example.storeOf srv) →
        out.1 = api.mkResponse api.StatusCreated (api.WorkflowOut wf)
        ∧ storage.tasks (example.storeOf out.2)
          = (storage.tasks (example.storeOf srv) ++ Workflow_Tasks wf)%list))
  ∧ (∀ ParseDuration uuid now wfspec,
       let tasks := yaml.convertTasks uuid now (uuid 0%nat) 1 (yaml.Spec_Tasks wfspec) in
       Forall2 spec.defaultedSpec tasks (yaml.Spec_Tasks wfspec)
       ∧ (∀ w, yaml.convertSpecToWorkflow ParseDuration uuid now wfspec = Ok w →
               Workflow_Tasks w = tasks)
       ∧ (∀ cfg, yaml.convertConfig ParseDuration (yaml.Spec_Config wfspec)
                   (Workflow_Config (NewWorkflow (uuid 0%nat) now (yaml.Spec_Name wfspec)
                                       (yaml.Spec_Description wfspec))) = Ok cfg →
                 yaml.validateWorkflowDependencies tasks = Ok tt →
                 ∃ w, yaml.convertSpecToWorkflow ParseDuration uuid now wfspec = Ok w))
  ∧ (∀ name type maxRetries priority t,
       spec.defaulted name type maxRetries priority t →
       Task_MaxRetries t ≠ 0 ∧ 0 < Task_Priority t)
  ∧ (∀ uuid srv, system.reachable uuid srv →
       Forall spec.positiveDefaults (storage.tasks (example.storeOf srv)))
  ∧ (example.taskDefaults
       (storage.tasks
          (example.storeOf
             (api.ServeHTTP example.uuid 10 (example.submit example.defaultsRequest)
                example.srv0).2))
     = [("A", 3, 1); ("B", 3, 1); ("C", 7, 9)]
     ∧ (match yaml.convertSpecToWorkflow (λ _, Err "") example.uuid 10 example.defaultsSpec with
        | Ok w => Some (example.taskDefaults (Workflow_Tasks w))
        | Err _ => None
        end) = Some [("A", 3, 1); ("B", 3, 1); ("C", 7, 9)]).
Proof.
  split; [|split; [|split; [|split]]].
  - intros uuid now r srv Hbind wf out. split_and!.
    + subst wf. rewrite requestWorkflow_tasks. apply requestTasks_defaulted.
    + subst out wf. unfold api.ServeHTTP.
      change (api.findRoute api.routes (example.submit r))
        with (Some (api.h_createWorkflow, @None string)).
      unfold api.createWorkflow. cbn [example.submit api.ReqBody]. rewrite Hbind.
      by destruct (scheduler.SubmitWorkflow _ _).
    + intros Hfresh. subst out wf.
      by rewrite (createWorkflow_fresh uuid now r srv Hbind Hfresh).
  - intros pd uuid now wfspec tasks. split_and!.
    + apply convertTasks_defaulted.
    + intros w. unfold yaml.convertSpecToWorkflow.
      destruct (yaml.convertConfig _ _ _) as [cfg|e]; [|done]. simpl.
      destruct (yaml.validateWorkflowDependencies _); [|done]. by intros [= <-].
    + intros cfg Hcfg Hval. unfold yaml.convertSpecToWorkflow.
      rewrite Hcfg. simpl. fold tasks. rewrite Hval. by eexists.
  - intros name type maxRetries priority t Hd.
    destruct (defaulted_positive _ _ _ _ _ Hd). lia.
  - apply reachable_positive.
  - split; vm_compute; reflexivity.
Qed.

(** ** The completion monitor *)

Lemma monitorWorkflows_id (s : scheduler.Scheduler) : scheduler.monitorWorkflows s = s.
Proof. reflexivity. Qed.

(** C5. What the code does on a monitor tick: [checkWorkflowCompletion]
    returns at once, so the tick changes nothing, and in every state the
    system reaches no workflow is completed or failed.  A running workflow
    whose only task is completed stays running, a running workflow whose
    only task has failed stays running, and a workflow without tasks stays
    pending after a scheduler tick and a monitor tick. *)
Theorem monitor_tick_changes_nothing :
  (∀ s, scheduler.monitorWorkflows s = s)
  ∧ (∀ uuid srv, system.reachable uuid srv →
       Forall system.unfinished (storage.workflows (example.storeOf srv)))
  ∧ (example.taskRows example.soloDone = [("A", TaskStatusCompleted, 0, 3)]
     ∧ example.workflowStatus "id-0" example.soloDone = Some WorkflowStatusRunning
     ∧ example.workflowStatus "id-0" (example.monitorTick example.soloDone)
       = Some WorkflowStatusRunning)
  ∧ (example.taskRows example.soloFailed = [("A", TaskStatusFailed, 0, 3)]
     ∧ example.workflowStatus "id-0" example.soloFailed = Some WorkflowStatusRunning
     ∧ example.workflowStatus "id-0" (example.monitorTick example.soloFailed)
       = Some WorkflowStatusRunning)
  ∧ (example.taskRows example.emptySubmitted = []
     ∧ example.workflowStatus "id-0"
         (example.monitorTick (example.tick 20 example.emptySubmitted))
       = Some WorkflowStatusPending).
Proof.
  split; [exact monitorWorkflows_id|]. split.
  - intros uuid srv Hreach. by apply (reachable_frozen uuid srv Hreach).
  - repeat split; vm_compute; reflexivity.
Qed.

Lemma monitor_tick_changes_nothing_witness :
  system.reachable example.uuid (example.retryAttempt2 (api.ServeHTTP example.uuid))
  ∧ Forall system.unfinished
      (storage.workflows
         (example.storeOf (example.retryAttempt2 (api.ServeHTTP example.uuid)))).
Proof.
  split; [exact retryAttempt2_reachable|].
  exact (proj1 (proj2 monitor_tick_changes_nothing) _ _ retryAttempt2_reachable).
Defined.

(** ** Dependency validation of the YAML front-end *)

Section Walk.
Import graph.
Variable G : gmap string (list string).

Lemma finished_rtc (st : yaml.dfs) (x y : string) :
  invariant G st → finished st x → rtc (edge G) x y → finished st y.
Proof.
  intros Hinv Hx Hxy. induction Hxy as [|x y z Hxy _ IH]; [done|].
  apply IH. by eapply inv_closed.
Qed.

Lemma invariant_empty : invariant G {| yaml.visited := ∅; yaml.recStack := ∅ |}.
Proof.
  split.
  - intros x Hx. unfold active in Hx. simpl in Hx. by rewrite getb_empty in Hx.
  - intros x y [Hx _]. unfold seen in Hx. simpl in Hx. by rewrite getb_empty in Hx.
  - intros x [Hx _]. unfold seen in Hx. simpl in Hx. by rewrite getb_empty in Hx.
Qed.

Lemma seen_enter (n x : string) (st : yaml.dfs) :
  seen (enter n st) x ↔ x = n ∨ seen st x.
Proof.
  unfold seen, enter. simpl. rewrite getb_insert.
  case_decide as Hx; [subst; split; [by left|done]|].
  split; [by right|]. by intros [->|?].
Qed.

Lemma active_enter (n x : string) (st : yaml.dfs) :
  active (enter n st) x ↔ x = n ∨ active st x.
Proof.
  unfold active, enter. simpl. rewrite getb_insert.
  case_decide as Hx; [subst; split; [by left|done]|].
  split; [by right|]. by intros [->|?].
Qed.

Lemma finished_enter (n x : string) (st : yaml.dfs) :
  ¬ seen st n → (finished (enter n st) x ↔ finished st x).
Proof.
  intros Hn. unfold finished. rewrite seen_enter, active_enter.
  split.
  - intros [[->|Hs] Ha]; [exfalso; apply Ha; by left|].
    split; [done|]. intros Hact. apply Ha. by right.
  - intros [Hs Ha]. split; [by right|].
    intros [->|Hact]; [done|done].
Qed.

Lemma invariant_enter (n : string) (st : yaml.dfs) :
  invariant G st → ¬ seen st n → invariant G (enter n st).
Proof.
  intros Hinv Hn. split.
  - intros x. rewrite active_enter, seen_enter.
    intros [->|Hx]; [by left|right; by eapply inv_stack].
  - intros x y. rewrite !finished_enter by done. by eapply inv_closed.
  - intros x. rewrite finished_enter by done. by eapply inv_acyclic.
Qed.

Lemma active_leave (n x : string) (st : yaml.dfs) :
  active (leave n st) x ↔ x ≠ n ∧ active st x.
Proof.
  unfold active, leave. simpl. rewrite getb_insert.
  case_decide as Hx; [subst; split; [done|by intros [? _]]|].
  split; [by split|by intros [_ ?]].
Qed.

Lemma seen_leave (n x : string) (st : yaml.dfs) : seen (leave n st) x ↔ seen st x.
Proof. done. Qed.

Lemma finished_leave (n x : string) (st : yaml.dfs) :
  seen st n →
  (finished (leave n st) x ↔ x = n ∨ finished st x).
Proof.
  intros Hn. unfold finished. rewrite seen_leave, active_leave. split.
  - intros [Hs Ha]. destruct (decide (x = n)) as [->|Hne]; [by left|].
    right. split; [done|]. intros Hact. by apply Ha.
  - intros [->|[Hs Ha]]; [split; [done|by intros [? _]]|].
    split; [done|by intros [_ ?]].
Qed.

(** A name all of whose successors are finished can be finished too, as
    long as it was still on the stack. *)
Lemma invariant_leave (n : string) (st : yaml.dfs) :
  invariant G st → seen st n → active st n →
  (∀ d, edge G n d → finished st d) →
  invariant G (leave n st).
Proof.
  intros Hinv Hseen Hact Hsucc. split.
  - intros x. rewrite active_leave, seen_leave. intros [_ Hx]. by eapply inv_stack.
  - intros x y. rewrite !finished_leave by done.
    intros [->|Hx] Hedge; right; [by apply Hsucc|by eapply inv_closed].
  - intros x. rewrite finished_leave by done.
    intros [->|Hx]; [|by eapply inv_acyclic].
    intros Hcycle.
    assert (Hfin : finished st n); [|by destruct Hfin].
    inversion Hcycle as [? ? Hedge|? d ? Hedge Hrest]; subst.
    + by apply Hsucc.
    + eapply finished_rtc; [done|by apply Hsucc|by apply tc_rtc].
Qed.

(** The loop over the dependencies of [n]. *)
Lemma visitDeps_correct (visit : string → yaml.dfs → option (bool * yaml.dfs))
    (n : string) (deps : list string) :
  visitCorrect G visit →
  ∀ (st : yaml.dfs) (b : bool) (st' : yaml.dfs),
    yaml.visitDeps visit deps st = Some (b, st') →
    (∀ d, d ∈ deps → edge G n d) →
    invariant G st →
    (∀ x, active st x → rtc (edge G) x n) →
    if b then cyclic G
    else invariant G st'
         ∧ (∀ x, seen st x → seen st' x)
         ∧ (∀ x, getb (yaml.recStack st') x = getb (yaml.recStack st) x)
         ∧ (∀ d, d ∈ deps → finished st' d).
Proof.
  intros Hvisit. induction deps as [|dep rest IH]; intros st b st' Hrun Hedges Hinv Hstack.
  - simpl in Hrun. injection Hrun as <- <-.
    split_and!; try done. intros d Hd. by apply elem_of_nil in Hd.
  - simpl in Hrun.
    assert (Hdep : edge G n dep) by (apply Hedges; left).
    assert (Hrest : ∀ d, d ∈ rest → edge G n d) by (intros d Hd; apply Hedges; by right).
    assert (Hback : ∀ s : yaml.dfs, (∀ x, active s x → rtc (edge G) x n) →
                      active s dep → cyclic G).
    { intros s Hs Hact. exists dep. eapply tc_rtc_l; [by apply Hs|].
      by apply tc_once. }
    destruct (getb (yaml.visited st) dep) eqn:Hvis; simpl in Hrun.
    + (* already visited *)
      destruct (getb (yaml.recStack st) dep) eqn:Hrec.
      * injection Hrun as <- <-. by apply (Hback st).
      * specialize (IH st b st' Hrun Hrest Hinv Hstack).
        destruct b; [done|]. destruct IH as (Hinv' & Hmono & Hsame & Hfin).
        split_and!; try done.
        intros d [->|Hd]%elem_of_cons; [|by apply Hfin].
        split; [by apply Hmono|]. unfold active. rewrite Hsame, Hrec. done.
    + (* not visited: the recursive call *)
      destruct (visit dep st) as [[[] st1]|] eqn:Hcall; [| |done].
      * injection Hrun as <- <-.
        apply (Hvisit dep st true st1 Hcall).
        split; [done|]. split; [unfold seen; by rewrite Hvis|].
        intros x Hx. eapply rtc_r; [by apply Hstack|done].
      * assert (Hexit : exit G st st1 dep).
        { apply (Hvisit dep st false st1 Hcall).
          split; [done|]. split; [unfold seen; by rewrite Hvis|].
          intros x Hx. eapply rtc_r; [by apply Hstack|done]. }
        destruct Hexit as (Hinv1 & Hmono1 & Hseen1 & Hsame1).
        assert (Hstack1 : ∀ x, active st1 x → rtc (edge G) x n).
        { intros x Hx. apply Hstack. unfold active in *. by rewrite <- Hsame1. }
        destruct (getb (yaml.recStack st1) dep) eqn:Hrec1.
        -- injection Hrun as <- <-. by apply (Hback st1).
        -- specialize (IH st1 b st' Hrun Hrest Hinv1 Hstack1).
           destruct b; [done|]. destruct IH as (Hinv' & Hmono & Hsame & Hfin).
           split_and!.
           ++ done.
           ++ intros x Hx. by apply Hmono, Hmono1.
           ++ intros x. by rewrite Hsame, Hsame1.
           ++ intros d [->|Hd]%elem_of_cons; [|by apply Hfin].
              split; [by apply Hmono|]. unfold active. rewrite Hsame, Hrec1. done.
Qed.

Lemma hasCycleUtil_correct (fuel : nat) : visitCorrect G (yaml.hasCycleUtil fuel G).
Proof.
  induction fuel as [|fuel IH]; intros n st b st' Hrun (Hinv & Hnew & Hstack); [done|].
  simpl in Hrun. fold (enter n st) in Hrun.
  destruct (yaml.visitDeps _ _ (enter n st)) as [[[] st2]|] eqn:Hloop; [| |done].
  - injection Hrun as <- <-.
    eapply (visitDeps_correct _ n _ IH _ true st2 Hloop); [done| |].
    + by apply invariant_enter.
    + intros x [->|Hx]%active_enter; [done|by apply Hstack].
  - injection Hrun as <- <-. fold (leave n st2).
    destruct (visitDeps_correct _ n _ IH _ false st2 Hloop) as (Hinv2 & Hmono & Hsame & Hfin).
    { done. }
    { by apply invariant_enter. }
    { intros x [->|Hx]%active_enter; [done|by apply Hstack]. }
    assert (Hseen2 : seen st2 n) by (apply Hmono, seen_enter; by left).
    assert (Hact2 : active st2 n).
    { unfold active. rewrite Hsame. apply active_enter. by left. }
    split_and!.
    + by apply invariant_leave.
    + intros x Hx. apply seen_leave, Hmono, seen_enter. by right.
    + by apply seen_leave.
    + intros x. unfold leave, enter in *. simpl in *.
      rewrite getb_insert. case_decide as Hx.
      * subst x. destruct (getb (yaml.recStack st) n) eqn:Hr; [|done].
        exfalso. apply Hnew. by eapply inv_stack.
      * rewrite Hsame, getb_insert. by case_decide.
Qed.

(** The loop of [hasCycle] over the tasks, started with an empty stack. *)
Lemma hasCycleLoop_correct (fuel : nat) (tasks : list Task) :
  ∀ (st : yaml.dfs) (b : bool),
    yaml.hasCycleLoop fuel G tasks st = Some b →
    invariant G st →
    (∀ x, ¬ active st x) →
    if b then cyclic G
    else ∃ st', invariant G st'
                ∧ (∀ x, ¬ active st' x)
                ∧ (∀ x, seen st x → seen st' x)
                ∧ (∀ t, t ∈ tasks → seen st' (Task_Name t)).
Proof.
  induction tasks as [|task rest IH]; intros st b Hrun Hinv Hstack.
  - simpl in Hrun. injection Hrun as <-. exists st.
    split_and!; try done. intros t Ht. by apply elem_of_nil in Ht.
  - simpl in Hrun.
    destruct (getb (yaml.visited st) (Task_Name task)) eqn:Hvis; simpl in Hrun.
    + specialize (IH st b Hrun Hinv Hstack). destruct b; [done|].
      destruct IH as (st' & Hinv' & Hstack' & Hmono & Hall).
      exists st'. split_and!; try done.
      intros t [->|Ht]%elem_of_cons; [by apply Hmono|by apply Hall].
    + destruct (yaml.hasCycleUtil fuel G (Task_Name task) st) as [[[] st1]|] eqn:Hcall;
        [| |done].
      * injection Hrun as <-.
        apply (hasCycleUtil_correct fuel _ _ _ _ Hcall).
        split; [done|]. split; [unfold seen; by rewrite Hvis|].
        intros x Hx. by apply Hstack in Hx.
      * destruct (hasCycleUtil_correct fuel _ _ _ _ Hcall)
          as (Hinv1 & Hmono1 & Hseen1 & Hsame1).
        { split; [done|]. split; [unfold seen; by rewrite Hvis|].
          intros x Hx. by apply Hstack in Hx. }
        assert (Hstack1 : ∀ x, ¬ active st1 x).
        { intros x Hx. apply (Hstack x). unfold active in *. by rewrite <- Hsame1. }
        specialize (IH st1 b Hrun Hinv1 Hstack1). destruct b; [done|].
        destruct IH as (st' & Hinv' & Hstack' & Hmono & Hall).
        exists st'. split_and!; try done.
        -- intros x Hx. by apply Hmono, Hmono1.
        -- intros t [->|Ht]%elem_of_cons; [by apply Hmono|by apply Hall].
Qed.

(** *** Termination: the fuel [depthBound] is enough *)

Lemma visitDeps_grows (visit : string → yaml.dfs → option (bool * yaml.dfs))
    (deps : list string) :
  visitGrows visit →
  ∀ st b st', yaml.visitDeps visit deps st = Some (b, st') → ∀ x, seen st x → seen st' x.
Proof.
  intros Hvisit. induction deps as [|dep rest IH]; intros st b st' Hrun x Hx.
  - simpl in Hrun. by injection Hrun as <- <-.
  - simpl in Hrun. destruct (negb (getb (yaml.visited st) dep)).
    + destruct (visit dep st) as [[[] st1]|] eqn:Hcall; [| |done].
      * injection Hrun as <- <-. by apply (Hvisit _ _ _ _ Hcall).
      * destruct (getb (yaml.recStack st1) dep).
        -- injection Hrun as <- <-. by apply (Hvisit _ _ _ _ Hcall).
        -- apply (IH _ _ _ Hrun). by apply (Hvisit _ _ _ _ Hcall).
    + destruct (getb (yaml.recStack st) dep).
      * by injection Hrun as <- <-.
      * by apply (IH _ _ _ Hrun).
Qed.

Lemma hasCycleUtil_grows (fuel : nat) : visitGrows (yaml.hasCycleUtil fuel G).
Proof.
  induction fuel as [|fuel IH]; intros n st b st' Hrun; [done|].
  simpl in Hrun. fold (enter n st) in Hrun.
  destruct (yaml.visitDeps _ _ (enter n st)) as [[[] st2]|] eqn:Hloop; [| |done].
  - injection Hrun as <- <-.
    pose proof (visitDeps_grows _ _ IH _ _ _ Hloop) as Hmono.
    split; [intros x Hx; apply Hmono, seen_enter; by right|].
    apply Hmono, seen_enter; by left.
  - injection Hrun as <- <-. fold (leave n st2).
    pose proof (visitDeps_grows _ _ IH _ _ _ Hloop) as Hmono.
    split; [intros x Hx; apply seen_leave, Hmono, seen_enter; by right|].
    apply seen_leave, Hmono, seen_enter; by left.
Qed.

Lemma unvisited_mono (l : list string) (st st' : yaml.dfs) :
  (∀ x, seen st x → seen st' x) → (unvisited l st' ≤ unvisited l st)%nat.
Proof.
  intros Hmono. unfold unvisited. induction l as [|u us IH]; [done|].
  rewrite !filter_cons.
  destruct (decide (getb (yaml.visited st') u = false)) as [Hu'|Hu'];
    destruct (decide (getb (yaml.visited st) u = false)) as [Hu|Hu]; simpl; try lia.
  exfalso. apply not_false_is_true in Hu. apply Hmono in Hu.
  unfold seen in Hu. congruence.
Qed.

Lemma unvisited_enter (l : list string) (n : string) (st : yaml.dfs) :
  n ∈ l → ¬ seen st n → (unvisited l (enter n st) < unvisited l st)%nat.
Proof.
  intros Hin Hnew.
  assert (Hgrow : ∀ x, seen st x → seen (enter n st) x).
  { intros x Hx. apply seen_enter. by right. }
  induction l as [|u us IH]; [by apply elem_of_nil in Hin|].
  pose proof (unvisited_mono us st (enter n st) Hgrow) as Hle.
  unfold unvisited in *. rewrite !filter_cons.
  destruct (decide (getb (yaml.visited (enter n st)) u = false)) as [Hu'|Hu'];
    destruct (decide (getb (yaml.visited st) u = false)) as [Hu|Hu];
    rewrite ?length_cons.
  - apply elem_of_cons in Hin as [Heq|Hin].
    + subst u. assert (seen (enter n st) n) as Hs by (apply seen_enter; by left).
      unfold seen in Hs. congruence.
    + specialize (IH Hin). lia.
  - exfalso. apply not_false_is_true in Hu. apply Hgrow in Hu.
    unfold seen in Hu. congruence.
  - lia.
  - apply elem_of_cons in Hin as [Heq|Hin].
    + subst u. exfalso. by apply Hnew, not_false_is_true.
    + by apply IH.
Qed.

Section Fuel.
Variable U : list string.
Hypothesis Hclosed : closedIn U G.

Lemma visitDeps_total (visit : string → yaml.dfs → option (bool * yaml.dfs))
    (bound : nat) (deps : list string) :
  visitGrows visit →
  (∀ d st, d ∈ U → ¬ seen st d → (unvisited U st < bound)%nat → is_Some (visit d st)) →
  (∀ d, d ∈ deps → d ∈ U) →
  ∀ st, (unvisited U st < bound)%nat → is_Some (yaml.visitDeps visit deps st).
Proof.
  intros Hgrows Hvisit. induction deps as [|dep rest IH]; intros Hin st Hst; [done|].
  simpl. destruct (getb (yaml.visited st) dep) eqn:Hvis; simpl.
  - destruct (getb (yaml.recStack st) dep); [done|].
    apply IH; [|done]. intros d Hd. apply Hin. by right.
  - destruct (Hvisit dep st) as [[[] st1] Hcall]; [apply Hin; by left| |done| |].
    { unfold seen. by rewrite Hvis. }
    + by rewrite Hcall.
    + rewrite Hcall. destruct (getb (yaml.recStack st1) dep); [done|].
      apply IH; [intros d Hd; apply Hin; by right|].
      eapply Nat.le_lt_trans; [|exact Hst].
      apply unvisited_mono. by apply (Hgrows _ _ _ _ Hcall).
Qed.

Lemma hasCycleUtil_total (fuel : nat) :
  ∀ n st, n ∈ U → ¬ seen st n → (unvisited U st < fuel)%nat →
    is_Some (yaml.hasCycleUtil fuel G n st).
Proof.
  induction fuel as [|fuel IH]; intros n st Hin Hnew Hfuel; [lia|].
  simpl. fold (enter n st).
  destruct (visitDeps_total (yaml.hasCycleUtil fuel G) fuel
              (default [] (G !! n)) (hasCycleUtil_grows fuel) IH) with (st := enter n st)
    as [[[] st2] Hloop].
  - intros d Hd. destruct (G !! n) as [ds|] eqn:HG; [|by apply elem_of_nil in Hd].
    by eapply Hclosed.
  - pose proof (unvisited_enter U n st Hin Hnew). lia.
  - by rewrite Hloop.
  - by rewrite Hloop.
Qed.

Lemma hasCycleLoop_total (fuel : nat) (tasks : list Task) :
  (length U < fuel)%nat →
  (∀ t, t ∈ tasks → Task_Name t ∈ U) →
  ∀ st, is_Some (yaml.hasCycleLoop fuel G tasks st).
Proof.
  intros Hfuel. induction tasks as [|task rest IH]; intros Hin st; [done|].
  simpl. destruct (getb (yaml.visited st) (Task_Name task)) eqn:Hvis; simpl.
  - apply IH. intros t Ht. apply Hin. by right.
  - destruct (hasCycleUtil_total fuel (Task_Name task) st) as [[[] st1] Hcall].
    + apply Hin. by left.
    + unfold seen. by rewrite Hvis.
    + eapply Nat.le_lt_trans; [|exact Hfuel]. unfold unvisited. apply length_filter.
    + by rewrite Hcall.
    + rewrite Hcall. apply IH. intros t Ht. apply Hin. by right.
Qed.
End Fuel.
End Walk.

(** *** The maps built from the task list *)

Lemma mkTaskDeps_lookup (tasks : list Task) (m : gmap string (list string))
    (n : string) (ds : list string) :
  foldl (λ m t, <[Task_Name t := Task_Dependencies t]> m) m tasks !! n = Some ds →
  (n, ds) ∈ graph.taskDefinitions tasks ∨ m !! n = Some ds.
Proof.
  revert m. induction tasks as [|t rest IH]; intros m H; [by right|].
  simpl in H. apply IH in H as [H|H].
  - left. by right.
  - apply lookup_insert_Some in H as [[<- <-]|[_ H]]; [left; by left|by right].
Qed.

Lemma mkTaskDeps_absent (tasks : list Task) (m : gmap string (list string)) (n : string) :
  n ∉ map Task_Name tasks →
  foldl (λ m t, <[Task_Name t := Task_Dependencies t]> m) m tasks !! n = m !! n.
Proof.
  revert m. induction tasks as [|t rest IH]; intros m Hn; [done|].
  simpl. rewrite IH.
  - apply lookup_insert_ne. intros <-. apply Hn. by left.
  - intros Hin. apply Hn. by right.
Qed.

Lemma mkTaskDeps_unique (tasks : list Task) (m : gmap string (list string))
    (n : string) (ds : list string) :
  NoDup (map Task_Name tasks) →
  (n, ds) ∈ graph.taskDefinitions tasks →
  foldl (λ m t, <[Task_Name t := Task_Dependencies t]> m) m tasks !! n = Some ds.
Proof.
  revert m. induction tasks as [|t rest IH]; intros m Hnd Hin; [by apply elem_of_nil in Hin|].
  simpl in *. apply NoDup_cons in Hnd as [Hfresh Hnd].
  apply elem_of_cons in Hin as [Heq|Hin].
  - injection Heq as -> ->. rewrite mkTaskDeps_absent by done. apply lookup_insert_eq.
  - by apply IH.
Qed.

Lemma mkTaskNames_spec (tasks : list Task) (m : gmap string bool) (d : string) :
  getb (foldl (λ m t, <[Task_Name t := true]> m) m tasks) d = true
  ↔ d ∈ map Task_Name tasks ∨ getb m d = true.
Proof.
  revert m. induction tasks as [|t rest IH]; intros m; simpl.
  - split; [by right|]. intros [H|H]; [by apply elem_of_nil in H|done].
  - rewrite IH, getb_insert, elem_of_cons. case_decide as Heq.
    + subst d. split; [intros _; left; by left|intros _; by right].
    + split.
      * intros [H|H]; [left; by right|by right].
      * intros [[H|H]|H]; [congruence|by left|by right].
Qed.

Lemma taskDefinitions_names (tasks : list Task) :
  (graph.taskDefinitions tasks).*1 = map Task_Name tasks.
Proof.
  induction tasks as [|t rest IH]; [done|].
  change ((graph.taskDefinitions (t :: rest)).*1)
    with (Task_Name t :: (graph.taskDefinitions rest).*1).
  by rewrite IH.
Qed.

Lemma taskDefinitions_elem (tasks : list Task) (n : string) (ds : list string) :
  (n, ds) ∈ graph.taskDefinitions tasks
  ↔ ∃ t, t ∈ tasks ∧ Task_Name t = n ∧ Task_Dependencies t = ds.
Proof.
  unfold graph.taskDefinitions. rewrite list_elem_of_fmap. split.
  - intros (t & Heq & Ht). injection Heq as -> ->. by exists t.
  - intros (t & Ht & <- & <-). by exists t.
Qed.

(** *** The dangling-reference check *)

Lemma firstMissing_None (names : gmap string bool) (deps : list string) :
  yaml.firstMissing names deps = None ↔ ∀ d, d ∈ deps → getb names d = true.
Proof.
  induction deps as [|dep rest IH]; simpl.
  - split; [|done]. intros _ d Hd. by apply elem_of_nil in Hd.
  - destruct (getb names dep) eqn:Hdep; simpl.
    + rewrite IH. split.
      * intros H d [->|Hd]%elem_of_cons; [done|by apply H].
      * intros H d Hd. apply H. by right.
    + split; [done|]. intros H. specialize (H dep). rewrite Hdep in H.
      discriminate H. by left.
Qed.

Lemma checkReferences_Ok (names : gmap string bool) (tasks : list Task) :
  yaml.checkReferences names tasks = Ok tt
  ↔ ∀ t d, t ∈ tasks → d ∈ Task_Dependencies t → getb names d = true.
Proof.
  induction tasks as [|task rest IH]; simpl.
  - split; [|done]. intros _ t d Ht. by apply elem_of_nil in Ht.
  - destruct (yaml.firstMissing names (Task_Dependencies task)) as [dep|] eqn:Hfirst.
    + split; [done|]. intros H.
      assert (yaml.firstMissing names (Task_Dependencies task) = None) as Hnone.
      { apply firstMissing_None. intros d Hd. apply (H task); [by left|done]. }
      congruence.
    + rewrite IH. rewrite firstMissing_None in Hfirst. split.
      * intros H t d [->|Ht]%elem_of_cons Hd; [by apply Hfirst|by eapply H].
      * intros H t d Ht Hd. apply (H t); [by right|done].
Qed.

Lemma checkReferences_dangling (tasks : list Task) :
  yaml.checkReferences (yaml.mkTaskNames tasks) tasks = Ok tt
  ↔ ¬ graph.dangling (graph.taskDefinitions tasks).
Proof.
  rewrite checkReferences_Ok. unfold graph.dangling, yaml.mkTaskNames. split.
  - intros H (a & ds & d & Hin & Hd & Hmiss).
    apply taskDefinitions_elem in Hin as (t & Ht & <- & <-).
    specialize (H t d Ht Hd). apply mkTaskNames_spec in H as [H|H].
    + apply Hmiss. by rewrite taskDefinitions_names.
    + by rewrite getb_empty in H.
  - intros H t d Ht Hd. apply mkTaskNames_spec.
    destruct (decide (d ∈ map Task_Name tasks)) as [Hin|Hout]; [by left|].
    exfalso. apply H. exists (Task_Name t), (Task_Dependencies t), d.
    split_and!; [|done|by rewrite taskDefinitions_names].
    apply taskDefinitions_elem. by exists t.
Qed.

(** *** The graph of the map and the graph of the file *)

Lemma edge_dependsOn (tasks : list Task) (a b : string) :
  graph.edge (yaml.mkTaskDeps tasks) a b → graph.dependsOn (graph.taskDefinitions tasks) a b.
Proof.
  unfold graph.edge, yaml.mkTaskDeps. intros H.
  destruct (foldl _ _ _ !! a) as [ds|] eqn:Hlook; [|by apply elem_of_nil in H].
  apply mkTaskDeps_lookup in Hlook as [Hin|Hempty]; [by exists ds|].
  by rewrite lookup_empty in Hempty.
Qed.

Lemma dependsOn_edge (tasks : list Task) (a b : string) :
  NoDup (map Task_Name tasks) →
  graph.dependsOn (graph.taskDefinitions tasks) a b → graph.edge (yaml.mkTaskDeps tasks) a b.
Proof.
  intros Hnd (ds & Hin & Hb). unfold graph.edge, yaml.mkTaskDeps.
  by rewrite (mkTaskDeps_unique tasks ∅ a ds Hnd Hin).
Qed.

Lemma tc_imp {A : Type} (R1 R2 : relation A) (x y : A) :
  (∀ a b, R1 a b → R2 a b) → tc R1 x y → tc R2 x y.
Proof.
  intros Himp H. induction H as [x y H|x y z H _ IH].
  - apply tc_once. by apply Himp.
  - eapply tc_l; [by apply Himp|done].
Qed.

Lemma cyclic_circular (tasks : list Task) :
  graph.cyclic (yaml.mkTaskDeps tasks) → graph.circular (graph.taskDefinitions tasks).
Proof. intros [x Hx]. exists x. eapply tc_imp; [apply edge_dependsOn|done]. Qed.

Lemma circular_cyclic (tasks : list Task) :
  NoDup (map Task_Name tasks) →
  graph.circular (graph.taskDefinitions tasks) → graph.cyclic (yaml.mkTaskDeps tasks).
Proof.
  intros Hnd [x Hx]. exists x. eapply tc_imp; [|done].
  intros a b. by apply dependsOn_edge.
Qed.

(** *** [hasCycle] decides whether the map has a cycle *)

Lemma universe_closed (tasks : list Task) :
  graph.closedIn (graph.universe tasks) (yaml.mkTaskDeps tasks).
Proof.
  intros x ds d Hlook Hd. unfold yaml.mkTaskDeps in Hlook.
  apply mkTaskDeps_lookup in Hlook as [Hin|Hempty]; [|by rewrite lookup_empty in Hempty].
  apply taskDefinitions_elem in Hin as (t & Ht & _ & <-).
  unfold graph.universe. apply elem_of_app. right.
  apply list_elem_of_In, in_concat. exists (Task_Dependencies t).
  split; [apply in_map; by apply list_elem_of_In|by apply list_elem_of_In].
Qed.

(** The recursion never runs out of the fuel [hasCycle] gives it. *)
Lemma hasCycleFuel_total (tasks : list Task) :
  is_Some (yaml.hasCycleFuel (yaml.depthBound tasks) tasks).
Proof.
  unfold yaml.hasCycleFuel.
  apply (hasCycleLoop_total _ (graph.universe tasks) (universe_closed tasks)).
  - unfold yaml.depthBound, graph.universe.
    rewrite length_app, length_map. lia.
  - intros t Ht. unfold graph.universe. apply elem_of_app. left.
    apply list_elem_of_fmap. by exists t.
Qed.

Lemma hasCycleFuel_sound (fuel : nat) (tasks : list Task) :
  yaml.hasCycleFuel fuel tasks = Some true → graph.cyclic (yaml.mkTaskDeps tasks).
Proof.
  intros Hrun.
  apply (hasCycleLoop_correct _ fuel tasks _ true Hrun (invariant_empty _)).
  intros x Hx. unfold graph.active in Hx. simpl in Hx. by rewrite getb_empty in Hx.
Qed.

Lemma hasCycleFuel_complete (fuel : nat) (tasks : list Task) :
  yaml.hasCycleFuel fuel tasks = Some false → ¬ graph.cyclic (yaml.mkTaskDeps tasks).
Proof.
  intros Hrun [x Hx].
  destruct (hasCycleLoop_correct _ fuel tasks _ false Hrun (invariant_empty _))
    as (st' & Hinv & Hstack & _ & Hall).
  { intros y Hy. unfold graph.active in Hy. simpl in Hy. by rewrite getb_empty in Hy. }
  apply (graph.inv_acyclic _ _ Hinv x); [|done].
  split; [|by apply Hstack].
  assert (∃ y, graph.edge (yaml.mkTaskDeps tasks) x y) as [y Hedge].
  { inversion Hx; subst; eauto. }
  apply edge_dependsOn in Hedge as (ds & Hin & _).
  apply taskDefinitions_elem in Hin as (t & Ht & <- & _). by apply Hall.
Qed.

Lemma hasCycle_true (tasks : list Task) :
  yaml.hasCycle tasks = true ↔ graph.cyclic (yaml.mkTaskDeps tasks).
Proof.
  unfold yaml.hasCycle.
  destruct (hasCycleFuel_total tasks) as [b Hb]. rewrite Hb.
  destruct b.
  - split; [intros _; by eapply hasCycleFuel_sound|done].
  - split; [done|]. intros Hc. by apply hasCycleFuel_complete in Hb.
Qed.

(** *** Validation *)

Lemma validate_Ok (tasks : list Task) :
  yaml.validateWorkflowDependencies tasks = Ok tt
  ↔ ¬ graph.dangling (graph.taskDefinitions tasks)
    ∧ ¬ graph.cyclic (yaml.mkTaskDeps tasks).
Proof.
  unfold yaml.validateWorkflowDependencies.
  rewrite <- checkReferences_dangling, <- hasCycle_true.
  destruct (yaml.checkReferences _ tasks) as [[]|e].
  - destruct (yaml.hasCycle tasks).
    + split; [done|]. by intros [_ H].
    + split; [done|]. done.
  - split; [done|]. by intros [H _].
Qed.

Lemma convertTasks_definitions (uuid : nat → string) (now : Z) (workflowID : string)
    (specs : list yaml.TaskSpec) (k : nat) :
  graph.taskDefinitions (yaml.convertTasks uuid now workflowID k specs)
  = graph.definitions specs.
Proof.
  revert k. induction specs as [|sp rest IH]; intros k; [done|].
  simpl. rewrite IH. f_equal.
  unfold yaml.convertTask.
  by destruct (yaml.TaskSpec_MaxRetries sp >? 0), (yaml.TaskSpec_Priority sp >? 0).
Qed.

Lemma convertSpec_validation (ParseDuration : string → result Z) (uuid : nat → string)
    (now : Z) (wf : yaml.WorkflowSpec) :
  match yaml.convertSpecToWorkflow ParseDuration uuid now wf with
  | Ok w =>
      yaml.validateWorkflowDependencies (Workflow_Tasks w) = Ok tt
      ∧ graph.taskDefinitions (Workflow_Tasks w) = graph.definitions (yaml.Spec_Tasks wf)
  | Err _ => True
  end.
Proof.
  unfold yaml.convertSpecToWorkflow.
  destruct (yaml.convertConfig _ _ _) as [cfg|e]; [|done]. simpl.
  destruct (yaml.validateWorkflowDependencies _) as [[]|e] eqn:Hval; [|done].
  simpl. split; [done|]. apply convertTasks_definitions.
Qed.

(** C7. Parsing a YAML definition returns an error, and no workflow,
    whenever some [depends_on] names a task that the file does not define,
    and, for a file whose task names are pairwise distinct (a task name is
    unique within its workflow), whenever the [depends_on] graph has a
    cycle; the tasks of a definition with neither defect pass dependency
    validation, and the definition is then parsed into a workflow as soon
    as its configuration is. *)
Theorem yaml_dependency_validation (ParseDuration : string → result Z)
    (uuid : nat → string) (now : Z) (wf : yaml.WorkflowSpec) :
  let defs := graph.definitions (yaml.Spec_Tasks wf) in
  let tasks := yaml.convertTasks uuid now (uuid 0%nat) 1 (yaml.Spec_Tasks wf) in
  (graph.dangling defs →
     ∃ e, yaml.convertSpecToWorkflow ParseDuration uuid now wf = Err e)
  ∧ (NoDup (map yaml.TaskSpec_Name (yaml.Spec_Tasks wf)) → graph.circular defs →
     ∃ e, yaml.convertSpecToWorkflow ParseDuration uuid now wf = Err e)
  ∧ (¬ graph.dangling defs → ¬ graph.circular defs →
     yaml.validateWorkflowDependencies tasks = Ok tt
     ∧ ∀ cfg, yaml.convertConfig ParseDuration (yaml.Spec_Config wf)
                (Workflow_Config (NewWorkflow (uuid 0%nat) now (yaml.Spec_Name wf)
                                    (yaml.Spec_Description wf))) = Ok cfg →
         ∃ w, yaml.convertSpecToWorkflow ParseDuration uuid now wf = Ok w
              ∧ Workflow_Tasks w = tasks).
Proof.
  intros defs tasks.
  assert (Hdefs : graph.taskDefinitions tasks = defs) by apply convertTasks_definitions.
  assert (Hrejected : yaml.validateWorkflowDependencies tasks ≠ Ok tt →
            ∃ e, yaml.convertSpecToWorkflow ParseDuration uuid now wf = Err e).
  { intros Hval. unfold yaml.convertSpecToWorkflow.
    destruct (yaml.convertConfig _ _ _) as [cfg|e]; [|by eexists]. simpl.
    fold tasks. destruct (yaml.validateWorkflowDependencies tasks) as [[]|e]; [done|].
    by eexists. }
  split_and!.
  - intros Hdang. apply Hrejected. rewrite validate_Ok, Hdefs. by intros [H _].
  - intros Hnd Hcirc. apply Hrejected. rewrite validate_Ok. intros [_ H]. apply H.
    apply circular_cyclic; [|by rewrite Hdefs].
    rewrite <- taskDefinitions_names, Hdefs. unfold defs, graph.definitions.
    by rewrite <- list_fmap_compose.
  - intros Hdang Hcirc.
    assert (Hval : yaml.validateWorkflowDependencies tasks = Ok tt).
    { apply validate_Ok. rewrite Hdefs. split; [done|].
      intros Hc. apply Hcirc. rewrite <- Hdefs. by apply cyclic_circular. }
    split; [done|]. intros cfg Hcfg. unfold yaml.convertSpecToWorkflow.
    rewrite Hcfg. simpl. fold tasks. rewrite Hval. by eexists.
Qed.

Lemma cyclicSpec_circular :
  graph.circular (graph.definitions (yaml.Spec_Tasks example.cyclicSpec)).
Proof.
  exists "A". eapply (tc_l _ "A" "B" "A"); [|apply tc_once].
  - exists ["B"]. split; by left.
  - exists ["A"]. split; [right|]; by left.
Qed.

Lemma yaml_dependency_validation_witness :
  NoDup (map yaml.TaskSpec_Name (yaml.Spec_Tasks example.cyclicSpec))
  ∧ graph.circular (graph.definitions (yaml.Spec_Tasks example.cyclicSpec))
  ∧ ∃ e, yaml.convertSpecToWorkflow (λ _, Err "") example.uuid 0 example.cyclicSpec = Err e.
Proof.
  assert (Hnd : NoDup (map yaml.TaskSpec_Name (yaml.Spec_Tasks example.cyclicSpec))).
  { apply (bool_decide_unpack _). vm_compute. exact I. }
  split; [exact Hnd|]. split; [exact cyclicSpec_circular|].
  exact (proj1 (proj2 (yaml_dependency_validation (λ _, Err "") example.uuid 0
                         example.cyclicSpec)) Hnd cyclicSpec_circular).
Defined.

(** * Further properties of the code *)

(** ** [ORDER BY]: the insertion sort *)

Section SortBy.
Context {A : Type}.
Variable le : A → A → bool.

Lemma insertBy_Permutation (x : A) (l : list A) : storage.insertBy le x l ≡ₚ x :: l.
Proof.
  induction l as [|y l IH]; simpl; [done|].
  destruct (le x y); [done|]. rewrite IH. apply Permutation_swap.
Qed.

Lemma sortBy_Permutation (l : list A) : storage.sortBy le l ≡ₚ l.
Proof.
  unfold storage.sortBy. induction l as [|x l IH]; simpl; [done|].
  by rewrite insertBy_Permutation, IH.
Qed.

Hypothesis le_total : ∀ a b, le a b = false → le b a = true.

Lemma insertBy_Sorted (x : A) (l : list A) :
  Sorted (λ a b, le a b = true) l → Sorted (λ a b, le a b = true) (storage.insertBy le x l).
Proof.
  induction l as [|y l IH]; intros Hs; simpl.
  - by repeat constructor.
  - destruct (le x y) eqn:Hxy.
    + constructor; [done|]. by constructor.
    + apply Sorted_inv in Hs as [Hs Hhd]. constructor; [by apply IH|].
      destruct l as [|z l]; simpl.
      * constructor. by apply le_total.
      * destruct (le x z); constructor; [by apply le_total|].
        by apply HdRel_inv in Hhd.
Qed.

Lemma sortBy_Sorted (l : list A) : Sorted (λ a b, le a b = true) (storage.sortBy le l).
Proof.
  unfold storage.sortBy. induction l as [|x l IH]; simpl; [constructor|].
  by apply insertBy_Sorted.
Qed.
End SortBy.

(** ** The state store: reads in order *)

Lemma pendingOrder_leb (a b : Task) :
  (Task_Priority b <? Task_Priority a)
  || ((Task_Priority a =? Task_Priority b) && (Task_CreatedAt a <=? Task_CreatedAt b)) = true
  ↔ laws.pendingOrder a b.
Proof.
  unfold laws.pendingOrder.
  rewrite orb_true_iff, andb_true_iff, Z.ltb_lt, Z.eqb_eq, Z.leb_le. done.
Qed.

Lemma Sorted_impl {A : Type} (R1 R2 : A → A → Prop) (l : list A) :
  (∀ a b, R1 a b → R2 a b) → Sorted R1 l → Sorted R2 l.
Proof.
  intros Himp Hs. induction Hs as [|x l Hs IH Hhd]; constructor; [done|].
  destruct Hhd; constructor. by apply Himp.
Qed.

#[local] Instance pendingOrder_trans : Transitive laws.pendingOrder.
Proof. intros a b c. unfold laws.pendingOrder. lia. Qed.

#[local] Instance createdOrder_trans : Transitive laws.createdOrder.
Proof. intros a b c. unfold laws.createdOrder. lia. Qed.

(** X1. [GetPendingTasks] returns the stored tasks whose status is pending
    or retrying, each as often as it is stored, ordered by priority
    descending and, among equal priorities, by creation time ascending. *)
Theorem GetPendingTasks_sorted (st : storage.PostgresStore) :
  storage.GetPendingTasks st ≡ₚ filter laws.schedulable (storage.tasks st)
  ∧ StronglySorted laws.pendingOrder (storage.GetPendingTasks st)
  ∧ (∀ t, t ∈ storage.GetPendingTasks st ↔ t ∈ storage.tasks st ∧ laws.schedulable t).
Proof.
  assert (Hperm : storage.GetPendingTasks st ≡ₚ filter laws.schedulable (storage.tasks st)).
  { unfold storage.GetPendingTasks. apply sortBy_Permutation. }
  split_and!; [done| |].
  - apply Sorted_StronglySorted; [apply _|].
    unfold storage.GetPendingTasks.
    eapply Sorted_impl; [|apply sortBy_Sorted].
    + intros a b. apply pendingOrder_leb.
    + intros a b Hab. apply pendingOrder_leb.
      apply not_true_iff_false in Hab. rewrite pendingOrder_leb in Hab.
      unfold laws.pendingOrder in *. lia.
  - intros t. rewrite Hperm, list_elem_of_filter. tauto.
Qed.

(** X2. [GetTasksByWorkflow] returns the stored tasks of the workflow, each
    as often as it is stored, by creation time ascending; no task of
    another workflow is among them. *)
Theorem GetTasksByWorkflow_sorted (workflowID : string) (st : storage.PostgresStore) :
  storage.GetTasksByWorkflow workflowID st
    ≡ₚ filter (λ t, Task_WorkflowID t = workflowID) (storage.tasks st)
  ∧ StronglySorted laws.createdOrder (storage.GetTasksByWorkflow workflowID st)
  ∧ (∀ t, t ∈ storage.GetTasksByWorkflow workflowID st
          ↔ t ∈ storage.tasks st ∧ Task_WorkflowID t = workflowID).
Proof.
  assert (Hperm : storage.GetTasksByWorkflow workflowID st
                    ≡ₚ filter (λ t, Task_WorkflowID t = workflowID) (storage.tasks st)).
  { unfold storage.GetTasksByWorkflow. apply sortBy_Permutation. }
  split_and!; [done| |].
  - apply Sorted_StronglySorted; [apply _|].
    unfold storage.GetTasksByWorkflow.
    eapply Sorted_impl; [|apply sortBy_Sorted].
    + intros a b. apply Z.leb_le.
    + intros a b Hab. apply Z.leb_le. apply Z.leb_gt in Hab. lia.
  - intros t. rewrite Hperm, list_elem_of_filter. tauto.
Qed.

(** ** The state store: writes and reads *)

(** X3. A task that [CreateTask] accepts reads back by [GetTask] as the row
    written (no result, no error, no start or completion time), and every
    other id reads as before; the workflows are untouched. *)
Theorem CreateTask_GetTask (task : Task) (st st' : storage.PostgresStore) :
  storage.CreateTask task st = Ok st' →
  storage.GetTask (Task_ID task) st' = Ok (laws.row task)
  ∧ (∀ id, id ≠ Task_ID task → storage.GetTask id st' = storage.GetTask id st)
  ∧ storage.workflows st' = storage.workflows st
  ∧ storage.tasks st' = (storage.tasks st ++ [laws.row task])%list.
Proof.
  unfold storage.CreateTask. intros Hc.
  destruct (storage.hasTask _ _) eqn:Hhas; [done|].
  destruct (negb _); [done|]. injection Hc as <-.
  split_and!; try done.
  - unfold storage.GetTask. simpl.
    apply find_existsb in Hhas. rewrite (find_app_None _ _ _ Hhas). simpl.
    by rewrite bool_decide_eq_true_2.
  - intros id Hne. unfold storage.GetTask. simpl.
    destruct (find (λ t, bool_decide (Task_ID t = id)) (storage.tasks st)) as [t|] eqn:Hf.
    + by rewrite (find_app_Some _ _ _ _ Hf).
    + rewrite (find_app_None _ _ _ Hf). simpl.
      by rewrite bool_decide_eq_false_2.
Qed.

Lemma CreateTask_GetTask_witness :
  let task := NewTask "t-1" 5 "id-0" "extra" "generic" ∅ in
  let st := example.storeOf example.emptySubmitted in
  let st' := storage.mkStore (storage.workflows st) (storage.tasks st ++ [laws.row task]) in
  storage.CreateTask task st = Ok st'
  ∧ storage.GetTask "t-1" st' = Ok (laws.row task).
Proof.
  split; [vm_compute; reflexivity|].
  eapply (CreateTask_GetTask (NewTask "t-1" 5 "id-0" "extra" "generic" ∅)
            (example.storeOf example.emptySubmitted)).
  vm_compute. reflexivity.
Defined.


Lemma updateRow_id id status result errorMsg now (t : Task) :
  Task_ID (if bool_decide (Task_ID t = id)
           then storage.setTaskStatus status result errorMsg now t else t) = Task_ID t.
Proof. case_bool_decide; [apply setTaskStatus_id|done]. Qed.





Lemma updateWorkflowRow_id id status now (r : storage.WorkflowRow) :
  storage.row_id (if bool_decide (storage.row_id r = id)
                  then storage.setWorkflowStatus status now r else r) = storage.row_id r.
Proof. case_bool_decide; [by destruct status|done]. Qed.

Lemma UpdateWorkflowStatus_found (id : string) (status : WorkflowStatus) (now : Z)
    (st : storage.PostgresStore) (w : Workflow) :
  storage.GetWorkflow id st = Ok w →
  storage.GetWorkflow id (storage.UpdateWorkflowStatus id status now st)
  = Ok {| Workflow_ID := Workflow_ID w;
          Workflow_Name := Workflow_Name w;
          Workflow_Description := Workflow_Description w;
          Workflow_Status := status;
          Workflow_Tasks := Workflow_Tasks w;
          Workflow_Config := Workflow_Config w;
          Workflow_CreatedAt := Workflow_CreatedAt w;
          Workflow_UpdatedAt := now;
          Workflow_StartedAt :=
            if bool_decide (status = WorkflowStatusRunning) then Some now
            else Workflow_StartedAt w;
          Workflow_CompletedAt :=
            if bool_decide (status ∈ [WorkflowStatusCompleted; WorkflowStatusFailed;
                                      WorkflowStatusCancelled]) then Some now
            else Workflow_CompletedAt w |}.
Proof.
  intros Hw. unfold storage.GetWorkflow in *.
  unfold storage.GetTasksByWorkflow in *. simpl.
  rewrite find_fmap_keep by (intros x; by rewrite updateWorkflowRow_id).
  destruct (find _ (storage.workflows st)) as [r|] eqn:Hf; [|done].
  injection Hw as <-. simpl.
  apply find_some in Hf as [_ Hid]. rewrite Hid.
  by destruct status.
Qed.

Lemma UpdateWorkflowStatus_missing (id : string) (status : WorkflowStatus) (now : Z)
    (st : storage.PostgresStore) :
  (∃ e, storage.GetWorkflow id st = Err e) →
  storage.UpdateWorkflowStatus id status now st = st.
Proof.
  intros Herr. apply GetWorkflow_Err in Herr.
  unfold storage.UpdateWorkflowStatus, storage.hasWorkflow in *.
  assert (Hmap : map (λ r, if bool_decide (storage.row_id r = id)
                           then storage.setWorkflowStatus status now r else r)
                   (storage.workflows st) = storage.workflows st).
  { induction (storage.workflows st) as [|x l IH]; [done|]. simpl in *.
    apply orb_false_iff in Herr as [Hx Hl]. rewrite Hx. by rewrite IH. }
  rewrite Hmap. by destruct st.
Qed.

(** X7. [UpdateWorkflowStatus] on a stored workflow: the workflow reads
    back with the new status and [updated_at]; [running] stamps
    [started_at] (every time, not only the first), [completed], [failed]
    and [cancelled] stamp [completed_at], and the tasks are untouched.  On
    an id that is not stored it returns without an error and changes
    nothing. *)
Theorem UpdateWorkflowStatus_GetWorkflow (id : string) (status : WorkflowStatus) (now : Z)
    (st : storage.PostgresStore) :
  let st' := storage.UpdateWorkflowStatus id status now st in
  (∀ w, storage.GetWorkflow id st = Ok w →
        storage.GetWorkflow id st'
        = Ok {| Workflow_ID := Workflow_ID w;
                Workflow_Name := Workflow_Name w;
                Workflow_Description := Workflow_Description w;
                Workflow_Status := status;
                Workflow_Tasks := Workflow_Tasks w;
                Workflow_Config := Workflow_Config w;
                Workflow_CreatedAt := Workflow_CreatedAt w;
                Workflow_UpdatedAt := now;
                Workflow_StartedAt :=
                  if bool_decide (status = WorkflowStatusRunning) then Some now
                  else Workflow_StartedAt w;
                Workflow_CompletedAt :=
                  if bool_decide (status ∈ [WorkflowStatusCompleted; WorkflowStatusFailed;
                                            WorkflowStatusCancelled]) then Some now
                  else Workflow_CompletedAt w |})
  ∧ (∀ id', id' ≠ id → storage.GetWorkflow id' st' = storage.GetWorkflow id' st)
  ∧ ((∃ e, storage.GetWorkflow id st = Err e) → st' = st)
  ∧ map storage.row_id (storage.workflows st') = map storage.row_id (storage.workflows st)
  ∧ storage.tasks st' = storage.tasks st.
Proof.
  intros st'. split_and!.
  - intros w Hw. by apply UpdateWorkflowStatus_found.
  - intros id' Hne. unfold storage.GetWorkflow, storage.GetTasksByWorkflow. subst st'. simpl.
    rewrite find_fmap_other; [done| |].
    + intros x. by rewrite updateWorkflowRow_id.
    + intros x Hx. apply bool_decide_eq_true in Hx.
      rewrite bool_decide_eq_false_2; [done|congruence].
  - intros Herr. by apply UpdateWorkflowStatus_missing.
  - subst st'. simpl. rewrite map_map. apply map_ext.
    intros r. apply updateWorkflowRow_id.
  - done.
Qed.

Lemma UpdateWorkflowStatus_GetWorkflow_witness :
  let st := example.storeOf example.chainStarted in
  ∃ w, storage.GetWorkflow "id-0" st = Ok w
       ∧ Workflow_Status <$> (match storage.GetWorkflow "id-0"
                 (storage.UpdateWorkflowStatus "id-0" WorkflowStatusCancelled 30 st) with
               | Ok w' => Some w' | Err _ => None end) = Some WorkflowStatusCancelled.
Proof.
  eexists. split; [vm_compute; reflexivity|].
  rewrite (proj1 (UpdateWorkflowStatus_GetWorkflow "id-0" WorkflowStatusCancelled 30
                    (example.storeOf example.chainStarted)) _ eq_refl).
  reflexivity.
Defined.

(** ** The constraints of the schema *)

Lemma storeOK_CreateWorkflow (wf : Workflow) (st st' : storage.PostgresStore) :
  laws.storeOK st → storage.CreateWorkflow wf st = Ok st' → laws.storeOK st'.
Proof.
  intros [Hw Ht Hfk]. unfold storage.CreateWorkflow.
  destruct (storage.hasWorkflow _ _) eqn:Hhas; [done|]. intros [= <-].
  apply hasWorkflow_not_elem in Hhas.
  split; simpl.
  - rewrite map_app. simpl. apply NoDup_app. split_and!; [done| |apply NoDup_singleton].
    intros x Hx ->%list_elem_of_singleton. done.
  - done.
  - intros t Hin. rewrite map_app. apply elem_of_app. left. by apply Hfk.
Qed.

Lemma storeOK_CreateTask (task : Task) (st st' : storage.PostgresStore) :
  laws.storeOK st → storage.CreateTask task st = Ok st' → laws.storeOK st'.
Proof.
  intros [Hw Ht Hfk]. unfold storage.CreateTask.
  destruct (storage.hasTask _ _) eqn:Hhas; [done|].
  destruct (storage.hasWorkflow _ _) eqn:Hwf; [|done]. simpl. intros [= <-].
  apply hasTask_not_elem in Hhas. apply hasWorkflow_elem in Hwf.
  split; simpl.
  - done.
  - rewrite map_app. simpl. apply NoDup_app. split_and!; [done| |apply NoDup_singleton].
    intros x Hx ->%list_elem_of_singleton. done.
  - intros t [Hin| ->%list_elem_of_singleton]%elem_of_app; [by apply Hfk|done].
Qed.

Lemma UpdateTaskStatus_ids id status result errorMsg now (st : storage.PostgresStore) :
  map Task_ID (storage.tasks (storage.UpdateTaskStatus id status result errorMsg now st))
  = map Task_ID (storage.tasks st).
Proof. simpl. rewrite map_map. apply map_ext. intros t. apply updateRow_id. Qed.

Lemma UpdateWorkflowStatus_ids id status now (st : storage.PostgresStore) :
  map storage.row_id (storage.workflows (storage.UpdateWorkflowStatus id status now st))
  = map storage.row_id (storage.workflows st).
Proof. simpl. rewrite map_map. apply map_ext. intros r. apply updateWorkflowRow_id. Qed.

Lemma storeOK_UpdateTaskStatus id status result errorMsg now (st : storage.PostgresStore) :
  laws.storeOK st → laws.storeOK (storage.UpdateTaskStatus id status result errorMsg now st).
Proof.
  intros [Hw Ht Hfk]. split.
  - done.
  - by rewrite UpdateTaskStatus_ids.
  - cbn [storage.UpdateTaskStatus storage.workflows storage.tasks].
    intros t (t0 & -> & Hin)%list_elem_of_fmap.
    case_bool_decide; [|by apply Hfk].
    destruct status; apply (Hfk t0 Hin).
Qed.

Lemma storeOK_UpdateWorkflowStatus id status now (st : storage.PostgresStore) :
  laws.storeOK st → laws.storeOK (storage.UpdateWorkflowStatus id status now st).
Proof.
  intros [Hw Ht Hfk]. split.
  - by rewrite UpdateWorkflowStatus_ids.
  - done.
  - rewrite UpdateWorkflowStatus_ids. apply Hfk.
Qed.

(** X8. The primary keys and the foreign key of the schema hold in every
    state the system reaches: no two workflows and no two tasks share an
    id, and every task belongs to a stored workflow.  Each of the four
    writes of the store keeps them. *)
Theorem store_constraints_kept :
  (∀ st, laws.storeOK st →
     (∀ wf st', storage.CreateWorkflow wf st = Ok st' → laws.storeOK st')
     ∧ (∀ task st', storage.CreateTask task st = Ok st' → laws.storeOK st')
     ∧ (∀ id status result errorMsg now,
          laws.storeOK (storage.UpdateTaskStatus id status result errorMsg now st))
     ∧ (∀ id status now, laws.storeOK (storage.UpdateWorkflowStatus id status now st)))
  ∧ (∀ uuid srv, system.reachable uuid srv → laws.storeOK (example.storeOf srv)).
Proof.
  split.
  - intros st Hok. split_and!; intros.
    + by eapply storeOK_CreateWorkflow.
    + by eapply storeOK_CreateTask.
    + by apply storeOK_UpdateTaskStatus.
    + by apply storeOK_UpdateWorkflowStatus.
  - intros uuid srv Hr.
    apply (P_reachable laws.storeOK (λ _, True)) with (uuid := uuid); try done.
    + intros. by eapply storeOK_CreateWorkflow.
    + intros. by eapply storeOK_CreateTask.
    + intros. by apply storeOK_UpdateTaskStatus.
    + intros. by apply storeOK_UpdateWorkflowStatus.
    + split; simpl; [constructor|constructor|]. intros t Ht. by apply elem_of_nil in Ht.
Qed.

(** ** Submission and reading back *)



(** ** The queue *)

Lemma queueKey_inj (a b : string) : queue.queueKey a = queue.queueKey b → a = b.
Proof. unfold queue.queueKey. intros H. by simplify_eq/=. Qed.

Lemma processingKey_inj (a b : string) : queue.processingKey a = queue.processingKey b → a = b.
Proof. unfold queue.processingKey. intros H. by simplify_eq/=. Qed.

Lemma retryKey_inj (a b : string) : queue.retryKey a = queue.retryKey b → a = b.
Proof. unfold queue.retryKey. intros H. by simplify_eq/=. Qed.

Lemma deadLetterKey_inj (a b : string) : queue.deadLetterKey a = queue.deadLetterKey b → a = b.
Proof. unfold queue.deadLetterKey. intros H. by simplify_eq/=. Qed.

Lemma queueKey_not_processingKey (a b : string) : queue.queueKey a ≠ queue.processingKey b.
Proof. unfold queue.queueKey, queue.processingKey. simpl. discriminate. Qed.

Lemma ToJSON_type (t : Task) : Task_Type (queue.ToJSON t) = Task_Type t.
Proof. unfold queue.ToJSON. by case_bool_decide. Qed.

Lemma ToJSON_idemp (t : Task) : queue.ToJSON (queue.ToJSON t) = queue.ToJSON t.
Proof.
  destruct (bool_decide (Task_Result t = Some ∅)) eqn:H; unfold queue.ToJSON; rewrite H.
  - reflexivity.
  - by rewrite H.
Qed.

Lemma queued_ToJSON (t : Task) : laws.queued (Task_Type t) (queue.ToJSON t).
Proof. split; [apply ToJSON_type|apply ToJSON_idemp]. Qed.

Lemma ready_enqueueEach (ty : string) (ts : list Task) (q : queue.RedisQueue) :
  Forall (λ t, Task_Type t = ty) ts →
  queue.getList (laws.enqueueEach ts q) (queue.queueKey ty)
  = (reverse (map queue.ToJSON ts) ++ queue.getList q (queue.queueKey ty))%list.
Proof.
  unfold laws.enqueueEach. intros Hts. revert q.
  induction Hts as [|t ts Ht _ IH]; intros q; [done|]. simpl.
  rewrite IH. unfold queue.EnqueueTask, queue.LPush. rewrite Ht, getList_setList.
  rewrite reverse_cons, <- app_assoc. done.
Qed.

Lemma drain_ready (ty : string) (n : nat) (q : queue.RedisQueue) :
  (length (queue.getList q (queue.queueKey ty)) ≤ n)%nat →
  (laws.drain n ty q).1 = reverse (queue.getList q (queue.queueKey ty))
  ∧ queue.getList (laws.drain n ty q).2 (queue.queueKey ty) = []
  ∧ queue.getList (laws.drain n ty q).2 (queue.processingKey ty)
    = (queue.getList q (queue.queueKey ty) ++ queue.getList q (queue.processingKey ty))%list.
Proof.
  revert q. induction n as [|n IH]; intros q Hlen.
  - destruct (queue.getList q (queue.queueKey ty)) eqn:Hl; [done|simpl in Hlen; lia].
  - simpl. unfold queue.DequeueTask.
    destruct (reverse (queue.getList q (queue.queueKey ty))) as [|x rest] eqn:Hrev.
    + apply (f_equal reverse) in Hrev. rewrite reverse_involutive in Hrev.
      simpl. by rewrite Hrev.
    + apply (f_equal reverse) in Hrev. rewrite reverse_involutive, reverse_cons in Hrev.
      set (q1 := queue.LPush _ _ _).
      assert (Hready : queue.getList q1 (queue.queueKey ty) = reverse rest).
      { subst q1. unfold queue.LPush.
        rewrite getList_setList_ne by (intros H; symmetry in H; by apply queueKey_not_processingKey in H).
        apply getList_setList. }
      assert (Hproc : queue.getList q1 (queue.processingKey ty)
                      = x :: queue.getList q (queue.processingKey ty)).
      { subst q1. unfold queue.LPush. rewrite getList_setList.
        by rewrite getList_setList_ne by apply queueKey_not_processingKey. }
      destruct (IH q1) as (H1 & H2 & H3).
      { rewrite Hready, length_reverse. rewrite Hrev, length_app in Hlen.
        rewrite length_reverse in Hlen. simpl in Hlen. lia. }
      cbn [fst snd]. split_and!.
      * rewrite H1, Hready. unfold queue.TaskFromJSON.
        by rewrite reverse_involutive.
      * done.
      * rewrite H3, Hready, Hproc, Hrev. by rewrite <- app_assoc.
Qed.

(** X10. The ready list of a task type is first in, first out: after any
    tasks of the type are enqueued, a worker that dequeues until the list
    is empty receives what was ready before, oldest first, and then the
    enqueued tasks in the order of the calls; everything received sits in
    the processing list. *)
Theorem queue_fifo (ty : string) (ts : list Task) (n : nat) (q : queue.RedisQueue) :
  Forall (λ t, Task_Type t = ty) ts →
  (length (queue.getList q (queue.queueKey ty)) + length ts ≤ n)%nat →
  let r := laws.drain n ty (laws.enqueueEach ts q) in
  r.1 = (reverse (queue.getList q (queue.queueKey ty)) ++ map queue.ToJSON ts)%list
  ∧ queue.getList r.2 (queue.queueKey ty) = []
  ∧ queue.getList r.2 (queue.processingKey ty)
    = (reverse r.1 ++ queue.getList q (queue.processingKey ty))%list.
Proof.
  intros Hts Hlen r.
  pose proof (ready_enqueueEach ty ts q Hts) as Hready.
  destruct (drain_ready ty n (laws.enqueueEach ts q)) as (H1 & H2 & H3).
  { rewrite Hready, length_app, length_reverse, length_map. lia. }
  assert (Hproc : queue.getList (laws.enqueueEach ts q) (queue.processingKey ty)
                  = queue.getList q (queue.processingKey ty)).
  { clear. unfold laws.enqueueEach. revert q.
    induction ts as [|t ts IH]; intros q; [done|]. simpl. rewrite IH.
    unfold queue.EnqueueTask, queue.LPush.
    apply getList_setList_ne, queueKey_not_processingKey. }
  subst r. split_and!.
  - by rewrite H1, Hready, reverse_app, reverse_involutive.
  - done.
  - rewrite H3, H1, reverse_involutive, Hproc. done.
Qed.

Lemma queue_fifo_witness :
  let a := NewTask "a" 1 "w" "A" "generic" ∅ in
  let b := NewTask "b" 2 "w" "B" "generic" ∅ in
  (laws.drain 2 "generic" (laws.enqueueEach [a; b] queue.empty)).1 = [a; b].
Proof.
  apply (queue_fifo "generic" [NewTask "a" 1 "w" "A" "generic" ∅;
                               NewTask "b" 2 "w" "B" "generic" ∅] 2 queue.empty).
  - by repeat constructor.
  - vm_compute. lia.
Defined.

(** ** The queue: what each operation keeps *)

Lemma processingKey_not_queueKey (a b : string) : queue.processingKey a ≠ queue.queueKey b.
Proof. unfold queue.queueKey, queue.processingKey. simpl. discriminate. Qed.

Lemma deadLetterKey_not_queueKey (a b : string) : queue.deadLetterKey a ≠ queue.queueKey b.
Proof. unfold queue.queueKey, queue.deadLetterKey. simpl. discriminate. Qed.

Lemma deadLetterKey_not_processingKey (a b : string) :
  queue.deadLetterKey a ≠ queue.processingKey b.
Proof. unfold queue.processingKey, queue.deadLetterKey. simpl. discriminate. Qed.

Lemma removeFirst_subseteq (x : Task) (l : list Task) : queue.removeFirst x l ⊆ l.
Proof.
  induction l as [|y l IH]; simpl; [done|].
  case_bool_decide; [by apply list_subseteq_cons|].
  intros z [->|Hz]%elem_of_cons; [left|right; by apply IH].
Qed.

Lemma removeFirst_head (x : Task) (l : list Task) : queue.removeFirst x (x :: l) = l.
Proof. simpl. by rewrite bool_decide_eq_true_2. Qed.

Lemma removeFirst_absent (x : Task) (l : list Task) : x ∉ l → queue.removeFirst x l = l.
Proof.
  induction l as [|y l IH]; simpl; [done|]. intros Hx.
  apply not_elem_of_cons in Hx as [Hne Hx].
  rewrite bool_decide_eq_false_2 by done. by rewrite IH.
Qed.

Lemma members_filter (x : Task) (z : list (Z * Task)) :
  map snd (filter (λ e, e.2 ≠ x) z) = filter (λ y, y ≠ x) (map snd z).
Proof.
  induction z as [|e z IH]; [done|]. simpl.
  rewrite !filter_cons. simpl. destruct (decide (e.2 ≠ x)); simpl; by rewrite IH.
Qed.

Lemma insertScore_Permutation (score : Z) (x : Task) (z : list (Z * Task)) :
  queue.insertScore score x z ≡ₚ (score, x) :: z.
Proof.
  induction z as [|e z IH]; simpl; [done|].
  destruct (score <? e.1); [done|]. rewrite IH. apply Permutation_swap.
Qed.

Lemma Forall_filter_keep {A : Type} (P Q : A → Prop) `{∀ x, Decision (Q x)} (l : list A) :
  Forall P l → Forall P (filter Q l).
Proof.
  rewrite !Forall_forall. intros Hl x [_ Hx]%list_elem_of_filter. by apply Hl.
Qed.

Section QueueOK.
Variable q : queue.RedisQueue.
Hypothesis Hq : laws.queueOK q.

Lemma queueOK_setList (k : string) (l : list Task) :
  (∀ ty, k = queue.queueKey ty ∨ k = queue.processingKey ty ∨ k = queue.deadLetterKey ty →
         Forall (laws.queued ty) l) →
  laws.queueOK (queue.setList k l q).
Proof.
  intros Hl. destruct Hq as [H1 H2 H3 H4 H5].
  split; intros ty; rewrite ?getZSet_setList; try done.
  - destruct (decide (k = queue.queueKey ty)) as [->|Hne].
    + rewrite getList_setList. apply Hl. by left.
    + by rewrite getList_setList_ne.
  - destruct (decide (k = queue.processingKey ty)) as [->|Hne].
    + rewrite getList_setList. apply Hl. right. by left.
    + by rewrite getList_setList_ne.
  - destruct (decide (k = queue.deadLetterKey ty)) as [->|Hne].
    + rewrite getList_setList. apply Hl. right. by right.
    + by rewrite getList_setList_ne.
Qed.

Lemma queueOK_setZSet (k : string) (z : list (Z * Task)) :
  (∀ ty, k = queue.retryKey ty → Forall (λ e, laws.queued ty e.2) z ∧ NoDup (map snd z)) →
  laws.queueOK (queue.setZSet k z q).
Proof.
  intros Hz. destruct Hq as [H1 H2 H3 H4 H5].
  split; intros ty; rewrite ?getList_setZSet; try done.
  - destruct (decide (k = queue.retryKey ty)) as [->|Hne].
    + rewrite getZSet_setZSet. by destruct (Hz ty eq_refl).
    + by rewrite getZSet_setZSet_ne.
  - destruct (decide (k = queue.retryKey ty)) as [->|Hne].
    + rewrite getZSet_setZSet. by destruct (Hz ty eq_refl).
    + by rewrite getZSet_setZSet_ne.
Qed.

Lemma queueOK_LPush_ready (ty : string) (x : Task) :
  laws.queued ty x → laws.queueOK (queue.LPush (queue.queueKey ty) x q).
Proof.
  intros Hx. apply queueOK_setList. intros ty' [Hk|[Hk|Hk]].
  - apply queueKey_inj in Hk as <-. constructor; [done|apply (laws.ok_ready _ Hq)].
  - by apply queueKey_not_processingKey in Hk.
  - by apply queueKey_not_deadLetterKey in Hk.
Qed.

Lemma queueOK_LPush_processing (ty : string) (x : Task) :
  laws.queued ty x → laws.queueOK (queue.LPush (queue.processingKey ty) x q).
Proof.
  intros Hx. apply queueOK_setList. intros ty' [Hk|[Hk|Hk]].
  - by apply processingKey_not_queueKey in Hk.
  - apply processingKey_inj in Hk as <-. constructor; [done|apply (laws.ok_processing _ Hq)].
  - by apply processingKey_not_deadLetterKey in Hk.
Qed.

Lemma queueOK_LPush_dead (ty : string) (x : Task) :
  laws.queued ty x → laws.queueOK (queue.LPush (queue.deadLetterKey ty) x q).
Proof.
  intros Hx. apply queueOK_setList. intros ty' [Hk|[Hk|Hk]].
  - by apply deadLetterKey_not_queueKey in Hk.
  - by apply deadLetterKey_not_processingKey in Hk.
  - apply deadLetterKey_inj in Hk as <-. constructor; [done|apply (laws.ok_dead _ Hq)].
Qed.

Lemma queueOK_LRem1 (ty : string) (x : Task) :
  laws.queueOK (queue.LRem1 (queue.processingKey ty) x q).
Proof.
  apply queueOK_setList. intros ty' [Hk|[Hk|Hk]].
  - by apply processingKey_not_queueKey in Hk.
  - apply processingKey_inj in Hk as <-.
    pose proof (laws.ok_processing _ Hq ty) as Hp. rewrite Forall_forall in Hp.
    apply Forall_forall. intros y Hy. apply Hp. by apply (removeFirst_subseteq x).
  - by apply processingKey_not_deadLetterKey in Hk.
Qed.

Lemma queueOK_ZRem (ty : string) (x : Task) :
  laws.queueOK (queue.ZRem (queue.retryKey ty) x q).
Proof.
  apply queueOK_setZSet. intros ty' <-%retryKey_inj. split.
  - apply Forall_filter_keep. apply (laws.ok_retry _ Hq).
  - rewrite members_filter. apply NoDup_filter, (laws.ok_members _ Hq).
Qed.

Lemma queueOK_ZAdd (ty : string) (score : Z) (x : Task) :
  laws.queued ty x → laws.queueOK (queue.ZAdd (queue.retryKey ty) score x q).
Proof.
  intros Hx. apply queueOK_setZSet. intros ty' <-%retryKey_inj.
  pose proof (insertScore_Permutation score x
                (filter (λ e, e.2 ≠ x) (queue.getZSet q (queue.retryKey ty)))) as Hp.
  split.
  - rewrite Hp. constructor; [done|]. apply Forall_filter_keep, (laws.ok_retry _ Hq).
  - rewrite Hp. simpl. rewrite members_filter. apply NoDup_cons. split.
    + intros [Hne _]%list_elem_of_filter. by apply Hne.
    + apply NoDup_filter, (laws.ok_members _ Hq).
Qed.
End QueueOK.

Lemma queueOK_EnqueueTask (task : Task) (q : queue.RedisQueue) :
  laws.queueOK q → laws.queueOK (queue.EnqueueTask task q).
Proof.
  intros Hq. unfold queue.EnqueueTask.
  exact (queueOK_LPush_ready q Hq (Task_Type task) (queue.ToJSON task) (queued_ToJSON task)).
Qed.

Lemma queueOK_AckTask (task : Task) (q : queue.RedisQueue) :
  laws.queueOK q → laws.queueOK (queue.AckTask task q).
Proof. intros Hq. exact (queueOK_LRem1 q Hq (Task_Type task) (queue.ToJSON task)). Qed.

Lemma queueOK_NackTask (now : Z) (task : Task) (q : queue.RedisQueue) :
  laws.queueOK q → laws.queueOK (queue.NackTask now task q).
Proof.
  intros Hq. unfold queue.NackTask.
  pose proof (queueOK_LRem1 q Hq (Task_Type task) (queue.ToJSON task)) as Hq1.
  destruct (_ <? _).
  - exact (queueOK_ZAdd _ Hq1 (Task_Type task) _ (queue.ToJSON task) (queued_ToJSON task)).
  - exact (queueOK_LPush_dead _ Hq1 (Task_Type task) (queue.ToJSON task) (queued_ToJSON task)).
Qed.

Lemma DequeueTask_last (ty : string) (q : queue.RedisQueue) :
  match queue.DequeueTask ty q with
  | (None, q') => queue.getList q (queue.queueKey ty) = [] ∧ q' = q
  | (Some x, q') =>
      ∃ l, queue.getList q (queue.queueKey ty) = (l ++ [x])%list
           ∧ q' = queue.LPush (queue.processingKey ty) x (queue.setList (queue.queueKey ty) l q)
  end.
Proof.
  unfold queue.DequeueTask.
  destruct (reverse (queue.getList q (queue.queueKey ty))) as [|x rest] eqn:Hrev;
    apply (f_equal reverse) in Hrev; rewrite reverse_involutive in Hrev.
  - done.
  - rewrite reverse_cons in Hrev. by exists (reverse rest).
Qed.

Lemma queueOK_DequeueTask (ty : string) (q : queue.RedisQueue) :
  laws.queueOK q →
  laws.queueOK (queue.DequeueTask ty q).2
  ∧ ∀ x, (queue.DequeueTask ty q).1 = Some x → laws.queued ty x.
Proof.
  intros Hq. pose proof (DequeueTask_last ty q) as Hd.
  destruct (queue.DequeueTask ty q) as [[x|] q']; simpl.
  - destruct Hd as (l & Hl & ->).
    pose proof (laws.ok_ready _ Hq ty) as Hready. rewrite Hl in Hready.
    apply Forall_app in Hready as [Hl' Hx]. rewrite Forall_singleton in Hx.
    split; [|intros ? [= <-]; exact Hx].
    refine (queueOK_LPush_processing _ _ ty x Hx).
    apply queueOK_setList; [done|]. intros ty' [Hk|[Hk|Hk]].
    + by apply queueKey_inj in Hk as <-.
    + by apply queueKey_not_processingKey in Hk.
    + by apply queueKey_not_deadLetterKey in Hk.
  - destruct Hd as [_ ->]. by split.
Qed.

Lemma ZRangeByScore_members (ty : string) (lo hi : Z) (count : nat) (q : queue.RedisQueue)
    (x : Task) :
  x ∈ queue.ZRangeByScore (queue.retryKey ty) lo hi count q →
  ∃ s, (s, x) ∈ queue.getZSet q (queue.retryKey ty) ∧ lo ≤ s ≤ hi.
Proof.
  unfold queue.ZRangeByScore. intros Hin%subseteq_take.
  apply list_elem_of_fmap in Hin as ([s y] & -> & [Hs Hin]%list_elem_of_filter).
  by exists s.
Qed.

Lemma queueOK_promote (ty : string) (due : list Task) (q : queue.RedisQueue) :
  Forall (laws.queued ty) due → laws.queueOK q →
  laws.queueOK (foldl (λ q x, queue.LPush (queue.queueKey ty) x
                                (queue.ZRem (queue.retryKey ty) x q)) q due).
Proof.
  intros Hdue. revert q. induction Hdue as [|x due Hx _ IH]; intros q Hq; [done|].
  simpl. apply IH.
  exact (queueOK_LPush_ready _ (queueOK_ZRem q Hq ty x) ty x Hx).
Qed.

Lemma queueOK_ProcessRetries (now : Z) (ty : string) (q : queue.RedisQueue) :
  laws.queueOK q → laws.queueOK (queue.ProcessRetries now ty q).
Proof.
  intros Hq. unfold queue.ProcessRetries. apply queueOK_promote; [|done].
  apply Forall_forall. intros x (s & Hin & _)%ZRangeByScore_members.
  pose proof (laws.ok_retry _ Hq ty) as Hr. rewrite Forall_forall in Hr.
  apply (Hr _ Hin).
Qed.

Lemma enqueueAll_queueOK (now : Z) (tasks : list Task) (s : scheduler.Scheduler) :
  laws.queueOK (scheduler.queue s) →
  laws.queueOK (scheduler.queue (scheduler.enqueueAll now tasks s)).
Proof.
  unfold scheduler.enqueueAll. revert s.
  induction tasks as [|t tasks IH]; intros s Hs; [done|]. simpl.
  apply IH. simpl. exact (queueOK_EnqueueTask t _ Hs).
Qed.

Lemma scheduleGroups_queueOK (now : Z) (groups : list (string * list Task))
    (s : scheduler.Scheduler) :
  laws.queueOK (scheduler.queue s) →
  laws.queueOK (scheduler.queue (scheduler.scheduleGroups now groups s)).
Proof.
  unfold scheduler.scheduleGroups. revert s.
  induction groups as [|g groups IH]; intros s Hs; [done|]. simpl.
  apply IH. unfold scheduler.scheduleWorkflowTasks.
  destruct (storage.GetWorkflow _ _) as [w|]; [|done].
  destruct (_ && _); [done|]. case_bool_decide; [done|].
  apply enqueueAll_queueOK. by case_bool_decide.
Qed.

Lemma processRetries_queueOK (now : Z) (s : scheduler.Scheduler) :
  laws.queueOK (scheduler.queue s) →
  laws.queueOK (scheduler.queue (scheduler.processRetries now s)).
Proof.
  intros Hs. unfold scheduler.processRetries. cbn [scheduler.queue].
  apply (foldl_keeps laws.queueOK); [|done].
  intros q ty Hq. exact (queueOK_ProcessRetries now ty q Hq).
Qed.

(** What the worker does to the queue in one turn, against the server of
    package [api]: the status reports change nothing. *)
Lemma processTaskType_queue (uuid : nat → string) (now : Z) (w : worker.Worker)
    (ty : string) (srv : api.Server) :
  worker.processTaskType (api.ServeHTTP uuid) now w ty srv
  = match queue.DequeueTask ty (example.queueOf srv) with
    | (None, _) => srv
    | (Some task, q) =>
        worker.onQueue
          (λ _, match worker.runTask task with
                | Ok _ => queue.AckTask task q
                | Err _ => if Task_RetryCount task <? Task_MaxRetries task
                           then queue.NackTask now task q else queue.AckTask task q
                end) srv
    end.
Proof.
  unfold worker.processTaskType, example.queueOf.
  destruct (queue.DequeueTask _ _) as [[task|] q]; [|done].
  unfold worker.executeTask. rewrite !notifyTaskStatus_dropped.
  destruct (worker.runTask task) as [r|e].
  - by rewrite notifyTaskStatus_dropped.
  - destruct (_ <? _); by rewrite notifyTaskStatus_dropped.
Qed.

Lemma queueOK_step (uuid : nat → string) (srv srv' : api.Server) :
  system.step uuid srv srv' →
  laws.queueOK (example.queueOf srv) → laws.queueOK (example.queueOf srv').
Proof.
  intros Hstep H. destruct Hstep.
  - by rewrite api_serve_queue.
  - by apply scheduleGroups_queueOK.
  - by apply processRetries_queueOK.
  - done.
  - rewrite processTaskType_queue.
    destruct (queueOK_DequeueTask taskType _ H) as [Hq' _].
    destruct (queue.DequeueTask _ _) as [[task|] q]; [|done].
    unfold example.queueOf. simpl in *.
    destruct (worker.runTask task); [exact (queueOK_AckTask task q Hq')|].
    destruct (_ <? _); [exact (queueOK_NackTask now task q Hq')|exact (queueOK_AckTask task q Hq')].
Qed.

Lemma queueOK_empty : laws.queueOK queue.empty.
Proof. split; intros ty; try constructor. Qed.

Lemma reachable_queueOK (uuid : nat → string) (srv : api.Server) :
  system.reachable uuid srv → laws.queueOK (example.queueOf srv).
Proof.
  intros (srv0 & Hinit & Hrun).
  assert (H0 : laws.queueOK (example.queueOf srv0)).
  { unfold example.queueOf. rewrite Hinit. apply queueOK_empty. }
  clear Hinit. induction Hrun as [|x y z Hstep _ IH]; [done|].
  apply IH. by eapply queueOK_step.
Qed.

(** X11. Every element of the queue sits under a key of its own task type,
    and no retry set holds a task twice, in every state the system
    reaches; each queue operation keeps this, and so a worker that polls a
    task type receives only tasks of that type. *)
Theorem queue_types_kept :
  (∀ q, laws.queueOK q →
     (∀ task, laws.queueOK (queue.EnqueueTask task q))
     ∧ (∀ ty, laws.queueOK (queue.DequeueTask ty q).2)
     ∧ (∀ task, laws.queueOK (queue.AckTask task q))
     ∧ (∀ now task, laws.queueOK (queue.NackTask now task q))
     ∧ (∀ now ty, laws.queueOK (queue.ProcessRetries now ty q)))
  ∧ (∀ uuid srv, system.reachable uuid srv →
       laws.queueOK (example.queueOf srv)
       ∧ ∀ ty task, (queue.DequeueTask ty (example.queueOf srv)).1 = Some task →
                    Task_Type task = ty).
Proof.
  split.
  - intros q Hq. split_and!; intros.
    + by apply queueOK_EnqueueTask.
    + by apply queueOK_DequeueTask.
    + by apply queueOK_AckTask.
    + by apply queueOK_NackTask.
    + by apply queueOK_ProcessRetries.
  - intros uuid srv Hreach.
    pose proof (reachable_queueOK uuid srv Hreach) as Hq.
    split; [done|]. intros ty task Hd.
    by destruct (proj2 (queueOK_DequeueTask ty _ Hq) task Hd).
Qed.

(** ** Promotion of retries *)

Lemma getList_LPush (k : string) (x : Task) (q : queue.RedisQueue) :
  queue.getList (queue.LPush k x q) k = x :: queue.getList q k.
Proof. unfold queue.LPush. by rewrite getList_setList. Qed.

(** The loop of [ProcessRetries] over the members it read. *)
Lemma promote_loop (ty : string) (members : list Task) (q : queue.RedisQueue) :
  let q' := foldl (λ q x, queue.LPush (queue.queueKey ty) x
                            (queue.ZRem (queue.retryKey ty) x q)) q members in
  queue.getList q' (queue.queueKey ty)
  = (reverse members ++ queue.getList q (queue.queueKey ty))%list
  ∧ queue.getZSet q' (queue.retryKey ty)
    = filter (λ e, e.2 ∉ members) (queue.getZSet q (queue.retryKey ty))
  ∧ (∀ key, key ≠ queue.queueKey ty → queue.getList q' key = queue.getList q key)
  ∧ (∀ key, key ≠ queue.retryKey ty → queue.getZSet q' key = queue.getZSet q key).
Proof.
  revert q. induction members as [|x members IH]; intros q; simpl.
  - split_and!; try done. symmetry. apply filter_all. intros e _. apply not_elem_of_nil.
  - destruct (IH (queue.LPush (queue.queueKey ty) x (queue.ZRem (queue.retryKey ty) x q)))
      as (Hready & Hretry & Hlists & Hsets).
    split_and!.
    + rewrite Hready, getList_LPush. unfold queue.ZRem. rewrite getList_setZSet.
      by rewrite reverse_cons, <- app_assoc.
    + rewrite Hretry. unfold queue.LPush, queue.ZRem.
      rewrite getZSet_setList, getZSet_setZSet.
      rewrite list_filter_filter. apply list_filter_iff. intros e.
      rewrite not_elem_of_cons. tauto.
    + intros key Hkey. rewrite Hlists by done. unfold queue.LPush, queue.ZRem.
      rewrite getList_setList_ne by done. apply getList_setZSet.
    + intros key Hkey. rewrite Hsets by done. unfold queue.LPush, queue.ZRem.
      rewrite getZSet_setList. by apply getZSet_setZSet_ne.
Qed.

Lemma members_take_NoDup (n : nat) (z : list (Z * Task)) (P : Z * Task → Prop)
    `{∀ e, Decision (P e)} :
  NoDup (map snd z) → NoDup (take n (map snd (filter P z))).
Proof.
  intros Hnd. apply (sublist_NoDup _ (map snd z)); [done|].
  etrans; [apply sublist_take|]. apply fmap_sublist, sublist_filter.
Qed.

(** The entries of a set whose members are among [members], when no member
    is there twice, are as many as [members]. *)
Lemma members_count (members : list Task) (z : list (Z * Task)) :
  NoDup members → NoDup (map snd z) → members ⊆ map snd z →
  length (filter (λ e, e.2 ∈ members) z) = length members.
Proof.
  intros Hm Hz Hsub.
  rewrite <- (length_map snd). apply Permutation_length.
  apply NoDup_Permutation; [|done|].
  - apply (sublist_NoDup _ (map snd z)); [done|]. apply fmap_sublist, sublist_filter.
  - intros x. rewrite list_elem_of_fmap. split.
    + by intros (e & -> & [He _]%list_elem_of_filter).
    + intros Hx. destruct (proj1 (list_elem_of_fmap _ _ _) (Hsub x Hx)) as (e & -> & He).
      exists e. split; [done|]. by apply list_elem_of_filter.
Qed.

Lemma filter_iff_in {A : Type} (P Q : A → Prop) `{∀ x, Decision (P x)} `{∀ x, Decision (Q x)}
    (l : list A) :
  (∀ x, x ∈ l → P x ↔ Q x) → filter P l = filter Q l.
Proof.
  induction l as [|x l IH]; intros Hl; [done|].
  rewrite !filter_cons. rewrite IH by (intros y Hy; apply Hl; by right).
  destruct (decide (P x)) as [HP|HP], (decide (Q x)) as [HQ|HQ]; try done.
  - exfalso. apply HQ. apply Hl; [left|done].
  - exfalso. apply HP. apply Hl; [left|done].
Qed.

Lemma NoDup_fmap_eq {A B : Type} (f : A → B) (l : list A) (x y : A) :
  NoDup (map f l) → x ∈ l → y ∈ l → f x = f y → x = y.
Proof.
  induction l as [|a l IH]; intros Hnd Hx Hy Heq; [by apply elem_of_nil in Hx|].
  simpl in Hnd. apply NoDup_cons in Hnd as [Ha Hnd].
  apply elem_of_cons in Hx as [->|Hx], Hy as [->|Hy]; try done.
  - exfalso. apply Ha. rewrite Heq. apply list_elem_of_fmap. by exists y.
  - exfalso. apply Ha. rewrite <- Heq. apply list_elem_of_fmap. by exists x.
  - by apply IH.
Qed.

(** X12. [ProcessRetries] moves the retry entries that are due (score
    between 0 and the current Unix second), at most a hundred of them, to
    the ready list of the task type, and nothing else: the ready list
    receives them at its head, the retry set loses exactly their
    entries, and every other list and set is as before.  When no task is
    in the retry set twice, no task is lost or duplicated, and when at
    most a hundred entries are due the retry set keeps exactly the
    entries that are not due. *)
Theorem ProcessRetries_promotes (now : Z) (ty : string) (q : queue.RedisQueue) :
  let z := queue.getZSet q (queue.retryKey ty) in
  let promoted := take 100 (map snd (laws.due now z)) in
  let q' := queue.ProcessRetries now ty q in
  queue.getList q' (queue.queueKey ty)
  = (reverse promoted ++ queue.getList q (queue.queueKey ty))%list
  ∧ queue.getZSet q' (queue.retryKey ty) = filter (λ e, e.2 ∉ promoted) z
  ∧ (∀ key, key ≠ queue.queueKey ty → queue.getList q' key = queue.getList q key)
  ∧ (∀ key, key ≠ queue.retryKey ty → queue.getZSet q' key = queue.getZSet q key)
  ∧ (NoDup (map snd z) →
     (length (queue.getList q' (queue.queueKey ty))
      + length (queue.getZSet q' (queue.retryKey ty))
      = length (queue.getList q (queue.queueKey ty)) + length z)%nat
     ∧ ((length (laws.due now z) ≤ 100)%nat →
        queue.getZSet q' (queue.retryKey ty)
        = filter (λ e, ¬ (0 ≤ e.1 ∧ e.1 ≤ queue.Unix now)) z)).
Proof.
  intros z promoted q'.
  destruct (promote_loop ty promoted q) as (Hready & Hretry & Hlists & Hsets).
  fold z in Hretry.
  assert (Hq' : q' = foldl (λ q x, queue.LPush (queue.queueKey ty) x
                              (queue.ZRem (queue.retryKey ty) x q)) q promoted)
    by reflexivity.
  rewrite <- Hq' in Hready, Hretry, Hlists, Hsets. clear Hq'.
  split_and!; try done.
  intros Hnd.
  assert (Hpnd : NoDup promoted) by (by apply members_take_NoDup).
  assert (Hsub : promoted ⊆ map snd z).
  { intros x Hx%subseteq_take. apply list_elem_of_fmap in Hx as (e & -> & [_ He]%list_elem_of_filter).
    apply list_elem_of_fmap. by exists e. }
  split.
  - rewrite Hready, Hretry, length_app, length_reverse.
    pose proof (members_count promoted z Hpnd Hnd Hsub) as Hcount.
    pose proof (filter_app_complement (λ e : Z * Task, e.2 ∈ promoted) z) as Hperm.
    apply Permutation_length in Hperm. rewrite length_app in Hperm.
    rewrite Hcount in Hperm. lia.
  - intros Hfew. rewrite Hretry.
    assert (Hall : promoted = map snd (laws.due now z)).
    { subst promoted. apply take_ge. by rewrite length_map. }
    apply filter_iff_in. intros e He. rewrite Hall. split.
    + intros Hnot Hdue. apply Hnot. apply list_elem_of_fmap. exists e.
      split; [done|]. by apply list_elem_of_filter.
    + intros Hnot (e' & Hsnd & [Hdue He']%list_elem_of_filter)%list_elem_of_fmap.
      apply Hnot. by rewrite (NoDup_fmap_eq snd z e e' Hnd He He' Hsnd).
Qed.

(** ** One turn of a worker *)

Lemma DequeueTask_empty (ty : string) (q : queue.RedisQueue) :
  queue.getList q (queue.queueKey ty) = [] → queue.DequeueTask ty q = (None, q).
Proof. unfold queue.DequeueTask. by intros ->. Qed.

Lemma DequeueTask_oldest (ty : string) (q : queue.RedisQueue) (l : list Task) (task : Task) :
  queue.getList q (queue.queueKey ty) = (l ++ [task])%list →
  queue.DequeueTask ty q
  = (Some task, queue.LPush (queue.processingKey ty) task
                  (queue.setList (queue.queueKey ty) l q)).
Proof.
  unfold queue.DequeueTask. intros ->. rewrite reverse_app. simpl.
  by rewrite reverse_involutive.
Qed.

Lemma insertScore_others (score : Z) (x : Task) (z : list (Z * Task)) :
  filter (λ e, e.2 ≠ x) (queue.insertScore score x z) = filter (λ e, e.2 ≠ x) z.
Proof.
  induction z as [|e z IH]; simpl.
  - by rewrite filter_cons_False by (simpl; tauto).
  - destruct (score <? e.1).
    + by rewrite filter_cons_False by (simpl; tauto).
    + rewrite !filter_cons. by rewrite IH.
Qed.

(** X13. One turn of a worker on a task type, against the server of
    package [api] and on a queue whose elements sit under the keys of
    their types: with nothing ready the turn changes nothing; otherwise
    the oldest ready task is taken, the processing lists and the
    dead-letter lists end as they were, and the state store is untouched.
    The task leaves the queue when its body succeeds, and also when it
    fails with no retry left; when it fails with retries left it sits
    once in the retry set of its type, due at [now] plus the backoff, in
    whole seconds, and the other entries of the set are as before. *)
Theorem worker_turn (uuid : nat → string) (now : Z) (w : worker.Worker) (ty : string)
    (srv : api.Server) :
  laws.queueOK (example.queueOf srv) →
  let srv' := worker.processTaskType (api.ServeHTTP uuid) now w ty srv in
  let q := example.queueOf srv in
  let q' := example.queueOf srv' in
  example.storeOf srv' = example.storeOf srv
  ∧ (queue.getList q (queue.queueKey ty) = [] → srv' = srv)
  ∧ (∀ l task, queue.getList q (queue.queueKey ty) = (l ++ [task])%list →
       queue.getList q' (queue.queueKey ty) = l
       ∧ Task_Type task = ty
       ∧ (∀ ty', queue.getList q' (queue.processingKey ty')
                 = queue.getList q (queue.processingKey ty'))
       ∧ (∀ ty', queue.getList q' (queue.deadLetterKey ty')
                 = queue.getList q (queue.deadLetterKey ty'))
       ∧ match worker.runTask task with
         | Ok _ => queue.zsets q' = queue.zsets q
         | Err _ =>
             if Task_RetryCount task <? Task_MaxRetries task then
               let z := queue.getZSet q (queue.retryKey ty) in
               let z' := queue.getZSet q' (queue.retryKey ty) in
               filter (λ e, e.2 = task) z'
               = [(queue.Unix (now + queue.calculateBackoff (Task_RetryCount task)), task)]
               ∧ filter (λ e, e.2 ≠ task) z' = filter (λ e, e.2 ≠ task) z
             else queue.zsets q' = queue.zsets q
         end).
Proof.
  intros Hq srv' q q'. split_and!.
  - subst srv'. unfold worker.processTaskType.
    destruct (queue.DequeueTask _ _) as [[task|] q1]; [|done].
    by rewrite executeTask_store.
  - intros Hempty. subst srv'. rewrite processTaskType_queue.
    fold q. by rewrite (DequeueTask_empty ty q Hempty).
  - intros l task Hready.
    pose proof (laws.ok_ready _ Hq ty) as Hall. fold q in Hall. rewrite Hready in Hall.
    apply Forall_app in Hall as [_ Htask]. rewrite Forall_singleton in Htask.
    destruct Htask as [Htype Hjson].
    assert (Hq' : q' = match worker.runTask task with
                       | Ok _ => queue.AckTask task
                                   (queue.LPush (queue.processingKey ty) task
                                      (queue.setList (queue.queueKey ty) l q))
                       | Err _ =>
                           if Task_RetryCount task <? Task_MaxRetries task
                           then queue.NackTask now task
                                  (queue.LPush (queue.processingKey ty) task
                                     (queue.setList (queue.queueKey ty) l q))
                           else queue.AckTask task
                                  (queue.LPush (queue.processingKey ty) task
                                     (queue.setList (queue.queueKey ty) l q))
                       end).
    { subst q' srv'. rewrite processTaskType_queue. fold q.
      by rewrite (DequeueTask_oldest ty q l task Hready). }
    set (q1 := queue.LPush (queue.processingKey ty) task
                 (queue.setList (queue.queueKey ty) l q)) in *.
    set (q2 := queue.LRem1 (queue.processingKey ty) task q1).
    assert (Hready2 : queue.getList q2 (queue.queueKey ty) = l).
    { subst q2 q1. unfold queue.LRem1, queue.LPush.
      rewrite !getList_setList_ne by apply processingKey_not_queueKey.
      apply getList_setList. }
    assert (Hproc2 : ∀ ty', queue.getList q2 (queue.processingKey ty')
                            = queue.getList q (queue.processingKey ty')).
    { intros ty'. subst q2 q1. unfold queue.LRem1, queue.LPush.
      destruct (decide (ty = ty')) as [<-|Hne].
      - rewrite !getList_setList, removeFirst_head.
        apply getList_setList_ne, queueKey_not_processingKey.
      - rewrite !getList_setList_ne by (by intros ?%processingKey_inj).
        apply getList_setList_ne, queueKey_not_processingKey. }
    assert (Hdead2 : ∀ ty', queue.getList q2 (queue.deadLetterKey ty')
                            = queue.getList q (queue.deadLetterKey ty')).
    { intros ty'. subst q2 q1. unfold queue.LRem1, queue.LPush.
      rewrite !getList_setList_ne by apply processingKey_not_deadLetterKey.
      apply getList_setList_ne, queueKey_not_deadLetterKey. }
    assert (Hack : queue.AckTask task q1 = q2).
    { unfold queue.AckTask. by rewrite Htype, Hjson. }
    assert (Hnack : Task_RetryCount task < Task_MaxRetries task →
              queue.NackTask now task q1
              = queue.ZAdd (queue.retryKey ty)
                  (queue.Unix (now + queue.calculateBackoff (Task_RetryCount task))) task q2).
    { intros Hlt. unfold queue.NackTask.
      destruct (Z.ltb_spec (Task_RetryCount task) (Task_MaxRetries task)); [|lia].
      by rewrite Htype, Hjson. }
    rewrite Hack in Hq'.
    destruct (worker.runTask task) as [r|e].
    { subst q'. rewrite Hq'. by split_and!. }
    destruct (Z.ltb_spec (Task_RetryCount task) (Task_MaxRetries task)) as [Hlt|Hge].
    + rewrite (Hnack Hlt) in Hq'. subst q'. rewrite Hq'. unfold queue.ZAdd.
      rewrite !getList_setZSet, getZSet_setZSet. split_and!; try done.
      * apply insertScore_member. apply Forall_forall.
        by intros e0 [He _]%list_elem_of_filter.
      * rewrite insertScore_others, list_filter_filter.
        apply list_filter_iff. intros e0. tauto.
    + subst q'. rewrite Hq'. by split_and!.
Qed.

Lemma worker_turn_witness :
  let srv := example.retryEnqueued (api.ServeHTTP example.uuid) in
  laws.queueOK (example.queueOf srv)
  ∧ example.storeOf (worker.processTaskType (api.ServeHTTP example.uuid) 30 example.theWorker
                       "generic" srv)
    = example.storeOf srv.
Proof.
  assert (Hq : laws.queueOK
                 (example.queueOf (example.retryEnqueued (api.ServeHTTP example.uuid)))).
  { apply (reachable_queueOK example.uuid). exists example.srv0. split; [reflexivity|].
    eapply rtc_l; [apply (system.step_request _ 10 (example.submit example.retryRequest))|].
    eapply rtc_l; [apply (system.step_schedule _ (λ groups, groups) 20); by intros ?|].
    apply rtc_refl. }
  split; [exact Hq|].
  apply (worker_turn example.uuid 30 example.theWorker "generic" _ Hq).
Defined.

(** ** The worker registry *)

Lemma workerKey_inj (a b : string) : registry.workerKey a = registry.workerKey b → a = b.
Proof. unfold registry.workerKey. intros H. by simplify_eq/=. Qed.

Lemma workerSetKey_inj (a b : string) :
  registry.workerSetKey a = registry.workerSetKey b → a = b.
Proof. unfold registry.workerSetKey. intros H. by simplify_eq/=. Qed.

Lemma SMembers_SRem (key member : string) (r : registry.Registry) :
  registry.SMembers key (registry.SRem key member r)
  = filter (λ m, m ≠ member) (registry.SMembers key r).
Proof. unfold registry.SMembers at 1, registry.SRem. simpl. by rewrite lookup_insert_eq. Qed.

Lemma SMembers_SRem_ne (key key' member : string) (r : registry.Registry) :
  key ≠ key' →
  registry.SMembers key' (registry.SRem key member r) = registry.SMembers key' r.
Proof.
  intros Hne. unfold registry.SMembers, registry.SRem. simpl. by rewrite lookup_insert_ne.
Qed.

Lemma Get_Del (later : Z) (key key' : string) (r : registry.Registry) :
  registry.Get later key' (registry.Del key r)
  = if decide (key = key') then None else registry.Get later key' r.
Proof.
  unfold registry.Get, registry.Del. simpl. case_decide as Hk.
  - subst. by rewrite lookup_delete_eq.
  - by rewrite lookup_delete_ne.
Qed.

Lemma Get_Set (later now : Z) (key key' : string) (v : registry.WorkerInfo) (ttl : Z)
    (r : registry.Registry) :
  registry.Get later key' (registry.Set_ now key v ttl r)
  = if decide (key = key') then (if later <=? now + ttl then Some v else None)
    else registry.Get later key' r.
Proof.
  unfold registry.Get, registry.Set_. simpl. case_decide as Hk.
  - subst. by rewrite lookup_insert_eq.
  - by rewrite lookup_insert_ne.
Qed.

Lemma verdict_live (now : Z) (r : registry.Registry) (workerID : string)
    (info : registry.WorkerInfo) :
  laws.verdict now r workerID = Some info ↔ laws.live now workerID info r.
Proof.
  unfold laws.verdict, laws.live.
  destruct (registry.Get now (registry.workerKey workerID) r) as [i|]; [|by split; [|intros []]].
  destruct (Z.gtb_spec (now - registry.Worker_LastHeartbeat i) (time_Minute * 2)).
  - split; [done|]. intros [[= ->] ?]. lia.
  - split; [intros [= ->]; split; [done|lia]|]. by intros [[= ->] _].
Qed.

Lemma SRem_keys (later : Z) (key key' member : string) (r : registry.Registry) :
  registry.Get later key' (registry.SRem key member r) = registry.Get later key' r.
Proof. done. Qed.

Lemma SMembers_Del (key key' : string) (r : registry.Registry) :
  registry.SMembers key' (registry.Del key r) = registry.SMembers key' r.
Proof. done. Qed.

(** One more member visited. *)
Lemma visitWorker_visited (now : Z) (setKey : string) (r : registry.Registry)
    (seen : list string) (acc : list registry.WorkerInfo * registry.Registry) (id : string) :
  laws.visited now setKey r seen acc →
  laws.visited now setKey r (seen ++ [id])%list (registry.visitWorker now setKey acc id).
Proof.
  intros (Hlist & Hset & Hsets & Hkeys).
  assert (Hout : laws.verdict now r id = None →
            ∀ r', registry.SMembers setKey r'
                  = filter (λ m, m ≠ id) (registry.SMembers setKey acc.2) →
                  registry.SMembers setKey r'
                  = filter (λ m, m ∈ (seen ++ [id])%list → is_Some (laws.verdict now r m))
                      (registry.SMembers setKey r)).
  { intros Hv r' ->. rewrite Hset, list_filter_filter. apply list_filter_iff. intros m.
    rewrite elem_of_app, list_elem_of_singleton. split.
    - intros [Hne Hm] [Hin|Heq]; [by apply Hm|done].
    - intros Hm. split.
      + intros ->. destruct Hm as [x Hx]; [by right|]. by rewrite Hv in Hx.
      + intros Hin. apply Hm. by left. }
  assert (Hin : laws.verdict now r id ≠ None →
            registry.SMembers setKey acc.2
            = filter (λ m, m ∈ (seen ++ [id])%list → is_Some (laws.verdict now r m))
                (registry.SMembers setKey r)).
  { intros Hv. rewrite Hset. apply list_filter_iff. intros m.
    rewrite elem_of_app, list_elem_of_singleton. split.
    - intros Hm [Hin | ->]; [by apply Hm|].
      destruct (laws.verdict now r id); [by eexists|done].
    - intros Hm Hin. apply Hm. by left. }
  assert (Hother : ∀ later id', id' ≠ id ∨ laws.stale now r id = false →
            (if bool_decide (id' ∈ (seen ++ [id])%list) && laws.stale now r id' then None
             else registry.Get later (registry.workerKey id') r)
            = (if bool_decide (id' ∈ seen) && laws.stale now r id' then None
               else registry.Get later (registry.workerKey id') r)).
  { intros later id' Hcase.
    destruct (decide (id' = id)) as [->|Hne].
    - destruct Hcase as [? | ->]; [done|]. by rewrite !andb_false_r.
    - rewrite (bool_decide_ext (id' ∈ (seen ++ [id])%list) (id' ∈ seen)); [done|].
      rewrite elem_of_app, list_elem_of_singleton. tauto. }
  unfold registry.visitWorker. rewrite (Hkeys now id).
  unfold laws.visited. rewrite omap_app. simpl.
  pose proof (eq_refl (laws.verdict now r id)) as Hv.
  pose proof (eq_refl (laws.stale now r id)) as Hs.
  unfold laws.verdict at 2 in Hv. unfold laws.stale at 2 in Hs.
  destruct (registry.Get now (registry.workerKey id) r) as [info|] eqn:Hg.
  - destruct (Z.gtb_spec (now - registry.Worker_LastHeartbeat info) (time_Minute * 2))
      as [Hold|Hfresh].
    + (* stale *)
      rewrite Hv, Hs, andb_true_r. case_bool_decide as Hseen; simpl.
      * rewrite app_nil_r. split_and!; [done|by apply Hout, SMembers_SRem| |].
        -- intros key Hkey. rewrite SMembers_SRem_ne by done. by apply Hsets.
        -- intros later id'. rewrite SRem_keys, Hkeys.
           destruct (decide (id' = id)) as [->|Hne]; [|by rewrite Hother by (by left)].
           rewrite Hs, !andb_true_r.
           rewrite (bool_decide_eq_true_2 (id ∈ seen)) by done.
           by rewrite (bool_decide_eq_true_2 (id ∈ (seen ++ [id])%list))
             by (apply elem_of_app; by left).
      * destruct (Z.gtb_spec (now - registry.Worker_LastHeartbeat info) (time_Minute * 2));
          [|lia]. simpl.
        rewrite app_nil_r. split_and!; [done| | |].
        -- apply Hout; [done|]. rewrite SMembers_Del. apply SMembers_SRem.
        -- intros key Hkey. rewrite SMembers_Del, SMembers_SRem_ne by done. by apply Hsets.
        -- intros later id'. rewrite Get_Del, SRem_keys, Hkeys.
           case_decide as Hk.
           ++ apply workerKey_inj in Hk as <-. rewrite Hs, andb_true_r.
              by rewrite (bool_decide_eq_true_2 (id ∈ (seen ++ [id])%list))
                by (apply elem_of_app; right; by left).
           ++ rewrite Hother; [done|]. left. by intros ->.
    + (* live *)
      rewrite Hv, Hs, andb_false_r.
      destruct (Z.gtb_spec (now - registry.Worker_LastHeartbeat info) (time_Minute * 2));
        [lia|]. simpl.
      split_and!; [by rewrite Hlist|by apply Hin; rewrite Hv|done|].
      intros later id'. rewrite Hkeys. symmetry. apply Hother.
      destruct (decide (id' = id)); [by right|by left].
  - (* no key *)
    rewrite Hv, Hs, andb_false_r. simpl. rewrite app_nil_r.
    split_and!; [done|by apply Hout, SMembers_SRem| |].
    + intros key Hkey. rewrite SMembers_SRem_ne by done. by apply Hsets.
    + intros later id'. rewrite SRem_keys, Hkeys. symmetry. apply Hother.
      destruct (decide (id' = id)); [by right|by left].
Qed.

Lemma visitWorker_loop (now : Z) (setKey : string) (r : registry.Registry)
    (todo seen : list string) (acc : list registry.WorkerInfo * registry.Registry) :
  laws.visited now setKey r seen acc →
  laws.visited now setKey r (seen ++ todo)%list
    (foldl (registry.visitWorker now setKey) acc todo).
Proof.
  revert seen acc. induction todo as [|id todo IH]; intros seen acc Hacc; simpl.
  - by rewrite app_nil_r.
  - replace (seen ++ id :: todo)%list with ((seen ++ [id]) ++ todo)%list
      by (by rewrite <- app_assoc).
    apply IH. by apply visitWorker_visited.
Qed.

Lemma GetActiveWorkers_visited (now : Z) (ty : string) (r : registry.Registry) :
  laws.visited now (registry.workerSetKey ty) r
    (registry.SMembers (registry.workerSetKey ty) r) (registry.GetActiveWorkers now ty r).
Proof.
  unfold registry.GetActiveWorkers.
  apply (visitWorker_loop now (registry.workerSetKey ty) r
           (registry.SMembers (registry.workerSetKey ty) r) [] ([], r)).
  split_and!; simpl; try done.
  symmetry. apply filter_all. intros id _ Hin. by apply elem_of_nil in Hin.
Qed.

Lemma GetActiveWorkers_live (now : Z) (ty : string) (r : registry.Registry)
    (info : registry.WorkerInfo) :
  info ∈ (registry.GetActiveWorkers now ty r).1
  ↔ ∃ id, id ∈ registry.SMembers (registry.workerSetKey ty) r ∧ laws.live now id info r.
Proof.
  destruct (GetActiveWorkers_visited now ty r) as (Hlist & _).
  rewrite Hlist, list_elem_of_omap.
  split; intros (id & Hin & Hv); exists id; split; try done; by apply verdict_live.
Qed.

(** X14. [GetActiveWorkers] lists, in the order of the set, exactly the
    members of the set of the task type that are live at [now] (key
    present and heartbeat at most two minutes old), as the registry had
    them before the call: what the loop removes on its way does not change
    what it lists.  It drops from the set the members it does not list,
    deletes the key of a member whose heartbeat is too old, and leaves the
    sets of the other task types and every other key as they were. *)
Theorem GetActiveWorkers_lists_live (now : Z) (ty : string) (r : registry.Registry) :
  let members := registry.SMembers (registry.workerSetKey ty) r in
  let out := registry.GetActiveWorkers now ty r in
  out.1 = omap (laws.verdict now r) members
  ∧ (∀ info, info ∈ out.1 ↔ ∃ id, id ∈ members ∧ laws.live now id info r)
  ∧ registry.SMembers (registry.workerSetKey ty) out.2
    = filter (λ id, is_Some (laws.verdict now r id)) members
  ∧ (∀ ty', ty' ≠ ty →
       registry.SMembers (registry.workerSetKey ty') out.2
       = registry.SMembers (registry.workerSetKey ty') r)
  ∧ (∀ later id,
       registry.Get later (registry.workerKey id) out.2
       = if bool_decide (id ∈ members) && laws.stale now r id then None
         else registry.Get later (registry.workerKey id) r).
Proof.
  intros members out.
  destruct (GetActiveWorkers_visited now ty r) as (Hlist & Hset & Hsets & Hkeys).
  fold members out in Hlist, Hset, Hsets, Hkeys.
  split_and!.
  - done.
  - intros info. apply GetActiveWorkers_live.
  - rewrite Hset. apply filter_iff_in. intros id Hin. split; [|done]. intros H. by apply H.
  - intros ty' Hne. apply Hsets. by intros ?%workerSetKey_inj.
  - done.
Qed.

Lemma SAdd_keys (later : Z) (key key' member : string) (r : registry.Registry) :
  registry.Get later key' (registry.SAdd key member r) = registry.Get later key' r.
Proof. unfold registry.SAdd. by case_bool_decide. Qed.

Lemma SAdd_member (key member : string) (r : registry.Registry) :
  member ∈ registry.SMembers key (registry.SAdd key member r).
Proof.
  unfold registry.SAdd. case_bool_decide as Hin; [done|].
  unfold registry.SMembers at 1. simpl. rewrite lookup_insert_eq. simpl.
  apply elem_of_app. right. by left.
Qed.

Lemma SAdd_keeps (key key' member member' : string) (r : registry.Registry) :
  member' ∈ registry.SMembers key' r →
  member' ∈ registry.SMembers key' (registry.SAdd key member r).
Proof.
  intros Hin. unfold registry.SAdd. case_bool_decide; [done|].
  unfold registry.SMembers at 1. simpl.
  destruct (decide (key = key')) as [->|Hne].
  - rewrite lookup_insert_eq. simpl. apply elem_of_app. by left.
  - by rewrite lookup_insert_ne.
Qed.

Lemma RegisterWorker_sets (workerID : string) (taskTypes : list string) (ty : string)
    (r : registry.Registry) :
  ty ∈ taskTypes ∨ workerID ∈ registry.SMembers (registry.workerSetKey ty) r →
  workerID ∈ registry.SMembers (registry.workerSetKey ty)
               (foldl (λ r taskType, registry.SAdd (registry.workerSetKey taskType) workerID r)
                  r taskTypes).
Proof.
  revert r. induction taskTypes as [|ty0 taskTypes IH]; intros r Hcase; simpl.
  - destruct Hcase as [Hin|Hin]; [by apply elem_of_nil in Hin|done].
  - apply IH. destruct Hcase as [[->|Hin]%elem_of_cons|Hin].
    + right. apply SAdd_member.
    + by left.
    + right. by apply SAdd_keeps.
Qed.

Lemma RegisterWorker_key (later now : Z) (workerID address : string) (taskTypes : list string)
    (key : string) (r : registry.Registry) :
  registry.Get later key (registry.RegisterWorker now workerID address taskTypes r)
  = registry.Get later key
      (registry.Set_ now (registry.workerKey workerID)
         (registry.mkWorkerInfo workerID address taskTypes "active" now [])
         (time_Minute * 5) r).
Proof.
  unfold registry.RegisterWorker.
  generalize (registry.Set_ now (registry.workerKey workerID)
                (registry.mkWorkerInfo workerID address taskTypes "active" now [])
                (time_Minute * 5) r).
  induction taskTypes as [|ty types IH]; intros r0; simpl; [done|].
  by rewrite IH, SAdd_keys.
Qed.

(** X15. A worker that has registered is listed for each of its task
    types for two minutes, whatever the registry held before; a heartbeat
    within five minutes of the registration succeeds and renews the
    listing for two minutes from the heartbeat. *)
Theorem registered_worker_listed (now0 now : Z) (workerID address : string)
    (taskTypes : list string) (ty : string) (r : registry.Registry) :
  ty ∈ taskTypes →
  let r1 := registry.RegisterWorker now0 workerID address taskTypes r in
  let info (heartbeat : Z) :=
    registry.mkWorkerInfo workerID address taskTypes "active" heartbeat [] in
  (now0 ≤ now ≤ now0 + time_Minute * 2 →
     info now0 ∈ (registry.GetActiveWorkers now ty r1).1)
  ∧ (∀ now1, now1 ≤ now0 + time_Minute * 5 →
       ∃ r2, registry.UpdateWorkerHeartbeat now1 workerID r1 = Ok r2
             ∧ (now1 ≤ now ≤ now1 + time_Minute * 2 →
                info now1 ∈ (registry.GetActiveWorkers now ty r2).1)).
Proof.
  intros Hty r1 info.
  assert (Hmember : workerID ∈ registry.SMembers (registry.workerSetKey ty) r1).
  { apply RegisterWorker_sets. by left. }
  assert (Hkey : ∀ later, registry.Get later (registry.workerKey workerID) r1
                          = if later <=? now0 + time_Minute * 5 then Some (info now0) else None).
  { intros later. subst r1. rewrite RegisterWorker_key, Get_Set. by rewrite decide_True. }
  split.
  - intros Hnow.
    apply GetActiveWorkers_live.
    exists workerID. split; [done|]. split; [|simpl; lia].
    rewrite Hkey. destruct (Z.leb_spec now (now0 + time_Minute * 5)); [done|].
    unfold time_Minute, time_Second in *. lia.
  - intros now1 Hnow1. unfold registry.UpdateWorkerHeartbeat. rewrite Hkey.
    destruct (Z.leb_spec now1 (now0 + time_Minute * 5)); [|lia]. simpl.
    eexists. split; [reflexivity|]. intros Hnow.
    apply GetActiveWorkers_live.
    exists workerID. split; [done|]. split; [|simpl; lia].
    rewrite Get_Set, decide_True by done.
    destruct (Z.leb_spec now (now1 + time_Minute * 5)); [done|].
    unfold time_Minute, time_Second in *. lia.
Qed.

Lemma registered_worker_listed_witness :
  registry.mkWorkerInfo "w1" "localhost:9000" ["etl"; "ci"] "active" 0 []
  ∈ (registry.GetActiveWorkers time_Minute "ci"
       (registry.RegisterWorker 0 "w1" "localhost:9000" ["etl"; "ci"] registry.empty)).1.
Proof.
  apply (registered_worker_listed 0 time_Minute "w1" "localhost:9000" ["etl"; "ci"] "ci"
           registry.empty).
  - right. left.
  - vm_compute. split; discriminate.
Defined.

(** X16. A member of the set whose heartbeat is older than two minutes
    when [GetActiveWorkers] runs is evicted for good: it is dropped from
    the set, its key is deleted, and from then on every heartbeat of the
    worker fails and changes nothing, so the worker (which registers only
    when it starts) is not listed again for any task type. *)
Theorem evicted_worker_stays_out (now : Z) (ty workerID : string) (r : registry.Registry) :
  workerID ∈ registry.SMembers (registry.workerSetKey ty) r →
  laws.stale now r workerID = true →
  let r' := (registry.GetActiveWorkers now ty r).2 in
  (workerID ∉ registry.SMembers (registry.workerSetKey ty) r')
  ∧ ∀ later,
      registry.UpdateWorkerHeartbeat later workerID r'
      = Err "failed to get worker info: redis: nil"
      ∧ registry.heartbeat later workerID r' = r'
      ∧ ∀ ty' info, info ∈ (registry.GetActiveWorkers later ty' r').1 →
                    ¬ laws.live later workerID info r'.
Proof.
  intros Hmember Hstale r'.
  destruct (GetActiveWorkers_visited now ty r) as (_ & Hset & _ & Hkeys).
  fold r' in Hset, Hkeys.
  assert (Hgone : ∀ later, registry.Get later (registry.workerKey workerID) r' = None).
  { intros later. rewrite Hkeys, Hstale. by rewrite bool_decide_eq_true_2. }
  split.
  - rewrite Hset. intros [Hsome _]%list_elem_of_filter.
    destruct (Hsome Hmember) as [info Hinfo].
    unfold laws.verdict in Hinfo. unfold laws.stale in Hstale.
    destruct (registry.Get now (registry.workerKey workerID) r); [|done].
    by rewrite Hstale in Hinfo.
  - intros later.
    assert (Hbeat : registry.UpdateWorkerHeartbeat later workerID r'
                    = Err "failed to get worker info: redis: nil").
    { unfold registry.UpdateWorkerHeartbeat. by rewrite Hgone. }
    split_and!; [done|unfold registry.heartbeat; by rewrite Hbeat|].
    intros ty' info _ [Hget _]. by rewrite Hgone in Hget.
Qed.

Lemma evicted_worker_stays_out_witness :
  let r := registry.RegisterWorker 0 "w1" "localhost:9000" ["ci"] registry.empty in
  let r' := (registry.GetActiveWorkers (time_Minute * 3) "ci" r).2 in
  registry.heartbeat (time_Minute * 4) "w1" r' = r'.
Proof.
  apply (evicted_worker_stays_out (time_Minute * 3) "ci" "w1"
           (registry.RegisterWorker 0 "w1" "localhost:9000" ["ci"] registry.empty)).
  - vm_compute. left.
  - vm_compute. reflexivity.
Defined.

(** ** The router *)

Lemma findRoute_route (table : list (string * list api.Segment * api.Handler))
    (req : api.Request) (h : api.Handler) (param : option string) :
  api.findRoute table req = Some (h, param) →
  ∃ pattern, (api.Method req, pattern, h) ∈ table
             ∧ api.matchPath pattern (api.Path req) = Some param.
Proof.
  induction table as [|[[method pattern] h0] table IH]; simpl; [done|].
  case_bool_decide as Hm.
  - destruct (api.matchPath pattern (api.Path req)) as [p|] eqn:Hp.
    + intros [= <- <-]. exists pattern. split; [|done]. subst method. left.
    + intros (pattern' & Hin & Hmatch)%IH. exists pattern'. split; [by right|done].
  - intros (pattern' & Hin & Hmatch)%IH. exists pattern'. split; [by right|done].
Qed.

Lemma matchPath_literals (a b c : string) (path : list string) (param : option string) :
  api.matchPath [api.Lit a; api.Lit b; api.Lit c] path = Some param → path = [a; b; c].
Proof.
  destruct path as [|x [|y [|z [|? ?]]]]; simpl; try done;
    repeat (case_bool_decide; try done); by subst.
Qed.

Lemma matchPath_cancel (a b c d : string) (path : list string) (param : option string) :
  api.matchPath [api.Lit a; api.Lit b; api.Lit c; api.Param; api.Lit d] path = Some param →
  ∃ id, id ≠ "" ∧ param = Some id ∧ path = [a; b; c; id; d].
Proof.
  destruct path as [|x [|y [|z [|id [|u [|? ?]]]]]]; simpl; try done;
    repeat (case_bool_decide; try done).
  intros [= <-]. exists id. by subst.
Qed.

(** X17. The server changes its state for two requests only: the
    submission [POST /api/v1/workflows] and the cancellation
    [PUT /api/v1/workflows/{id}/cancel]; every other request, the status
    report of a worker among them, leaves the store, the queue and the
    identifier counter as they were. *)
Theorem only_submit_and_cancel_write (uuid : nat → string) (now : Z) (req : api.Request)
    (srv : api.Server) :
  (api.ServeHTTP uuid now req srv).2 ≠ srv →
  (api.Method req = "POST" ∧ api.Path req = ["api"; "v1"; "workflows"])
  ∨ (api.Method req = "PUT"
     ∧ ∃ id, id ≠ "" ∧ api.Path req = ["api"; "v1"; "workflows"; id; "cancel"]).
Proof.
  unfold api.ServeHTTP.
  destruct (api.findRoute api.routes req) as [[h param]|] eqn:Hroute.
  2:{ intros H. by rewrite noRoute_server in H. }
  apply findRoute_route in Hroute as (pattern & Hin & Hmatch).
  destruct h; intros Hchanged.
  - left. unfold api.routes in Hin.
    repeat (apply elem_of_cons in Hin as [Hin|Hin]; [try done|]);
      try (by apply elem_of_nil in Hin).
    injection Hin as Hmethod ->. split; [done|]. by eapply matchPath_literals.
  - exfalso. apply Hchanged. unfold api.getWorkflow. by destruct (scheduler.GetWorkflow _ _).
  - right. unfold api.routes in Hin.
    repeat (apply elem_of_cons in Hin as [Hin|Hin]; [try done|]);
      try (by apply elem_of_nil in Hin).
    injection Hin as Hmethod ->. split; [done|].
    destruct (matchPath_cancel _ _ _ _ _ _ Hmatch) as (id & Hid & _ & Hpath). by exists id.
  - done.
  - exfalso. apply Hchanged. unfold api.getTask. by destruct (scheduler.GetTask _ _).
  - done.
  - done.
  - done.
  - exfalso. apply Hchanged. apply serveStatic_server.
  - exfalso. apply Hchanged. apply serveFile_server.
Qed.

Lemma only_submit_and_cancel_write_witness :
  (api.ServeHTTP example.uuid 10 (example.submit example.soloRequest) example.srv0).2
  ≠ example.srv0
  ∧ api.Method (example.submit example.soloRequest) = "POST".
Proof.
  assert (Hchanged : (api.ServeHTTP example.uuid 10 (example.submit example.soloRequest)
                        example.srv0).2 ≠ example.srv0).
  { intros Heq. apply (f_equal api.drawn) in Heq. vm_compute in Heq. discriminate. }
  split; [exact Hchanged|].
  destruct (only_submit_and_cancel_write example.uuid 10
              (example.submit example.soloRequest) example.srv0 Hchanged)
    as [[Hm _]|[Hm _]]; exact Hm || (vm_compute in Hm; discriminate).
Defined.

(** ** Cancellation *)

Lemma cancel_route (id : string) (body : api.Body) :
  id ≠ "" →
  api.findRoute api.routes
    (api.mkRequest "PUT" ["api"; "v1"; "workflows"; id; "cancel"] body)
  = Some (api.h_cancelWorkflow, Some id).
Proof.
  intros Hid. unfold api.routes. cbn.
  by rewrite (bool_decide_eq_false_2 (id = "")) by done.
Qed.

(** X18. [PUT /api/v1/workflows/{id}/cancel] answers 200 whether or not
    the workflow exists, and for an id that is not stored it changes
    nothing.  A stored workflow becomes cancelled with [completed_at] at
    the time of the call whatever its status was; its tasks stay in the
    store and in the queue as they were, and the scheduler enqueues no
    task of it from then on. *)
Theorem cancel_is_unconditional (uuid : nat → string) (now : Z) (id : string)
    (body : api.Body) (srv : api.Server) :
  id ≠ "" →
  let out := api.ServeHTTP uuid now
               (api.mkRequest "PUT" ["api"; "v1"; "workflows"; id; "cancel"] body) srv in
  out.1 = api.mkResponse api.StatusOK (api.MessageJSON "Workflow cancelled")
  ∧ example.queueOf out.2 = example.queueOf srv
  ∧ storage.tasks (example.storeOf out.2) = storage.tasks (example.storeOf srv)
  ∧ ((∃ e, scheduler.GetWorkflow id (api.sched srv) = Err e) → out.2 = srv)
  ∧ (∀ w, scheduler.GetWorkflow id (api.sched srv) = Ok w →
       scheduler.GetWorkflow id (api.sched out.2)
       = Ok {| Workflow_ID := Workflow_ID w;
               Workflow_Name := Workflow_Name w;
               Workflow_Description := Workflow_Description w;
               Workflow_Status := WorkflowStatusCancelled;
               Workflow_Tasks := Workflow_Tasks w;
               Workflow_Config := Workflow_Config w;
               Workflow_CreatedAt := Workflow_CreatedAt w;
               Workflow_UpdatedAt := now;
               Workflow_StartedAt := Workflow_StartedAt w;
               Workflow_CompletedAt := Some now |}
       ∧ ∀ now' tasks,
           scheduler.scheduleWorkflowTasks now' id tasks (api.sched out.2)
           = Ok (api.sched out.2)).
Proof.
  intros Hid out.
  assert (Hout : out = api.cancelWorkflow now id srv).
  { subst out. unfold api.ServeHTTP. by rewrite cancel_route. }
  rewrite Hout. clear Hout out. unfold api.cancelWorkflow. cbn [fst snd].
  split_and!; try done.
  - intros Herr. unfold scheduler.CancelWorkflow, scheduler.GetWorkflow in *.
    rewrite UpdateWorkflowStatus_missing by done.
    by destruct srv as [[] ? ? ?].
  - intros w Hw. unfold scheduler.GetWorkflow in *. cbn [api.withSched api.sched].
    unfold scheduler.CancelWorkflow. cbn [scheduler.store].
    pose proof (UpdateWorkflowStatus_found id WorkflowStatusCancelled now _ w Hw) as Hread.
    split; [exact Hread|].
    intros now' tasks. unfold scheduler.scheduleWorkflowTasks. cbn [scheduler.store].
    by rewrite Hread.
Qed.

Lemma cancel_is_unconditional_witness :
  let out := api.ServeHTTP example.uuid 30
               (api.mkRequest "PUT" ["api"; "v1"; "workflows"; "id-0"; "cancel"] api.NoBody)
               example.chainStarted in
  example.workflowStatus "id-0" out.2 = Some WorkflowStatusCancelled
  ∧ example.readyNames "generic" out.2 = ["A"]
  ∧ out.1 = api.mkResponse api.StatusOK (api.MessageJSON "Workflow cancelled").
Proof.
  split; [vm_compute; reflexivity|]. split; [vm_compute; reflexivity|].
  by apply (cancel_is_unconditional example.uuid 30 "id-0" api.NoBody example.chainStarted).
Defined.

(** ** Grouping of the pending tasks *)

Lemma addToGroup_keys (task : Task) (groups : list (string * list Task)) :
  map fst (scheduler.addToGroup task groups)
  = (map fst groups
     ++ (if decide (Task_WorkflowID task ∈ map fst groups) then []
         else [Task_WorkflowID task]))%list.
Proof.
  induction groups as [|g groups IH].
  - simpl. destruct (decide (Task_WorkflowID task ∈ [])) as [Hin|Hin];
      [by apply elem_of_nil in Hin|done].
  - cbn [scheduler.addToGroup]. case_bool_decide as Hg.
    + cbn [map fst]. rewrite decide_True by (rewrite <- Hg; left). by rewrite app_nil_r.
    + cbn [map]. rewrite IH. cbn [app]. f_equal. f_equal.
      destruct (decide (Task_WorkflowID task ∈ map fst groups)) as [Hin|Hin].
      * rewrite decide_True; [done|]. by right.
      * rewrite decide_False; [done|]. intros [Heq|?]%elem_of_cons; [by apply Hg|done].
Qed.

Lemma filter_snoc_other (wid : string) (l : list Task) (task : Task) :
  Task_WorkflowID task ≠ wid →
  filter (λ t, Task_WorkflowID t = wid) (l ++ [task])%list
  = filter (λ t, Task_WorkflowID t = wid) l.
Proof.
  intros Hne. rewrite filter_app, filter_cons_False by done. by rewrite app_nil_r.
Qed.

Lemma filter_snoc_same (l : list Task) (task : Task) :
  filter (λ t, Task_WorkflowID t = Task_WorkflowID task) (l ++ [task])%list
  = (filter (λ t, Task_WorkflowID t = Task_WorkflowID task) l ++ [task])%list.
Proof. rewrite filter_app. by rewrite filter_cons_True. Qed.

Lemma addToGroup_groups (task : Task) (l : list Task) (groups : list (string * list Task)) :
  NoDup (map fst groups) →
  (Task_WorkflowID task ∉ map fst groups →
   filter (λ t, Task_WorkflowID t = Task_WorkflowID task) l = []) →
  Forall (λ g, g.2 ≠ [] ∧ g.2 = filter (λ t, Task_WorkflowID t = g.1) l) groups →
  Forall (λ g, g.2 ≠ [] ∧ g.2 = filter (λ t, Task_WorkflowID t = g.1) (l ++ [task])%list)
    (scheduler.addToGroup task groups).
Proof.
  induction groups as [|g groups IH]; intros Hnd Hnew Hall; simpl.
  - constructor; [|constructor]. simpl. split; [done|].
    rewrite filter_snoc_same, Hnew; [done|]. apply not_elem_of_nil.
  - simpl in Hnd. apply NoDup_cons in Hnd as [Hg Hnd].
    apply Forall_cons in Hall as [[Hne Hfil] Hall].
    case_bool_decide as Heq.
    + constructor.
      * simpl. split; [by destruct (g.2)|]. rewrite Heq, filter_snoc_same. by rewrite <- Heq, <- Hfil.
      * rewrite Forall_forall in Hall. apply Forall_forall. intros g' Hin.
        destruct (Hall g' Hin) as [Hne' Hfil']. split; [done|].
        rewrite filter_snoc_other; [done|]. intros Hsame. apply Hg.
        rewrite Heq, Hsame. apply list_elem_of_fmap. by exists g'.
    + constructor.
      * split; [done|]. by rewrite filter_snoc_other.
      * apply IH; [done| |done]. intros Hin. apply Hnew.
        intros [?|?]%elem_of_cons; [by apply Heq|done].
Qed.

(** X19. The scheduler tick groups the pending tasks by workflow without
    losing, repeating or reordering any: there is one group for each
    workflow that has a pending task and none for the others, and the tasks
    of a group are the pending tasks of its workflow, in the order of
    [GetPendingTasks]. *)
Theorem groupByWorkflow_partition (tasks : list Task) :
  let groups := scheduler.groupByWorkflow tasks in
  NoDup (map fst groups)
  ∧ Forall (λ g, g.2 ≠ [] ∧ g.2 = filter (λ t, Task_WorkflowID t = g.1) tasks) groups
  ∧ (∀ t, t ∈ tasks → Task_WorkflowID t ∈ map fst groups).
Proof.
  unfold scheduler.groupByWorkflow.
  induction tasks as [|task l IH] using rev_ind; simpl.
  - split_and!; [constructor|constructor|]. intros t Ht. by apply elem_of_nil in Ht.
  - rewrite foldl_app. simpl. destruct IH as (Hnd & Hall & Hcover).
    set (groups := foldl (λ groups task, scheduler.addToGroup task groups) [] l) in *.
    split_and!.
    + rewrite addToGroup_keys. case_decide as Hin; [by rewrite app_nil_r|].
      apply NoDup_app. split_and!; [done| |apply NoDup_singleton].
      intros x Hx ->%list_elem_of_singleton. done.
    + apply addToGroup_groups; [done| |done].
      intros Hnew. apply filter_none. intros t Ht Hsame. apply Hnew.
      rewrite <- Hsame. by apply Hcover.
    + intros t Ht. rewrite addToGroup_keys. apply elem_of_app.
      apply elem_of_app in Ht as [Ht| ->%list_elem_of_singleton].
      * left. by apply Hcover.
      * case_decide as Hin; [by left|right; by left].
Qed.
